(** * MiniRel buffer manager and heap-file layer: a shallow embedding

    The development follows [src/buf.C] (class [BufMgr]) and
    [src/s4/heapfile.C] (classes [HeapFile], [HeapFileScan] and
    [InsertFileScan]).  C++ objects become records, member functions become
    functions that pass the state explicitly, [Status] results stay values.

    Conventions.
    - [int] fields that hold page numbers, slot numbers or counters are [Z];
      frame numbers, the clock hand and [numBufs] index arrays and are [nat].
    - A [File*] is an address: [N] with [NULL = 0].
    - A pointer into the buffer pool ([Page*]) is the index of its frame.
    - Functions with an output parameter return [Ret A]: [Done a] stands for
      status [OK] with the parameter written, [Fail st] for status [st] with
      the parameter left alone. *)

From stdpp Require Import gmap list.
From Stdlib Require Import ZArith Lia.
From Stdlib.Strings Require Import Byte.

Open Scope Z_scope.

(** ** Status codes *)

Inductive Status :=
  | OK | BUFFEREXCEEDED | PAGEPINNED | PAGENOTPINNED | BADBUFFER
  | HASHNOTFOUND | HASHTBLERROR | UNIXERR | FILEEOF | FILEEXISTS
  | BADSCANPARM | INVALIDRECLEN | NOSPACE
  (* statuses of the page layer and of the file layer *)
  | ENDOFPAGE | NORECORDS | INVALIDSLOTNO | BADPAGENO.

#[global] Instance Status_eq_dec : EqDecision Status.
Proof. solve_decision. Defined.

Inductive Ret (A : Type) :=
  | Done (a : A)
  | Fail (st : Status).
Arguments Done {A} a.
Arguments Fail {A} st.

Definition status_of {A} (r : Ret A) : Status :=
  match r with Done _ => OK | Fail st => st end.

Abbreviation FilePtr := N (only parsing).
Abbreviation NULL := 0%N (only parsing).

(** ** Records, record identifiers and pages *)

Record RID := mkRID { pageNo : Z; slotNo : Z }.
Definition NULLRID : RID := mkRID (-1) (-1).

#[global] Instance RID_eq_dec : EqDecision RID.
Proof. solve_decision. Defined.

(** [struct Record { void* data; int length; }] *)
Record Rec := mkRec { data : list byte; reclen : Z }.

Record FileHdrPage := mkHdr {
  fileName : list byte;
  firstPage : Z;
  lastPage : Z;
  pageCnt : Z;
  recCnt : Z
}.

(** Modelled from the spec: the slotted data page of [page.h]/[page.C], which
    is not part of the sources.  The spec asks for "a slotted layout with a
    trailing nextPage link; -1 denotes end-of-list" in which record ids are
    stable until deletion.  A page keeps its own page number, the link, and
    a slot directory; an emptied slot is [None]. *)
Record DataPage := mkData {
  dpPageNo : Z;
  nextPage : Z;
  slots : list (option Rec)
}.

(** A frame of the pool is read either through [FileHdrPage*] or through
    [Page*]; the model keeps the two views apart. *)
Inductive Page :=
  | PHdr (h : FileHdrPage)
  | PData (d : DataPage).

(** The frames are zeroed by [memset] in the constructor. *)
Definition blankPage : Page := PData (mkData 0 0 []).

(** ** The paged file store *)

Module FileStore.

Inductive IOReq :=
  | RdReq (f : FilePtr) (n : Z)
  | WrReq (f : FilePtr) (n : Z) (pg : Page)
  | AllocReq (f : FilePtr)
  | DispReq (f : FilePtr) (n : Z).

(** One entry per call of a [File] member function, with its status. *)
Inductive IOEvent := IO (req : IOReq) (st : Status).

(** Modelled from the spec: class [File] and the [db] layer are external
    collaborators ("byte-exact transfer of PAGESIZE bytes").  The disk is a
    map from (file, page number) to page contents together with the log of
    all requests.  [fault] is an arbitrary deterministic fault schedule: a
    request fails with [fault log req] whenever that is not [OK].  [pick]
    is the page number that [allocatePage] hands out. *)
Record Disk := mkDisk {
  store : gmap (N * Z) Page;
  log : list IOEvent;
  fault : list IOEvent → IOReq → Status;
  pick : list IOEvent → FilePtr → Z
}.

Definition record (e : IOEvent) (st : gmap (N * Z) Page) (d : Disk) : Disk :=
  mkDisk st (log d ++ [e]) (fault d) (pick d).

Definition readPage (f : FilePtr) (n : Z) (d : Disk) : Ret Page * Disk :=
  let req := RdReq f n in
  match fault d (log d) req with
  | OK =>
      match store d !! (f, n) with
      | Some pg => (Done pg, record (IO req OK) (store d) d)
      | None => (Fail BADPAGENO, record (IO req BADPAGENO) (store d) d)
      end
  | st => (Fail st, record (IO req st) (store d) d)
  end.

Definition writePage (f : FilePtr) (n : Z) (pg : Page) (d : Disk) : Status * Disk :=
  let req := WrReq f n pg in
  match fault d (log d) req with
  | OK => (OK, record (IO req OK) (<[(f, n) := pg]> (store d)) d)
  | st => (st, record (IO req st) (store d) d)
  end.

Definition allocatePage (f : FilePtr) (d : Disk) : Ret Z * Disk :=
  let req := AllocReq f in
  match fault d (log d) req with
  | OK =>
      let n := pick d (log d) f in
      (Done n, record (IO req OK) (<[(f, n) := blankPage]> (store d)) d)
  | st => (Fail st, record (IO req st) (store d) d)
  end.

Definition disposePage (f : FilePtr) (n : Z) (d : Disk) : Status * Disk :=
  let req := DispReq f n in
  match fault d (log d) req with
  | OK => (OK, record (IO req OK) (delete (f, n) (store d)) d)
  | st => (st, record (IO req st) (store d) d)
  end.

Definition is_read (e : IOEvent) : bool :=
  match e with IO (RdReq _ _) _ => true | _ => false end.

(** A write-back of page [n] of file [f] that the file accepted. *)
Definition wrote (f : FilePtr) (n : Z) (e : IOEvent) : Prop :=
  ∃ pg, e = IO (WrReq f n pg) OK.

End FileStore.

(** ** The residency index *)

Module BufHashTbl.

(** Modelled from the spec: class [BufHashTbl] ([bufHash.C]) is not part of
    the sources.  "A hash map keyed by (file, pageNo) with values frameNo.
    Keys are unique; insertion fails if the key exists.  Removal of a
    missing key is an error."  Failure of the bucket allocation is outside
    the model. *)
Definition lookup (file : FilePtr) (pageNo : Z) (ht : gmap (N * Z) nat) : Ret nat :=
  match ht !! (file, pageNo) with
  | Some frameNo => Done frameNo
  | None => Fail HASHNOTFOUND
  end.

Definition insert (file : FilePtr) (pageNo : Z) (frameNo : nat)
    (ht : gmap (N * Z) nat) : Status * gmap (N * Z) nat :=
  match ht !! (file, pageNo) with
  | Some _ => (HASHTBLERROR, ht)
  | None => (OK, <[(file, pageNo) := frameNo]> ht)
  end.

Definition remove (file : FilePtr) (pageNo : Z)
    (ht : gmap (N * Z) nat) : Status * gmap (N * Z) nat :=
  match ht !! (file, pageNo) with
  | Some _ => (OK, delete (file, pageNo) ht)
  | None => (HASHNOTFOUND, ht)
  end.

End BufHashTbl.

(** ** The buffer manager *)

Module BufMgr.

Record BufDesc := mkDesc {
  file : FilePtr;
  pageNo : Z;
  frameNo : nat;
  pinCnt : Z;
  dirty : bool;
  valid : bool;
  refbit : bool
}.

(** Modelled from the spec: [BufDesc::Clear] and [BufDesc::Set] are inline
    members of [buf.h], which is not part of the sources.  "Clear() restores
    valid=false, pinCnt=0, dirty=false, refbit=0, file=null,
    pageNo=undefined while preserving frameNo"; the undefined page number
    is -1, as in [flushFile]. *)
Definition Clear (d : BufDesc) : BufDesc :=
  mkDesc NULL (-1) (frameNo d) 0 false false false.

(** Modelled from the spec: "set descriptor to (file, pageNo, pinCnt=1,
    dirty=false, refbit=1)", valid. *)
Definition Set_ (filePtr : FilePtr) (pageNum : Z) (d : BufDesc) : BufDesc :=
  mkDesc filePtr pageNum (frameNo d) 1 false true true.

Definition set_refbit (b : bool) (d : BufDesc) : BufDesc :=
  mkDesc (file d) (pageNo d) (frameNo d) (pinCnt d) (dirty d) (valid d) b.
Definition set_dirty (b : bool) (d : BufDesc) : BufDesc :=
  mkDesc (file d) (pageNo d) (frameNo d) (pinCnt d) b (valid d) (refbit d).
Definition set_pinCnt (n : Z) (d : BufDesc) : BufDesc :=
  mkDesc (file d) (pageNo d) (frameNo d) n (dirty d) (valid d) (refbit d).
Definition set_frameNo (i : nat) (d : BufDesc) : BufDesc :=
  mkDesc (file d) (pageNo d) i (pinCnt d) (dirty d) (valid d) (refbit d).

(** The buffer manager together with the disk it works on.  [numBufs] is
    the length of [bufTable]; [bufPool] is the parallel array of frames. *)
Record State := mkState {
  bufTable : list BufDesc;
  bufPool : list Page;
  hashTable : gmap (N * Z) nat;
  clockHand : nat;
  disk : FileStore.Disk
}.

Definition numBufs (s : State) : nat := length (bufTable s).

Definition set_bufTable (t : list BufDesc) (s : State) : State :=
  mkState t (bufPool s) (hashTable s) (clockHand s) (disk s).
Definition set_bufPool (p : list Page) (s : State) : State :=
  mkState (bufTable s) p (hashTable s) (clockHand s) (disk s).
Definition set_hashTable (h : gmap (N * Z) nat) (s : State) : State :=
  mkState (bufTable s) (bufPool s) h (clockHand s) (disk s).
Definition set_clockHand (c : nat) (s : State) : State :=
  mkState (bufTable s) (bufPool s) (hashTable s) c (disk s).
Definition set_disk (d : FileStore.Disk) (s : State) : State :=
  mkState (bufTable s) (bufPool s) (hashTable s) (clockHand s) d.

(** [bufTable[i]] and [bufPool[i]].  The indices used by the code are the
    clock hand and frame numbers stored in the residency index; outside the
    arrays the C++ is undefined and the model reads a zeroed entry. *)
Definition desc_at (s : State) (i : nat) : BufDesc :=
  default (mkDesc NULL 0 i 0 false false false) (bufTable s !! i).
Definition page_at (s : State) (i : nat) : Page :=
  default blankPage (bufPool s !! i).

Definition upd_desc (i : nat) (f : BufDesc → BufDesc) (s : State) : State :=
  set_bufTable (alter f i (bufTable s)) s.
Definition set_page (i : nat) (pg : Page) (s : State) : State :=
  set_bufPool (<[i := pg]> (bufPool s)) s.

(** [BufMgr::BufMgr(const int bufs)] *)
Definition new (bufs : nat) (d : FileStore.Disk) : State :=
  mkState ((λ i, mkDesc NULL 0 i 0 false false false) <$> seq 0 bufs)
          (replicate bufs blankPage) ∅ (bufs - 1)%nat d.

(** Modelled from the spec: [advanceClock] is an inline member of [buf.h]:
    "advance clockHand modulo numBufs". *)
Definition advanceClock (s : State) : State :=
  set_clockHand ((clockHand s + 1) `mod` numBufs s)%nat s.

(** The [while (true)] loop of [allocBuf]; [fuel] bounds the number of
    iterations and [None] means that it ran out. *)
Fixpoint allocBuf_loop (fuel numPinnedPages : nat) (s : State)
    : option (Ret nat * State) :=
  match fuel with
  | O => None
  | S fuel =>
      if decide (numBufs s = numPinnedPages) then Some (Fail BUFFEREXCEEDED, s)
      else
        let s := advanceClock s in
        let curBuffer := desc_at s (clockHand s) in
        let curPage := page_at s (clockHand s) in
        if negb (valid curBuffer) then
          Some (Done (frameNo curBuffer), upd_desc (clockHand s) Clear s)
        else if refbit curBuffer then
          allocBuf_loop fuel numPinnedPages
            (upd_desc (clockHand s) (set_refbit false) s)
        else if 0 <? pinCnt curBuffer then
          allocBuf_loop fuel (S numPinnedPages) s
        else
          let '(ret, s) :=
            if dirty curBuffer then
              let '(ret, d) :=
                FileStore.writePage (file curBuffer) (pageNo curBuffer)
                                    curPage (disk s) in
              (ret, set_disk d s)
            else (OK, s) in
          if decide (ret = OK) then
            let s := if dirty curBuffer
                     then upd_desc (clockHand s) (set_dirty true) s else s in
            match BufHashTbl.remove (file curBuffer) (pageNo curBuffer)
                                    (hashTable s) with
            | (OK, ht) =>
                Some (Done (frameNo curBuffer),
                      upd_desc (clockHand s) Clear (set_hashTable ht s))
            | (ret, _) => Some (Fail ret, s)
            end
          else Some (Fail UNIXERR, s)
  end.

(** Every iteration that does not return either clears a reference bit or
    counts a pinned frame, so [2 * numBufs + 1] iterations are enough (see
    [allocBuf_total]). *)
Definition allocBuf (s : State) : option (Ret nat * State) :=
  allocBuf_loop (2 * numBufs s + 1) 0 s.

(** [BufMgr::disposePage]: the statuses of the lookup and of the removal are
    dropped, that of [File::disposePage] is returned. *)
Definition disposePage (file : FilePtr) (pageNo : Z) (s : State) : Status * State :=
  let s :=
    match BufHashTbl.lookup file pageNo (hashTable s) with
    | Done frameNo => upd_desc frameNo Clear s
    | Fail _ => s
    end in
  let s := set_hashTable (BufHashTbl.remove file pageNo (hashTable s)).2 s in
  let '(st, d) := FileStore.disposePage file pageNo (disk s) in
  (st, set_disk d s).

(** [BufMgr::readPage].  The frame number stands for [page = &bufPool[frame]].
    The source assigns [page] before the insertion into the index; the
    insertion cannot fail here, the key having just been looked up in vain. *)
Definition readPage (file : FilePtr) (pageNo : Z) (s : State)
    : option (Ret nat * State) :=
  match BufHashTbl.lookup file pageNo (hashTable s) with
  | Fail HASHNOTFOUND =>
      match allocBuf s with
      | None => None
      | Some (Fail allocBufRet, s) => Some (Fail allocBufRet, s)
      | Some (Done frame, s) =>
          match FileStore.readPage file pageNo (disk s) with
          | (Fail readRet, d) =>
              let '(_, s) := disposePage file pageNo (set_disk d s) in
              Some (Fail readRet, s)
          | (Done pg, d) =>
              let s := set_page frame pg (set_disk d s) in
              match BufHashTbl.insert file pageNo frame (hashTable s) with
              | (OK, ht) =>
                  Some (Done frame,
                        upd_desc frame
                          (λ d, set_frameNo frame (Set_ file pageNo d))
                          (set_hashTable ht s))
              | (insertRet, _) => Some (Fail insertRet, s)
              end
          end
      end
  | Fail getRet => Some (Fail getRet, s)
  | Done frame =>
      Some (Done frame,
            upd_desc frame
              (λ d, set_pinCnt (pinCnt d + 1) (set_refbit true d)) s)
  end.

(** [BufMgr::unPinPage] *)
Definition unPinPage (file : FilePtr) (pageNo : Z) (dirty_ : bool) (s : State)
    : Status * State :=
  match BufHashTbl.lookup file pageNo (hashTable s) with
  | Fail getRet => (getRet, s)
  | Done frame =>
      let curBuffer := desc_at s frame in
      if decide (pinCnt curBuffer = 0) then (PAGENOTPINNED, s)
      else
        (OK, upd_desc frame
               (λ d, set_pinCnt (pinCnt d - 1)
                       (if dirty_ then set_dirty true d else d)) s)
  end.

(** [BufMgr::allocPage]; the outputs are the page number and the frame. *)
Definition allocPage (file : FilePtr) (s : State) : option (Ret (Z * nat) * State) :=
  match FileStore.allocatePage file (disk s) with
  | (Fail allocPageRet, d) => Some (Fail allocPageRet, set_disk d s)
  | (Done pageNum, d) =>
      match allocBuf (set_disk d s) with
      | None => None
      | Some (Fail allocBufRet, s) => Some (Fail allocBufRet, s)
      | Some (Done frame, s) =>
          match BufHashTbl.insert file pageNum frame (hashTable s) with
          | (OK, ht) =>
              Some (Done (pageNum, frame),
                    upd_desc frame (Set_ file pageNum) (set_hashTable ht s))
          | (insertRet, _) => Some (Fail insertRet, s)
          end
      end
  end.

(** The body of the [for] loop of [flushFile], over the frame numbers that
    are still to be visited. *)
Fixpoint flushFile_loop (todo : list nat) (file_ : FilePtr) (s : State)
    : Status * State :=
  match todo with
  | [] => (OK, s)
  | i :: todo =>
      let tmpbuf := desc_at s i in
      if valid tmpbuf && bool_decide (file tmpbuf = file_) then
        if 0 <? pinCnt tmpbuf then (PAGEPINNED, s)
        else
          let '(status, s) :=
            if dirty tmpbuf then
              let '(status, d) :=
                FileStore.writePage (file tmpbuf) (pageNo tmpbuf)
                                    (page_at s i) (disk s) in
              (status, set_disk d s)
            else (OK, s) in
          if decide (status = OK) then
            let s := set_hashTable
                       (BufHashTbl.remove file_ (pageNo tmpbuf) (hashTable s)).2 s in
            let s := upd_desc i
                       (λ d, mkDesc NULL (-1) (frameNo d) (pinCnt d)
                                    false false (refbit d)) s in
            flushFile_loop todo file_ s
          else (status, s)
      else if negb (valid tmpbuf) && bool_decide (file tmpbuf = file_) then
        (BADBUFFER, s)
      else flushFile_loop todo file_ s
  end.

(** [BufMgr::flushFile] *)
Definition flushFile (file_ : FilePtr) (s : State) : Status * State :=
  flushFile_loop (seq 0 (numBufs s)) file_ s.

(** [BufMgr::~BufMgr]: every valid dirty frame is written, the statuses are
    dropped.  What remains of the manager is the disk. *)
Fixpoint destroy_loop (todo : list nat) (s : State) : State :=
  match todo with
  | [] => s
  | i :: todo =>
      let tmpbuf := desc_at s i in
      if valid tmpbuf && dirty tmpbuf then
        destroy_loop todo
          (set_disk (FileStore.writePage (file tmpbuf) (pageNo tmpbuf)
                                         (page_at s i) (disk s)).2 s)
      else destroy_loop todo s
  end.

Definition destroy (s : State) : FileStore.Disk :=
  disk (destroy_loop (seq 0 (numBufs s)) s).

End BufMgr.

(** ** The page layer *)

Module PageLayer.

(** Modelled from the spec: class [Page] ([page.h], [page.C]) and its
    constants are not part of the sources.  The heap file only requires
    "that record IDs be stable within a page until explicit deletion and
    that firstRecord / nextRecord / getRecord / insertRecord / deleteRecord
    / getNextPage / setNextPage / init be available".  Slots are visited in
    increasing slot number; an output parameter is written only when the
    status is OK. *)
Definition PAGESIZE : Z := 1024.
Definition SLOTSIZE : Z := 4.
Definition DPFIXED : Z := 20.

(** The two views of a frame.  Reading a frame through the view it was not
    written with is outside the model and yields a zeroed structure. *)
Definition as_data (p : Page) : DataPage :=
  match p with PData d => d | PHdr _ => mkData 0 0 [] end.
Definition as_hdr (p : Page) : FileHdrPage :=
  match p with PHdr h => h | PData _ => mkHdr [] 0 0 0 0 end.

(** The first occupied slot at or after position [i]. *)
Fixpoint first_used (i : nat) (sl : list (option Rec)) : option nat :=
  match sl with
  | [] => None
  | Some _ :: _ => Some i
  | None :: sl => first_used (S i) sl
  end.

Definition used_from (i : nat) (d : DataPage) : option nat :=
  first_used i (drop i (slots d)).

Definition firstRecord (p : Page) : Ret RID :=
  match used_from 0 (as_data p) with
  | Some i => Done (mkRID (dpPageNo (as_data p)) (Z.of_nat i))
  | None => Fail NORECORDS
  end.

Definition nextRecord (p : Page) (curRid : RID) : Ret RID :=
  match used_from (Z.to_nat (slotNo curRid + 1)) (as_data p) with
  | Some i => Done (mkRID (dpPageNo (as_data p)) (Z.of_nat i))
  | None => Fail ENDOFPAGE
  end.

Definition getRecord (p : Page) (rid : RID) : Ret Rec :=
  if slotNo rid <? 0 then Fail INVALIDSLOTNO
  else match slots (as_data p) !! Z.to_nat (slotNo rid) with
       | Some (Some rec) => Done rec
       | _ => Fail INVALIDSLOTNO
       end.

Definition slot_bytes (o : option Rec) : Z :=
  match o with Some rec => reclen rec + SLOTSIZE | None => SLOTSIZE end.

Definition freeSpace (d : DataPage) : Z :=
  PAGESIZE - DPFIXED - foldr (λ o acc, slot_bytes o + acc) 0 (slots d).

(** The first empty slot, or the end of the directory. *)
Fixpoint free_slot (i : nat) (sl : list (option Rec)) : nat :=
  match sl with
  | [] => i
  | None :: _ => i
  | Some _ :: sl => free_slot (S i) sl
  end.

Definition put_slot (i : nat) (rec : Rec) (sl : list (option Rec)) : list (option Rec) :=
  if decide (i < length sl)%nat then <[i := Some rec]> sl else sl ++ [Some rec].

Definition insertRecord (p : Page) (rec : Rec) : Ret RID * Page :=
  let d := as_data p in
  if freeSpace d <? reclen rec + SLOTSIZE then (Fail NOSPACE, p)
  else
    let i := free_slot 0 (slots d) in
    (Done (mkRID (dpPageNo d) (Z.of_nat i)),
     PData (mkData (dpPageNo d) (nextPage d) (put_slot i rec (slots d)))).

Definition deleteRecord (p : Page) (rid : RID) : Status * Page :=
  let d := as_data p in
  match getRecord p rid with
  | Done _ =>
      (OK, PData (mkData (dpPageNo d) (nextPage d)
                         (<[Z.to_nat (slotNo rid) := None]> (slots d))))
  | Fail st => (st, p)
  end.

Definition getNextPage (p : Page) : Ret Z := Done (nextPage (as_data p)).

Definition setNextPage (pageNo : Z) (p : Page) : Page :=
  PData (mkData (dpPageNo (as_data p)) pageNo (slots (as_data p))).

Definition init (pageNo : Z) (p : Page) : Page :=
  PData (mkData pageNo (-1) []).

End PageLayer.

(** ** Heap files, scans and inserts *)

Module Heap.

Inductive Datatype := STRING | INTEGER | FLOAT | DatatypeOther (n : Z).
Inductive Operator := LT | LTE | EQ | GTE | GT | NE | OperatorOther (n : Z).

(** The members of [HeapFile] together with those that [HeapFileScan]
    adds.  [headerPage] and [curPage] point into the buffer pool. *)
Record HeapFile := mkHeapFile {
  filePtr : FilePtr;
  headerPage : nat;
  headerPageNo : Z;
  hdrDirtyFlag : bool;
  curPage : option nat;
  curPageNo : Z;
  curDirtyFlag : bool;
  curRec : RID;
  offset : Z;
  length : Z;
  type : Datatype;
  filter : option (list byte);
  op : Operator;
  markedPageNo : Z;
  markedRec : RID
}.

Definition set_hdrDirtyFlag (b : bool) (h : HeapFile) : HeapFile :=
  mkHeapFile (filePtr h) (headerPage h) (headerPageNo h) b
    (curPage h) (curPageNo h) (curDirtyFlag h) (curRec h)
    (offset h) (length h) (type h) (filter h) (op h)
    (markedPageNo h) (markedRec h).
Definition set_curPage (c : option nat) (h : HeapFile) : HeapFile :=
  mkHeapFile (filePtr h) (headerPage h) (headerPageNo h) (hdrDirtyFlag h)
    c (curPageNo h) (curDirtyFlag h) (curRec h)
    (offset h) (length h) (type h) (filter h) (op h)
    (markedPageNo h) (markedRec h).
Definition set_curPageNo (n : Z) (h : HeapFile) : HeapFile :=
  mkHeapFile (filePtr h) (headerPage h) (headerPageNo h) (hdrDirtyFlag h)
    (curPage h) n (curDirtyFlag h) (curRec h)
    (offset h) (length h) (type h) (filter h) (op h)
    (markedPageNo h) (markedRec h).
Definition set_curDirtyFlag (b : bool) (h : HeapFile) : HeapFile :=
  mkHeapFile (filePtr h) (headerPage h) (headerPageNo h) (hdrDirtyFlag h)
    (curPage h) (curPageNo h) b (curRec h)
    (offset h) (length h) (type h) (filter h) (op h)
    (markedPageNo h) (markedRec h).
Definition set_curRec (r : RID) (h : HeapFile) : HeapFile :=
  mkHeapFile (filePtr h) (headerPage h) (headerPageNo h) (hdrDirtyFlag h)
    (curPage h) (curPageNo h) (curDirtyFlag h) r
    (offset h) (length h) (type h) (filter h) (op h)
    (markedPageNo h) (markedRec h).
Definition set_filter (fl : option (list byte)) (h : HeapFile) : HeapFile :=
  mkHeapFile (filePtr h) (headerPage h) (headerPageNo h) (hdrDirtyFlag h)
    (curPage h) (curPageNo h) (curDirtyFlag h) (curRec h)
    (offset h) (length h) (type h) fl (op h)
    (markedPageNo h) (markedRec h).
Definition set_predicate (offset_ length_ : Z) (type_ : Datatype)
    (filter_ : list byte) (op_ : Operator) (h : HeapFile) : HeapFile :=
  mkHeapFile (filePtr h) (headerPage h) (headerPageNo h) (hdrDirtyFlag h)
    (curPage h) (curPageNo h) (curDirtyFlag h) (curRec h)
    offset_ length_ type_ (Some filter_) op_
    (markedPageNo h) (markedRec h).

(** [headerPage->...] and the update of header fields in place. *)
Definition hdr_of (h : HeapFile) (s : BufMgr.State) : FileHdrPage :=
  PageLayer.as_hdr (BufMgr.page_at s (headerPage h)).
Definition upd_hdr (f : FileHdrPage → FileHdrPage) (h : HeapFile)
    (s : BufMgr.State) : BufMgr.State :=
  BufMgr.set_page (headerPage h) (PHdr (f (hdr_of h s))) s.

Definition incr_recCnt (hd : FileHdrPage) : FileHdrPage :=
  mkHdr (fileName hd) (firstPage hd) (lastPage hd) (pageCnt hd) (recCnt hd + 1).
Definition decr_recCnt (hd : FileHdrPage) : FileHdrPage :=
  mkHdr (fileName hd) (firstPage hd) (lastPage hd) (pageCnt hd) (recCnt hd - 1).
Definition append_page (newPageNo : Z) (hd : FileHdrPage) : FileHdrPage :=
  mkHdr (fileName hd) (firstPage hd) newPageNo (pageCnt hd + 1) (recCnt hd).

(** [createHeapFile], from the point where [db.openFile] has failed and
    [db.createFile] and the second [db.openFile] have returned [file]; the
    catalog is an external collaborator. *)
Definition createHeapFile (file : FilePtr) (fileName : list byte)
    (s : BufMgr.State) : option (Status * BufMgr.State) :=
  match BufMgr.allocPage file s with
  | None => None
  | Some (Fail h_alloc, s) => Some (h_alloc, s)
  | Some (Done (hdrPageNo, hdrFrame), s) =>
      match BufMgr.allocPage file s with
      | None => None
      | Some (Fail d_alloc, s) => Some (d_alloc, s)
      | Some (Done (newPageNo, newFrame), s) =>
          let s := BufMgr.set_page newFrame
                     (PageLayer.setNextPage (-1)
                        (PageLayer.init newPageNo (BufMgr.page_at s newFrame))) s in
          let s := BufMgr.set_page hdrFrame
                     (PHdr (mkHdr fileName newPageNo newPageNo 1 0)) s in
          let s := (BufMgr.unPinPage file hdrPageNo true s).2 in
          let s := (BufMgr.unPinPage file newPageNo true s).2 in
          let s := (BufMgr.flushFile file s).2 in
          Some (OK, s)
      end
  end.

(** [HeapFile::HeapFile], from the point where [db.openFile] has returned
    [file] and [getFirstPage] has returned [pageNo].  Members that the
    constructor leaves uninitialised take the values of [h0]. *)
Definition open (file : FilePtr) (pageNo : Z) (h0 : HeapFile)
    (s : BufMgr.State) : option (Status * HeapFile * BufMgr.State) :=
  let h := mkHeapFile file (headerPage h0) (headerPageNo h0) (hdrDirtyFlag h0)
             (curPage h0) (curPageNo h0) (curDirtyFlag h0) (curRec h0)
             (offset h0) (length h0) (type h0) (filter h0) (op h0)
             (markedPageNo h0) (markedRec h0) in
  match BufMgr.readPage file pageNo s with
  | None => None
  | Some (Fail status, s) => Some (status, h, s)
  | Some (Done hdrFrame, s) =>
      let h := mkHeapFile file hdrFrame pageNo false
                 (curPage h) (curPageNo h) (curDirtyFlag h) (curRec h)
                 (offset h) (length h) (type h) (filter h) (op h)
                 (markedPageNo h) (markedRec h) in
      let firstNo := firstPage (hdr_of h s) in
      match BufMgr.readPage file firstNo s with
      | None => None
      | Some (Fail status, s) => Some (status, h, s)
      | Some (Done frame, s) =>
          Some (OK,
                set_curRec NULLRID
                  (set_curDirtyFlag false
                     (set_curPageNo firstNo (set_curPage (Some frame) h))),
                s)
      end
  end.

(** [HeapFileScan::HeapFileScan]: the base constructor, then [filter = NULL]. *)
Definition openScan (file : FilePtr) (pageNo : Z) (h0 : HeapFile)
    (s : BufMgr.State) : option (Status * HeapFile * BufMgr.State) :=
  match open file pageNo h0 s with
  | None => None
  | Some (status, h, s) => Some (status, set_filter None h, s)
  end.

(** [HeapFileScan::startScan]; [sizeof(int)] and [sizeof(float)] are 4. *)
Definition startScan (offset_ length_ : Z) (type_ : Datatype)
    (filter_ : option (list byte)) (op_ : Operator) (h : HeapFile)
    : Status * HeapFile :=
  match filter_ with
  | None => (OK, set_filter None h)
  | Some fl =>
      if ((offset_ <? 0) || (length_ <? 1))
         || match type_ with STRING | INTEGER | FLOAT => false | _ => true end
         || (match type_ with INTEGER => negb (length_ =? 4) | _ => false end
             || match type_ with FLOAT => negb (length_ =? 4) | _ => false end)
         || match op_ with OperatorOther _ => true | _ => false end
      then (BADSCANPARM, h)
      else (OK, set_predicate offset_ length_ type_ fl op_ h)
  end.

(** [HeapFileScan::endScan] *)
Definition endScan (h : HeapFile) (s : BufMgr.State) : Status * HeapFile * BufMgr.State :=
  match curPage h with
  | Some _ =>
      let '(status, s) := BufMgr.unPinPage (filePtr h) (curPageNo h) (curDirtyFlag h) s in
      (status, set_curDirtyFlag false (set_curPageNo 0 (set_curPage None h)), s)
  | None => (OK, h, s)
  end.



(** [HeapFileScan::markDirty] *)
Definition markDirty (h : HeapFile) : Status * HeapFile :=
  (OK, set_curDirtyFlag true h).

(** [HeapFileScan::deleteRecord]; [curPage] is dereferenced unchecked, so
    there is no result without a cursor page. *)
Definition deleteRecord (h : HeapFile) (s : BufMgr.State)
    : option (Status * HeapFile * BufMgr.State) :=
  match curPage h with
  | None => None
  | Some c =>
      let '(status, pg) := PageLayer.deleteRecord (BufMgr.page_at s c) (curRec h) in
      let s := BufMgr.set_page c pg s in
      let h := set_curDirtyFlag true h in
      let s := upd_hdr decr_recCnt h s in
      Some (status, set_hdrDirtyFlag true h, s)
  end.

(** *** The scan predicate *)

(** The sign of the [float diff] of [matchRec]. *)
Inductive Diff := DNeg | DZero | DPos | DNaN.

Definition diff_of_Z (z : Z) : Diff :=
  if z <? 0 then DNeg else if z =? 0 then DZero else DPos.

Definition byteZ (b : byte) : Z := Z.of_N (Byte.to_N b).

(** The [int] that [memcpy] assembles from at most four bytes
    (little endian, missing bytes zero). *)
Definition int_of_bytes (bs : list byte) : Z :=
  let u := foldr (λ b acc, byteZ b + 256 * acc) 0 (take 4 bs) in
  if u <? 2 ^ 31 then u else u - 2 ^ 32.

Definition wrap32 (z : Z) : Z := (z + 2 ^ 31) `mod` 2 ^ 32 - 2 ^ 31.

Fixpoint strncmp (n : nat) (a b : list byte) : Z :=
  match n with
  | O => 0
  | S n =>
      let ca := match a with c :: _ => byteZ c | [] => 0 end in
      let cb := match b with c :: _ => byteZ c | [] => 0 end in
      if negb (ca =? cb) then ca - cb
      else if ca =? 0 then 0
      else strncmp n (tail a) (tail b)
  end.

Section Predicate.

(** The comparison of two [float] attributes is left to the caller: the
    sign of [fattr - ffltr] for the two byte strings. *)
Variable float_diff : list byte → list byte → Diff.

(** [HeapFileScan::matchRec].  [diff] stays 0 when [type] is none of the
    three cases of the [switch]. *)
Definition matchRec (h : HeapFile) (rec : Rec) : bool :=
  match filter h with
  | None => true
  | Some fl =>
      if reclen rec <=? offset h + length h - 1 then false
      else
        let n := Z.to_nat (length h) in
        let attr := drop (Z.to_nat (offset h)) (data rec) in
        let diff :=
          match type h with
          | INTEGER =>
              diff_of_Z (wrap32 (int_of_bytes (take n attr)
                                 - int_of_bytes (take n fl)))
          | FLOAT => float_diff (take n attr) (take n fl)
          | STRING => diff_of_Z (strncmp n attr fl)
          | DatatypeOther _ => DZero
          end in
        match op h, diff with
        | LT, DNeg => true
        | LTE, (DNeg | DZero) => true
        | EQ, DZero => true
        | GTE, (DZero | DPos) => true
        | GT, DPos => true
        | NE, (DNeg | DPos | DNaN) => true
        | _, _ => false
        end
  end.

(** The [while (true)] loop of [scanNext].  [fuel] bounds the number of
    iterations; [None] means that it ran out, or that [curPage] was
    dereferenced while null. *)
Fixpoint scanNext_loop (fuel : nat) (h : HeapFile) (s : BufMgr.State)
    : option (Ret RID * HeapFile * BufMgr.State) :=
  match fuel, curPage h with
  | O, _ | _, None => None
  | S fuel, Some c =>
      let check (h : HeapFile) (c : nat) (s : BufMgr.State) :=
        match PageLayer.getRecord (BufMgr.page_at s c) (curRec h) with
        | Fail status => Some (Fail status, h, s)
        | Done rec =>
            if matchRec h rec then Some (Done (curRec h), h, s)
            else scanNext_loop fuel h s
        end in
      match PageLayer.nextRecord (BufMgr.page_at s c) (curRec h) with
      | Done nextRid => check (set_curRec nextRid h) c s
      | Fail _ =>
          match PageLayer.getNextPage (BufMgr.page_at s c) with
          | Fail status => Some (Fail status, h, s)
          | Done nextPageNo =>
              if nextPageNo =? -1 then Some (Fail FILEEOF, h, s)
              else
                match BufMgr.unPinPage (filePtr h) (curPageNo h)
                                       (curDirtyFlag h) s with
                | (OK, s) =>
                    let h := set_curDirtyFlag false (set_curPageNo nextPageNo h) in
                    match BufMgr.readPage (filePtr h) (curPageNo h) s with
                    | None => None
                    | Some (Fail status, s) => Some (Fail status, h, s)
                    | Some (Done frame, s) =>
                        let h := set_curPage (Some frame) h in
                        match PageLayer.firstRecord (BufMgr.page_at s frame) with
                        | Done rid => check (set_curRec rid h) frame s
                        | Fail _ => scanNext_loop fuel h s
                        end
                    end
                | (status, s) => Some (Fail status, h, s)
                end
          end
      end
  end.

(** [HeapFileScan::scanNext] *)
Definition scanNext (fuel : nat) (h : HeapFile) (s : BufMgr.State)
    : option (Ret RID * HeapFile * BufMgr.State) :=
  match curPage h with
  | Some _ => scanNext_loop fuel h s
  | None =>
      let h := set_curDirtyFlag false
                 (set_curPageNo (firstPage (hdr_of h s)) h) in
      match BufMgr.readPage (filePtr h) (curPageNo h) s with
      | None => None
      | Some (Fail status, s) => Some (Fail status, h, s)
      | Some (Done frame, s) =>
          let h := set_curPage (Some frame) h in
          match PageLayer.firstRecord (BufMgr.page_at s frame) with
          | Fail status => Some (Fail status, h, s)
          | Done tmpRid => scanNext_loop fuel (set_curRec tmpRid h) s
          end
      end
  end.

End Predicate.

(** *** InsertFileScan *)

(** The [if (!curPage)] block of [insertRecord]. *)
Definition insertRecord_cursor (h : HeapFile) (s : BufMgr.State)
    : option (Status * HeapFile * BufMgr.State) :=
  match curPage h with
  | Some _ => Some (OK, h, s)
  | None =>
      match BufMgr.unPinPage (filePtr h) (curPageNo h) (curDirtyFlag h) s with
      | (OK, s) =>
          let h := set_curPageNo (lastPage (hdr_of h s)) h in
          match BufMgr.readPage (filePtr h) (curPageNo h) s with
          | None => None
          | Some (Fail status, s) => Some (status, set_curDirtyFlag false h, s)
          | Some (Done frame, s) =>
              let h := set_curDirtyFlag false (set_curPage (Some frame) h) in
              match PageLayer.firstRecord (BufMgr.page_at s frame) with
              | Done rid => Some (OK, set_curRec rid h, s)
              | Fail status => Some (status, h, s)
              end
          end
      | (status, s) => Some (status, h, s)
      end
  end.

(** The [NOSPACE] branch of [insertRecord]: a new last page. *)
Definition insertRecord_newPage (rec : Rec) (c : nat) (h : HeapFile)
    (s : BufMgr.State) : option (Ret RID * HeapFile * BufMgr.State) :=
  match BufMgr.allocPage (filePtr h) s with
  | None => None
  | Some (Fail status, s) => Some (Fail status, h, s)
  | Some (Done (newPageNo, newPage), s) =>
      let s := BufMgr.set_page newPage
                 (PageLayer.init newPageNo (BufMgr.page_at s newPage)) s in
      let s := upd_hdr (append_page newPageNo) h s in
      let s := BufMgr.set_page c
                 (PageLayer.setNextPage newPageNo (BufMgr.page_at s c)) s in
      let h := set_curDirtyFlag true h in
      (* the status tested after this unpin is still that of allocPage *)
      let s := (BufMgr.unPinPage (filePtr h) (curPageNo h) (curDirtyFlag h) s).2 in
      let h := set_curPageNo (lastPage (hdr_of h s)) h in
      match BufMgr.readPage (filePtr h) (curPageNo h) s with
      | None => None
      | Some (Fail status, s) => Some (Fail status, h, s)
      | Some (Done frame, s) =>
          let h := set_curPage (Some frame) h in
          match PageLayer.insertRecord (BufMgr.page_at s frame) rec with
          | (Fail status, _) => Some (Fail status, h, s)
          | (Done rid, pg) =>
              let s := BufMgr.set_page frame pg s in
              let s := upd_hdr incr_recCnt h s in
              let h := set_curDirtyFlag true (set_curRec rid h) in
              let s := BufMgr.set_page frame
                         (PageLayer.setNextPage (-1) (BufMgr.page_at s frame)) s in
              (* as above: the status tested is that of the insert *)
              let s := (BufMgr.unPinPage (filePtr h) (curPageNo h)
                                         (curDirtyFlag h) s).2 in
              Some (Done rid, h, s)
          end
      end
  end.

(** [InsertFileScan::insertRecord].  The length test compares
    [(unsigned int) rec.length] with [PAGESIZE - DPFIXED]. *)
Definition insertRecord (rec : Rec) (h : HeapFile) (s : BufMgr.State)
    : option (Ret RID * HeapFile * BufMgr.State) :=
  if PageLayer.PAGESIZE - PageLayer.DPFIXED <? reclen rec `mod` 2 ^ 32 then
    Some (Fail INVALIDRECLEN, h, s)
  else
    match insertRecord_cursor h s with
    | None => None
    | Some (OK, h, s) =>
        match curPage h with
        | None => None
        | Some c =>
            match PageLayer.insertRecord (BufMgr.page_at s c) rec with
            | (Done rid, pg) =>
                let s := BufMgr.set_page c pg s in
                let s := upd_hdr incr_recCnt h s in
                Some (Done rid, set_curDirtyFlag true (set_curRec rid h), s)
            | (Fail NOSPACE, _) => insertRecord_newPage rec c h s
            | (Fail status, _) => Some (Fail status, h, s)
            end
        end
    | Some (status, h, s) => Some (Fail status, h, s)
    end.

(** *** Destructors *)

(** [HeapFile::~HeapFile], up to the call of [db.closeFile]. *)
Definition close (h : HeapFile) (s : BufMgr.State) : HeapFile * BufMgr.State :=
  let '(h, s) :=
    match curPage h with
    | Some _ =>
        let s := (BufMgr.unPinPage (filePtr h) (curPageNo h) (curDirtyFlag h) s).2 in
        (set_curDirtyFlag false (set_curPageNo 0 (set_curPage None h)), s)
    | None => (h, s)
    end in
  (h, (BufMgr.unPinPage (filePtr h) (headerPageNo h) (hdrDirtyFlag h) s).2).

(** [HeapFileScan::~HeapFileScan] followed by the base destructor. *)
Definition closeScan (h : HeapFile) (s : BufMgr.State) : HeapFile * BufMgr.State :=
  let '(_, h, s) := endScan h s in close h s.

(** [InsertFileScan::~InsertFileScan] followed by the base destructor. *)
Definition closeInsert (h : HeapFile) (s : BufMgr.State) : HeapFile * BufMgr.State :=
  let '(h, s) :=
    match curPage h with
    | Some _ =>
        let s := (BufMgr.unPinPage (filePtr h) (curPageNo h) true s).2 in
        (set_curPageNo 0 (set_curPage None h), s)
    | None => (h, s)
    end in
  close h s.

(** *** Record access *)

(** [HeapFile::getRecCnt] *)
Definition getRecCnt (h : HeapFile) (s : BufMgr.State) : Z :=
  recCnt (hdr_of h s).

(** The [else] branch of [HeapFile::getRecord]: the cursor page is
    released and the page of [rid] is read and pinned in its place. *)
Definition getRecord_move (rid : RID) (h : HeapFile) (s : BufMgr.State)
    : option (Ret Rec * HeapFile * BufMgr.State) :=
  match BufMgr.unPinPage (filePtr h) (curPageNo h) (curDirtyFlag h) s with
  | (OK, s) =>
      let h := set_curDirtyFlag false
                 (set_curRec rid (set_curPageNo (pageNo rid) h)) in
      match BufMgr.readPage (filePtr h) (curPageNo h) s with
      | None => None
      | Some (Fail status, s) => Some (Fail status, h, s)
      | Some (Done frame, s) =>
          let h := set_curPage (Some frame) h in
          Some (PageLayer.getRecord (BufMgr.page_at s frame) (curRec h), h, s)
      end
  | (status, s) => Some (Fail status, h, s)
  end.

(** [HeapFile::getRecord]: the record with id [rid], through the cursor
    page when it is the page of [rid], else after a move of the cursor. *)
Definition getRecord (rid : RID) (h : HeapFile) (s : BufMgr.State)
    : option (Ret Rec * HeapFile * BufMgr.State) :=
  match curPage h with
  | Some c =>
      if decide (curPageNo h = pageNo rid) then
        let h := set_curRec rid h in
        Some (PageLayer.getRecord (BufMgr.page_at s c) (curRec h), h, s)
      else getRecord_move rid h s
  | None => getRecord_move rid h s
  end.

(** [HeapFileScan::getRecord]: the current record; [curPage] is
    dereferenced unchecked. *)
Module HeapFileScan.
Definition getRecord (h : HeapFile) (s : BufMgr.State) : option (Ret Rec) :=
  match curPage h with
  | Some c => Some (PageLayer.getRecord (BufMgr.page_at s c) (curRec h))
  | None => None
  end.
End HeapFileScan.

End Heap.

(** * Invariants and scenarios *)

Module BufInv.
Import BufMgr.

(** ** Invariants of the frame table *)

(** [bufTable[i].frameNo = i], set up by the constructor. *)
Definition numbered (s : State) : Prop :=
  ∀ i d, bufTable s !! i = Some d → frameNo d = i.

(** Every valid frame is in the residency index under its own identity. *)
Definition index_complete (s : State) : Prop :=
  ∀ i d, bufTable s !! i = Some d → valid d = true →
    hashTable s !! (file d, pageNo d) = Some (frameNo d).

(** Every entry of the residency index points to a valid frame with the
    identity of the key. *)
Definition index_sound (s : State) : Prop :=
  ∀ f p i, hashTable s !! (f, p) = Some i →
    ∃ d, bufTable s !! i = Some d ∧ valid d = true ∧ file d = f ∧ pageNo d = p.

Definition coherent (s : State) : Prop := index_complete s ∧ index_sound s.

Definition wf (s : State) : Prop := numbered s ∧ coherent s.

(** The pool has one frame for every descriptor. *)
Definition pooled (s : State) : Prop := length (bufPool s) = numBufs s.

(** No pin count is negative. *)
Definition pins_ok (s : State) : Prop :=
  ∀ i d, bufTable s !! i = Some d → 0 ≤ pinCnt d.

(** Two descriptors that agree on everything the invariants look at. *)
Definition same_ident (d d' : BufDesc) : Prop :=
  file d' = file d ∧ pageNo d' = pageNo d ∧ frameNo d' = frameNo d
  ∧ valid d' = valid d.

(** ** The shape of one call of [allocBuf] *)

(** The state after some iterations that did not return: the clock hand
    has moved and reference bits have changed, nothing else. *)
Definition swept (s s' : State) : Prop :=
  bufPool s' = bufPool s ∧ hashTable s' = hashTable s ∧ disk s' = disk s
  ∧ Forall2 (λ d d', ∃ b, d' = set_refbit b d) (bufTable s) (bufTable s').

(** The iteration of [allocBuf] that returns a frame or an I/O error, from
    the point where the clock hand has been advanced. *)
Definition allocBuf_last (s : State) : Ret nat * State :=
  let curBuffer := desc_at s (clockHand s) in
  let curPage := page_at s (clockHand s) in
  if negb (valid curBuffer) then
    (Done (frameNo curBuffer), upd_desc (clockHand s) Clear s)
  else
    let '(ret, s) :=
      if dirty curBuffer then
        let '(ret, d) :=
          FileStore.writePage (file curBuffer) (pageNo curBuffer)
                              curPage (disk s) in
        (ret, set_disk d s)
      else (OK, s) in
    if decide (ret = OK) then
      let s := if dirty curBuffer
               then upd_desc (clockHand s) (set_dirty true) s else s in
      match BufHashTbl.remove (file curBuffer) (pageNo curBuffer)
                              (hashTable s) with
      | (OK, ht) =>
          (Done (frameNo curBuffer),
           upd_desc (clockHand s) Clear (set_hashTable ht s))
      | (ret, _) => (Fail ret, s)
      end
    else (Fail UNIXERR, s).

(** The number of reference bits that are set. *)
Definition refs (t : list BufDesc) : nat :=
  sum_list_with (λ d, if refbit d then 1%nat else 0%nat) t.

(** The three ways in which the returning iteration of [allocBuf] ends at
    frame [i] of [s]: an invalid frame is taken, a valid frame is evicted
    (after its write-back into [dk] when it is dirty), or the write-back
    fails. *)
Definition takes_invalid (s : State) (i : nat) (r : Ret nat) (s' : State) : Prop :=
  valid (desc_at s i) = false ∧ r = Done i ∧ s' = upd_desc i Clear s.

Definition written_back (s : State) (i : nat) (dk : FileStore.Disk) : Prop :=
  let d := desc_at s i in
  (dirty d = false ∧ dk = disk s)
  ∨ (dirty d = true
     ∧ FileStore.writePage (file d) (pageNo d) (page_at s i) (disk s) = (OK, dk)).

Definition evicts (s : State) (i : nat) (r : Ret nat) (s' : State) : Prop :=
  let d := desc_at s i in
  valid d = true ∧ refbit d = false ∧ pinCnt d ≤ 0
  ∧ ∃ dk, written_back s i dk ∧ r = Done i
      ∧ s' = upd_desc i Clear
               (set_hashTable (delete (file d, pageNo d) (hashTable s))
                              (set_disk dk s)).

Definition write_fails (s : State) (i : nat) (r : Ret nat) (s' : State) : Prop :=
  let d := desc_at s i in
  valid d = true ∧ dirty d = true
  ∧ ∃ st dk, st ≠ OK
      ∧ FileStore.writePage (file d) (pageNo d) (page_at s i) (disk s) = (st, dk)
      ∧ r = Fail UNIXERR ∧ s' = set_disk dk s.

(** ** Sequences of calls *)

(** The calls that a client of the buffer manager can make.  [OpWrite]
    is a store through a page pointer that the manager handed out;
    [OpAllocBuf] is the private [allocBuf] on its own. *)
Inductive Op :=
  | OpReadPage (f : FilePtr) (p : Z)
  | OpAllocPage (f : FilePtr)
  | OpUnPinPage (f : FilePtr) (p : Z) (dirty_ : bool)
  | OpDisposePage (f : FilePtr) (p : Z)
  | OpFlushFile (f : FilePtr)
  | OpAllocBuf
  | OpWrite (frame : nat) (pg : Page).

Definition exec (op : Op) (s : State) : option (Status * State) :=
  match op with
  | OpReadPage f p =>
      match readPage f p s with
      | Some (r, s') => Some (status_of r, s')
      | None => None
      end
  | OpAllocPage f =>
      match allocPage f s with
      | Some (r, s') => Some (status_of r, s')
      | None => None
      end
  | OpUnPinPage f p dirty_ => Some (unPinPage f p dirty_ s)
  | OpDisposePage f p => Some (disposePage f p s)
  | OpFlushFile f => Some (flushFile f s)
  | OpAllocBuf =>
      match allocBuf s with
      | Some (r, s') => Some (status_of r, s')
      | None => None
      end
  | OpWrite frame pg => Some (OK, set_page frame pg s)
  end.

Fixpoint run (ops : list Op) (s : State) : option State :=
  match ops with
  | [] => Some s
  | op :: ops =>
      match exec op s with
      | Some (_, s') => run ops s'
      | None => None
      end
  end.

(** ** The frames that end a call of [flushFile] *)

(** The status with which [flushFile] stops at a frame with descriptor [d]
    before it touches the disk, if it does. *)
Definition stop_kind (file_ : FilePtr) (d : BufDesc) : option Status :=
  if valid d && bool_decide (file d = file_) then
    if 0 <? pinCnt d then Some PAGEPINNED else None
  else if negb (valid d) && bool_decide (file d = file_) then Some BADBUFFER
  else None.

(** The status of the first frame that stops the call, [OK] without one. *)
Definition first_stop (file_ : FilePtr) (t : list BufDesc) : Status :=
  match omap (stop_kind file_) t with
  | st :: _ => st
  | [] => OK
  end.

(** The file store accepts every write to [f]. *)
Definition writes_accepted (f : FilePtr) (d : FileStore.Disk) : Prop :=
  ∀ l n pg, FileStore.fault d l (FileStore.WrReq f n pg) = OK.

(** Frame [i] after [flushFile] has written it back into [dk]: the entry is
    removed from the index and the descriptor is invalidated. *)
Definition flush_frame (i : nat) (file_ : FilePtr) (dk : FileStore.Disk)
    (s : State) : State :=
  upd_desc i
    (λ d, mkDesc NULL (-1) (frameNo d) (pinCnt d) false false (refbit d))
    (set_hashTable
       (BufHashTbl.remove file_ (pageNo (desc_at s i)) (hashTable s)).2
       (set_disk dk s)).

(** ** The fate of a dirty page *)

(** Frame [i] holds page [p] of file [f], valid and dirty. *)
Definition holds_dirty (s : State) (i : nat) (f : FilePtr) (p : Z) : Prop :=
  ∃ d, bufTable s !! i = Some d ∧ valid d = true ∧ dirty d = true
       ∧ file d = f ∧ pageNo d = p.

(** Between [s] and [s'] requests were only added to the log. *)
Definition log_grows (s s' : State) : Prop :=
  ∃ evs, FileStore.log (disk s') = FileStore.log (disk s) ++ evs.

(** Between [s] and [s'] the file accepted a write of page [p] of [f]. *)
Definition written_since (s s' : State) (f : FilePtr) (p : Z) : Prop :=
  ∃ evs, FileStore.log (disk s') = FileStore.log (disk s) ++ evs
         ∧ Exists (FileStore.wrote f p) evs.

End BufInv.

(** ** Concrete disks and call sequences *)

Module Scenario.
Import BufMgr BufInv.

(** A data page that carries nothing but its number. *)
Definition numbered_page (n : Z) : Page := PData (mkData n (-1) []).

(** File 1 with pages 0 to 3, no faults. *)
Definition disk4 : FileStore.Disk :=
  FileStore.mkDisk
    (list_to_map [((1%N, 0), numbered_page 0); ((1%N, 1), numbered_page 1);
                  ((1%N, 2), numbered_page 2); ((1%N, 3), numbered_page 3)])
    [] (λ _ _, OK) (λ _ _, 4).


(** Two frames.  Pages 0 and 1 are read and stay pinned; a third read finds
    no frame and clears both reference bits on its way; page 1 is then
    unpinned, read again and unpinned again. *)
Definition pin_unpin_calls : list Op :=
  [OpReadPage 1 0; OpReadPage 1 1; OpReadPage 1 2;
   OpUnPinPage 1 1 false; OpReadPage 1 1; OpUnPinPage 1 1 false].


(** Page 0 is read, unpinned dirty and disposed of. *)
Definition dirty_then_disposed_calls : list Op :=
  [OpReadPage 1 0; OpUnPinPage 1 0 true; OpDisposePage 1 0].

(** The state after a sequence of calls, and after one more call. *)
Definition after (ops : list Op) (s : State) : State := default s (run ops s).
Definition after_call (op : Op) (s : State) : State :=
  match exec op s with Some (_, s') => s' | None => s end.

End Scenario.

(** ** Scans: invariants and scenarios *)

Module HeapInv.
Import BufMgr BufInv.

(** The parameters that [startScan] accepts together with a filter. *)
Definition valid_params (offset_ length_ : Z) (type_ : Heap.Datatype)
    (op_ : Heap.Operator) : bool :=
  (0 <=? offset_) && (1 <=? length_)
  && match type_ with
     | Heap.STRING => true
     | Heap.INTEGER | Heap.FLOAT => length_ =? 4
     | Heap.DatatypeOther _ => false
     end
  && match op_ with Heap.OperatorOther _ => false | _ => true end.

(** The content of page [p] of file [f] as a reader of the page sees it: the
    frame when the page is resident, the disk otherwise. *)
Definition content (s : State) (f : FilePtr) (p : Z) : option Page :=
  match hashTable s !! (f, p) with
  | Some i => bufPool s !! i
  | None => FileStore.store (disk s) !! (f, p)
  end.

(** Pages of [f] are modified under the dirty protocol: a frame of [f] that
    can be replaced without a write-back equals its copy on disk. *)
Definition synced (f : FilePtr) (s : State) : Prop :=
  ∀ i d, bufTable s !! i = Some d →
    valid d = true → file d = f → dirty d = false → pinCnt d ≤ 0 →
    FileStore.store (disk s) !! (f, pageNo d) = bufPool s !! i.

(** The frame [c] holds page [p] of [f]; it equals its copy on disk unless
    it is marked dirty, the holder intends to unpin it dirty ([flag]), or
    other pins remain. *)
Definition holds (s : State) (c : nat) (f : FilePtr) (p : Z) (flag : bool) : Prop :=
  ∃ d, bufTable s !! c = Some d ∧ valid d = true ∧ file d = f ∧ pageNo d = p
    ∧ (dirty d = false → flag = false → pinCnt d ≤ 1 →
       FileStore.store (disk s) !! (f, p) = bufPool s !! c).

(** The scan has a cursor page. *)
Definition cursor_ok (h : Heap.HeapFile) (s : State) : Prop :=
  ∃ c, Heap.curPage h = Some c
    ∧ holds s c (Heap.filePtr h) (Heap.curPageNo h) (Heap.curDirtyFlag h).

Definition scan_inv (h : Heap.HeapFile) (s : State) : Prop :=
  wf s ∧ pooled s ∧ synced (Heap.filePtr h) s ∧ cursor_ok h s.

(** Two handles that scan the same file with the same predicate. *)
Definition same_scan (h h' : Heap.HeapFile) : Prop :=
  Heap.filePtr h' = Heap.filePtr h
  ∧ Heap.offset h' = Heap.offset h ∧ Heap.length h' = Heap.length h
  ∧ Heap.type h' = Heap.type h ∧ Heap.filter h' = Heap.filter h
  ∧ Heap.op h' = Heap.op h.

Definition same_mark (h h' : Heap.HeapFile) : Prop :=
  Heap.markedPageNo h' = Heap.markedPageNo h
  ∧ Heap.markedRec h' = Heap.markedRec h.

(** Two scans at the same position over the same page contents. *)
Definition same_position (h : Heap.HeapFile) (s : State)
    (h' : Heap.HeapFile) (s' : State) : Prop :=
  same_scan h h'
  ∧ Heap.curPageNo h' = Heap.curPageNo h ∧ Heap.curRec h' = Heap.curRec h
  ∧ ∀ p, content s' (Heap.filePtr h) p = content s (Heap.filePtr h) p.

(** What an iteration of a scan leaves behind when it has not failed. *)
Definition step_post (h : Heap.HeapFile) (s : State)
    (h' : Heap.HeapFile) (s' : State) : Prop :=
  scan_inv h' s' ∧ same_scan h h' ∧ same_mark h h'
  ∧ ∀ p, content s' (Heap.filePtr h) p = content s (Heap.filePtr h) p.

(** One iteration of the loop of [scanNext]. *)
Inductive StepOut :=
  | Stop (r : Ret RID) (h : Heap.HeapFile) (s : State)
  | Again (h : Heap.HeapFile) (s : State)
  | Stuck.

Section Step.
Variable float_diff : list byte → list byte → Heap.Diff.

Definition scan_check (h : Heap.HeapFile) (c : nat) (s : State) : StepOut :=
  match PageLayer.getRecord (page_at s c) (Heap.curRec h) with
  | Fail status => Stop (Fail status) h s
  | Done rec =>
      if Heap.matchRec float_diff h rec then Stop (Done (Heap.curRec h)) h s
      else Again h s
  end.

Definition scan_step (h : Heap.HeapFile) (s : State) : StepOut :=
  match Heap.curPage h with
  | None => Stuck
  | Some c =>
      match PageLayer.nextRecord (page_at s c) (Heap.curRec h) with
      | Done nextRid => scan_check (Heap.set_curRec nextRid h) c s
      | Fail _ =>
          match PageLayer.getNextPage (page_at s c) with
          | Fail status => Stop (Fail status) h s
          | Done nextPageNo =>
              if nextPageNo =? -1 then Stop (Fail FILEEOF) h s
              else
                match unPinPage (Heap.filePtr h) (Heap.curPageNo h)
                                (Heap.curDirtyFlag h) s with
                | (OK, s) =>
                    let h := Heap.set_curDirtyFlag false
                               (Heap.set_curPageNo nextPageNo h) in
                    match readPage (Heap.filePtr h) (Heap.curPageNo h) s with
                    | None => Stuck
                    | Some (Fail status, s) => Stop (Fail status) h s
                    | Some (Done frame, s) =>
                        let h := Heap.set_curPage (Some frame) h in
                        match PageLayer.firstRecord (page_at s frame) with
                        | Done rid => scan_check (Heap.set_curRec rid h) frame s
                        | Fail _ => Again h s
                        end
                    end
                | (status, s) => Stop (Fail status) h s
                end
          end
      end
  end.






End Step.

End HeapInv.

Module HeapScenario.
Import BufMgr BufInv.

(** [allocatePage] hands out page numbers 1, 2, 3, ... *)
Definition is_alloc (e : FileStore.IOEvent) : bool :=
  match e with
  | FileStore.IO (FileStore.AllocReq _) OK => true
  | _ => false
  end.

Definition fresh_page (l : list FileStore.IOEvent) (f : FilePtr) : Z :=
  1 + Z.of_nat (length (List.filter is_alloc l)).

Definition empty_disk : FileStore.Disk := FileStore.mkDisk ∅ [] (λ _ _, OK) fresh_page.

(** The members of a handle before its constructor has run. *)
Definition raw_handle : Heap.HeapFile :=
  Heap.mkHeapFile 0 0 0 false None 0 false NULLRID
                  0 0 Heap.STRING None Heap.EQ 0 NULLRID.

Definition no_floats : list byte → list byte → Heap.Diff := λ _ _, Heap.DZero.

Definition rec4 (b : byte) : Rec := mkRec [b; b; b; b] 4.

(** A heap file (file 1) is created in a pool of four frames; the header is
    page 1, the data page is page 2. *)
Definition created : option State :=
  match Heap.createHeapFile 1 [] (new 4 empty_disk) with
  | Some (_, s) => Some s
  | None => None
  end.

(** The file is opened for inserting, three records are inserted and the
    [InsertFileScan] is destroyed. *)
Definition three_inserts
    : option (Ret RID * Ret RID * Ret RID * Heap.HeapFile * State) :=
  match created with
  | None => None
  | Some s =>
      match Heap.open 1 1 raw_handle s with
      | Some (OK, h, s) =>
          match Heap.insertRecord (rec4 x01) h s with
          | Some (r1, h, s) =>
              match Heap.insertRecord (rec4 x02) h s with
              | Some (r2, h, s) =>
                  match Heap.insertRecord (rec4 x03) h s with
                  | Some (r3, h, s) => Some (r1, r2, r3, h, s)
                  | None => None
                  end
              | None => None
              end
          | None => None
          end
      | _ => None
      end
  end.

Definition filled : option State :=
  match three_inserts with
  | Some (_, _, _, h, s) => Some (Heap.closeInsert h s).2
  | None => None
  end.

(** [n] calls of [scanNext] and their results. *)
Fixpoint scan_results (n : nat) (h : Heap.HeapFile) (s : State)
    : option (list (Ret RID) * Heap.HeapFile * State) :=
  match n with
  | O => Some ([], h, s)
  | S n =>
      match Heap.scanNext no_floats 10 h s with
      | Some (r, h, s) =>
          match scan_results n h s with
          | Some (rs, h, s) => Some (r :: rs, h, s)
          | None => None
          end
      | None => None
      end
  end.

(** A scan with a null filter is opened on the filled file and run to the
    end; after [endScan] and a second [startScan] it is run again. *)
Definition scan_twice : option (list (Ret RID) * list (Ret RID)) :=
  match filled with
  | None => None
  | Some s =>
      match Heap.openScan 1 1 raw_handle s with
      | Some (OK, h, s) =>
          let h := (Heap.startScan 0 0 Heap.STRING None Heap.EQ h).2 in
          match scan_results 5 h s with
          | Some (first, h, s) =>
              let '(_, h, s) := Heap.endScan h s in
              let h := (Heap.startScan 0 0 Heap.STRING None Heap.EQ h).2 in
              match scan_results 4 h s with
              | Some (second, _, _) => Some (first, second)
              | None => None
              end
          | None => None
          end
      | _ => None
      end
  end.

(** The created file is opened. *)
Definition opened : option (Heap.HeapFile * State) :=
  match created with
  | None => None
  | Some s =>
      match Heap.open 1 1 raw_handle s with
      | Some (OK, h, s) => Some (h, s)
      | _ => None
      end
  end.

(** File 1 with header page 1 and two data pages of one record each; page 0
    is the page that the file layer itself keeps in front of them. *)
Definition chain_disk : FileStore.Disk :=
  FileStore.mkDisk
    (list_to_map
       [((1%N, 0), PData (mkData 0 (-1) [Some (rec4 x00)]));
        ((1%N, 1), PHdr (mkHdr [] 2 3 2 2));
        ((1%N, 2), PData (mkData 2 3 [Some (rec4 x01)]));
        ((1%N, 3), PData (mkData 3 (-1) [Some (rec4 x02)]))])
    [] (λ _ _, OK) (λ _ _, 4).

(** The pool of three frames after the constructor of a scan has pinned the
    header and the first data page, and the handle of that scan. *)
Definition chain_pool : State :=
  Scenario.after [OpReadPage 1 1; OpReadPage 1 2] (new 3 chain_disk).

Definition chain_scan : Heap.HeapFile :=
  Heap.mkHeapFile 1 0 1 false (Some 1%nat) 2 false NULLRID
                  0 0 Heap.STRING None Heap.EQ 0 NULLRID.





End HeapScenario.

(** ** Clients of the pool *)

Module PoolUse.
Import BufMgr BufInv.

(** A frame that [allocBuf] takes as soon as the clock hand reaches it. *)
Definition takeable (d : BufDesc) : Prop :=
  valid d = false ∨ (refbit d = false ∧ pinCnt d ≤ 0).

(** Every frame holds a page and is pinned. *)
Definition all_pinned (s : State) : Prop :=
  Forall (λ d, valid d = true ∧ 0 < pinCnt d) (bufTable s).

(** The pages [qs] of [f] are read and released unmodified, one after the
    other, every call returning OK. *)
Fixpoint touch (f : FilePtr) (qs : list Z) (s : State) : option State :=
  match qs with
  | [] => Some s
  | q :: qs =>
      match readPage f q s with
      | Some (Done _, s) =>
          match unPinPage f q false s with
          | (OK, s) => touch f qs s
          | _ => None
          end
      | _ => None
      end
  end.

(** Frame [i] is one that the destructor writes: valid and dirty. *)
Definition unwritten_at (s : State) (i : nat) : bool :=
  valid (desc_at s i) && dirty (desc_at s i).

(** These frames, in the order of the frame table. *)
Definition unwritten (s : State) : list nat :=
  List.filter (unwritten_at s) (seq 0 (numBufs s)).

(** The page that frame [i] holds according to its descriptor. *)
Definition ident_at (s : State) (i : nat) : N * Z :=
  (file (desc_at s i), pageNo (desc_at s i)).

(** The event [e] is a write-back of frame [i] of [s], with any status. *)
Definition writes_frame (s : State) (i : nat) (e : FileStore.IOEvent) : Prop :=
  ∃ st, e = FileStore.IO
              (FileStore.WrReq (file (desc_at s i)) (pageNo (desc_at s i))
                               (page_at s i)) st.

(** If the event [e] is a write, with any status, then it writes the
    content of a frame of [s] that holds the page valid and dirty. *)
Definition write_of_dirty (s : State) (e : FileStore.IOEvent) : Prop :=
  ∀ f n pg st, e = FileStore.IO (FileStore.WrReq f n pg) st →
    ∃ i d, bufTable s !! i = Some d ∧ valid d = true ∧ dirty d = true
      ∧ file d = f ∧ pageNo d = n ∧ page_at s i = pg.

(** One frame, in which page 0 of file 1 stays pinned. *)
Definition one_frame_pinned : State :=
  Scenario.after [OpReadPage 1 0] (new 1 Scenario.disk4).

End PoolUse.

(** ** Clients of a heap file *)

Module HeapUse.
Import BufMgr BufInv.

(** The comparison that a scan operator stands for. *)
Definition holds_cmp (o : Heap.Operator) (a b : Z) : bool :=
  match o with
  | Heap.LT => a <? b
  | Heap.LTE => a <=? b
  | Heap.EQ => a =? b
  | Heap.GTE => b <=? a
  | Heap.GT => b <? a
  | Heap.NE => negb (a =? b)
  | Heap.OperatorOther _ => false
  end.

(** Frames that hold no page have no pins. *)
Definition idle_unpinned (s : State) : Prop :=
  ∀ i d, bufTable s !! i = Some d → valid d = false → pinCnt d = 0.

(** The scan of [HeapScenario.chain_scan] with the filter "the [int] at
    offset 0 equals 0x02020202". *)
Definition chain_filtered : Heap.HeapFile :=
  (Heap.startScan 0 4 Heap.INTEGER (Some [x02; x02; x02; x02]) Heap.EQ
     HeapScenario.chain_scan).2.

(** The handle and the pool after one call of [scanNext] of that scan. *)
Definition chain_filtered_found : Heap.HeapFile * State :=
  match Heap.scanNext HeapScenario.no_floats 10 chain_filtered
                      HeapScenario.chain_pool with
  | Some (_, h, s) => (h, s)
  | None => (chain_filtered, HeapScenario.chain_pool)
  end.

(** ** The records of a file in the order of a scan *)

(** The occupied slots of a slot directory [sl] whose first slot has number
    [i], as record ids of page [pno] with their records, in slot order. *)
Fixpoint used_recs (pno : Z) (i : nat) (sl : list (option Rec)) : list (RID * Rec) :=
  match sl with
  | [] => []
  | Some r :: sl => (mkRID pno (Z.of_nat i), r) :: used_recs pno (S i) sl
  | None :: sl => used_recs pno (S i) sl
  end.

(** The records of page [pg] from slot [k] on. *)
Definition page_recs (pg : Page) (k : nat) : list (RID * Rec) :=
  used_recs (dpPageNo (PageLayer.as_data pg)) k
            (drop k (slots (PageLayer.as_data pg))).

(** The slot after the one of [cur]; slot 0 after [NULLRID]. *)
Definition next_slot (cur : RID) : nat := Z.to_nat (slotNo cur + 1).

(** The records of the file with page contents [cont] from slot [k] of page
    [pno] on: the rest of that page, then the pages that follow it in the
    chain of [nextPage] links, at most [n] of them. *)
Fixpoint chain_recs (cont : Z → option Page) (n : nat) (pno : Z) (k : nat)
    : list (RID * Rec) :=
  let pg := default blankPage (cont pno) in
  page_recs pg k ++
  match n with
  | O => []
  | S n =>
      let nextPageNo := nextPage (PageLayer.as_data pg) in
      if nextPageNo =? -1 then [] else chain_recs cont n nextPageNo 0
  end.

(** That scan after [deleteRecord] of the record it has found. *)
Definition chain_deleted : Heap.HeapFile * State :=
  match Heap.deleteRecord chain_filtered_found.1 chain_filtered_found.2 with
  | Some (_, h, s) => (h, s)
  | None => chain_filtered_found
  end.

(** The handle and the pool of [HeapScenario.opened]. *)
Definition opened_pair : Heap.HeapFile * State :=
  default (HeapScenario.raw_handle, new 4 HeapScenario.empty_disk)
          HeapScenario.opened.







(** What happens to an [InsertFileScan] between its constructor and its
    destructor: a record is inserted, a record is fetched with
    [HeapFile::getRecord], or the buffer manager is called, by the holder
    of the scan or by another client.  The statuses are left aside. *)
Inductive InsertUse :=
  | UseInsert (rec : Rec)
  | UseGet (rid : RID)
  | UsePool (o : Op).

Definition insert_use (u : InsertUse) (h : Heap.HeapFile) (s : State)
    : option (Heap.HeapFile * State) :=
  match u with
  | UseInsert rec =>
      match Heap.insertRecord rec h s with
      | Some (_, h, s) => Some (h, s)
      | None => None
      end
  | UseGet rid =>
      match Heap.getRecord rid h s with
      | Some (_, h, s) => Some (h, s)
      | None => None
      end
  | UsePool o =>
      match exec o s with
      | Some (_, s) => Some (h, s)
      | None => None
      end
  end.

Fixpoint insert_uses (us : list InsertUse) (h : Heap.HeapFile) (s : State)
    : option (Heap.HeapFile * State) :=
  match us with
  | [] => Some (h, s)
  | u :: us =>
      match insert_use u h s with
      | Some (h, s) => insert_uses us h s
      | None => None
      end
  end.

(** On the handle of [opened_pair]: an insert, a fetch from page 9, which
    the file does not have, a read of the header page by another client
    and a second insert. *)
Definition cursor_uses : list InsertUse :=
  [UseInsert (HeapScenario.rec4 x01); UseGet (mkRID 9 0);
   UsePool (OpReadPage 1 1); UseInsert (HeapScenario.rec4 x02)].

Definition cursor_used : Heap.HeapFile * State :=
  default opened_pair (insert_uses cursor_uses opened_pair.1 opened_pair.2).

End HeapUse.

(** * Properties of the buffer manager *)

Module BufMgrFacts.
Import BufMgr BufInv.

(** ** Elementary facts about the arrays *)

Lemma desc_at_lookup s i d : bufTable s !! i = Some d → desc_at s i = d.
Proof. unfold desc_at. by intros ->. Qed.

Lemma lookup_desc_at s i :
  (i < numBufs s)%nat → bufTable s !! i = Some (desc_at s i).
Proof.
  intros Hi. unfold desc_at, numBufs in *.
  destruct (lookup_lt_is_Some_2 (bufTable s) i Hi) as [d ->]. done.
Qed.

Lemma numBufs_upd_desc i f s : numBufs (upd_desc i f s) = numBufs s.
Proof. unfold numBufs, upd_desc. simpl. by rewrite length_alter. Qed.

Lemma lookup_upd_desc_eq i f s :
  bufTable (upd_desc i f s) !! i = f <$> bufTable s !! i.
Proof. unfold upd_desc; simpl. by rewrite list_lookup_alter_eq. Qed.

Lemma lookup_upd_desc_ne i j f s :
  i ≠ j → bufTable (upd_desc i f s) !! j = bufTable s !! j.
Proof. intros. unfold upd_desc; simpl. by rewrite list_lookup_alter_ne. Qed.

Lemma lookup_upd_desc_Some i j f s d' :
  bufTable (upd_desc i f s) !! j = Some d' →
  ∃ d, bufTable s !! j = Some d ∧ d' = (if decide (i = j) then f d else d).
Proof.
  destruct (decide (i = j)) as [->|Hne].
  - rewrite lookup_upd_desc_eq. destruct (bufTable s !! j); naive_solver.
  - rewrite lookup_upd_desc_ne; naive_solver.
Qed.

Lemma advanceClock_lt s :
  numBufs s ≠ 0%nat → (clockHand (advanceClock s) < numBufs s)%nat.
Proof. intros. simpl. by apply Nat.mod_upper_bound. Qed.

(** ** The invariants depend on the identity of the frames only *)

Lemma wf_same_ident s s' :
  Forall2 same_ident (bufTable s) (bufTable s') →
  hashTable s' = hashTable s →
  wf s → wf s'.
Proof.
  intros HF Hht (Hn & Hc & Hs). split; [|split].
  - intros i d' Hd'.
    destruct (Forall2_lookup_r _ _ _ _ _ HF Hd') as (d & Hd & _ & _ & Hfr & _).
    rewrite Hfr. eauto.
  - intros i d' Hd' Hv.
    destruct (Forall2_lookup_r _ _ _ _ _ HF Hd') as (d & Hd & Hf & Hp & Hfr & Hvd).
    rewrite Hht, Hf, Hp, Hfr. apply (Hc i d Hd). congruence.
  - intros f p i Hi. rewrite Hht in Hi.
    destruct (Hs f p i Hi) as (d & Hd & Hv & Hf & Hp).
    destruct (Forall2_lookup_l _ _ _ _ _ HF Hd) as (d' & Hd' & Hf' & Hp' & _ & Hv').
    exists d'. repeat split; congruence.
Qed.

Lemma Forall2_same_ident_alter (f : BufDesc → BufDesc) i t :
  (∀ d, same_ident d (f d)) →
  Forall2 same_ident t (alter f i t).
Proof.
  intros Hf. apply Forall2_alter_r.
  - apply Forall_Forall2_diag, Forall_forall. by intros d ?.
  - intros x y ? ? (? & ? & ? & ?). destruct (Hf y) as (? & ? & ? & ?).
    repeat split; congruence.
Qed.

Lemma wf_upd_desc_ident i f s :
  (∀ d, same_ident d (f d)) → wf s → wf (upd_desc i f s).
Proof.
  intros Hf. apply wf_same_ident; [|done].
  by apply Forall2_same_ident_alter.
Qed.

Lemma wf_set_disk d s : wf s → wf (set_disk d s).
Proof.
  apply wf_same_ident; [|done]. simpl.
  apply Forall_Forall2_diag, Forall_forall. by intros x ?.
Qed.

Lemma wf_set_page i pg s : wf s → wf (set_page i pg s).
Proof.
  apply wf_same_ident; [|done]. simpl.
  apply Forall_Forall2_diag, Forall_forall. by intros x ?.
Qed.

Lemma wf_set_clockHand c s : wf s → wf (set_clockHand c s).
Proof.
  apply wf_same_ident; [|done]. simpl.
  apply Forall_Forall2_diag, Forall_forall. by intros x ?.
Qed.

(** Two valid frames with the same identity are the same frame. *)
Lemma wf_valid_inj s i j d e :
  wf s → bufTable s !! i = Some d → bufTable s !! j = Some e →
  valid d = true → valid e = true →
  file d = file e → pageNo d = pageNo e → i = j.
Proof.
  intros (Hn & Hc & _) Hd He Hvd Hve Hf Hp.
  pose proof (Hc i d Hd Hvd) as H1. pose proof (Hc j e He Hve) as H2.
  rewrite Hf, Hp in H1. rewrite (Hn i d Hd), (Hn j e He) in *. congruence.
Qed.

(** The frame leaves the pool: its entry is removed and the descriptor
    is invalidated by [g]. *)
Lemma wf_evict_with (g : BufDesc → BufDesc) s i d :
  (∀ x, frameNo (g x) = frameNo x ∧ valid (g x) = false) →
  wf s → bufTable s !! i = Some d → valid d = true →
  wf (upd_desc i g
        (set_hashTable (delete (file d, pageNo d) (hashTable s)) s)).
Proof.
  intros Hg Hwf Hd Hv. pose proof Hwf as (Hn & Hc & Hs). split; [|split].
  - intros j e' He'. apply lookup_upd_desc_Some in He' as (e & He & ->).
    simpl in He. case_decide; [rewrite (proj1 (Hg e))|]; eauto.
  - intros j e' He' Hve'. apply lookup_upd_desc_Some in He' as (e & He & ->).
    simpl in He. case_decide as Hij; [by rewrite (proj2 (Hg e)) in Hve'|]. simpl.
    rewrite lookup_delete_ne; [by eapply Hc|].
    intros Heq. apply Hij. injection Heq as Hf Hp.
    by eapply (wf_valid_inj s i j d e).
  - intros f p j Hj. simpl in Hj.
    apply lookup_delete_Some in Hj as [Hne Hj].
    destruct (Hs f p j Hj) as (e & He & Hve & Hfe & Hpe).
    exists e. split; [|done].
    rewrite lookup_upd_desc_ne; [done|].
    intros <-. simpl in He. congruence.
Qed.

Lemma wf_evict s i d :
  wf s → bufTable s !! i = Some d → valid d = true →
  wf (upd_desc i Clear
        (set_hashTable (delete (file d, pageNo d) (hashTable s)) s)).
Proof. by apply wf_evict_with. Qed.

(** An invalid frame is cleared. *)
Lemma wf_clear_invalid s i d :
  wf s → bufTable s !! i = Some d → valid d = false → wf (upd_desc i Clear s).
Proof.
  intros (Hn & Hc & Hs) Hd Hv. split; [|split].
  - intros j e' He'. apply lookup_upd_desc_Some in He' as (e & He & ->).
    case_decide; simpl; eauto.
  - intros j e' He' Hve'. apply lookup_upd_desc_Some in He' as (e & He & ->).
    case_decide; [done|]. by eapply Hc.
  - intros f p j Hj. simpl in Hj.
    destruct (Hs f p j Hj) as (e & He & Hve & Hfe & Hpe).
    exists e. split; [|done].
    rewrite lookup_upd_desc_ne; [done|]. intros <-. congruence.
Qed.

(** A page moves into an invalid frame. *)
Lemma wf_install s i d f p (g : BufDesc → BufDesc) :
  wf s → bufTable s !! i = Some d → valid d = false →
  hashTable s !! (f, p) = None →
  file (g d) = f → pageNo (g d) = p → frameNo (g d) = i → valid (g d) = true →
  wf (upd_desc i g (set_hashTable (<[(f, p) := i]> (hashTable s)) s)).
Proof.
  intros (Hn & Hc & Hs) Hd Hv Hnone Hgf Hgp Hgn Hgv. split; [|split].
  - intros j e' He'. apply lookup_upd_desc_Some in He' as (e & He & ->).
    simpl in He. case_decide as Hij; [|by eauto].
    subst j. rewrite Hd in He. by injection He as <-.
  - intros j e' He' Hve'. apply lookup_upd_desc_Some in He' as (e & He & ->).
    simpl in *. case_decide as Hij.
    + subst j. rewrite Hd in He. injection He as <-.
      rewrite Hgf, Hgp, Hgn. by rewrite lookup_insert_eq.
    + pose proof (Hc j e He Hve') as Hj.
      rewrite lookup_insert_ne; [done|]. intros Heq. rewrite <- Heq in Hj. congruence.
  - intros f' p' j Hj. simpl in Hj.
    apply lookup_insert_Some in Hj as [[Heq <-]|[Hne Hj]].
    + injection Heq as <- <-. exists (g d).
      rewrite lookup_upd_desc_eq. simpl. by rewrite Hd.
    + destruct (Hs f' p' j Hj) as (e & He & Hve & Hfe & Hpe).
      exists e. split; [|done].
      rewrite lookup_upd_desc_ne; [done|]. intros <-. congruence.
Qed.

(** ** The clock sweep *)

Lemma swept_refl s : swept s s.
Proof.
  repeat split. apply Forall_Forall2_diag, Forall_forall.
  intros d ?. exists (refbit d). by destruct d.
Qed.

Lemma swept_trans s1 s2 s3 : swept s1 s2 → swept s2 s3 → swept s1 s3.
Proof.
  intros (Hp & Hh & Hd & HF) (Hp' & Hh' & Hd' & HF').
  repeat split; [congruence..|].
  eapply Forall2_trans; [|exact HF|exact HF'].
  intros x y z [b ->] [b' ->]. by exists b'.
Qed.

Lemma swept_advanceClock s : swept s (advanceClock s).
Proof. apply (swept_refl s). Qed.

Lemma swept_clear_refbit s i : swept s (upd_desc i (set_refbit false) s).
Proof.
  repeat split. simpl. apply Forall2_alter_r.
  - apply (swept_refl s).
  - intros x y ? ? [b ->]. by exists false.
Qed.

Lemma swept_numBufs s s' : swept s s' → numBufs s' = numBufs s.
Proof. intros (_ & _ & _ & HF). unfold numBufs. by rewrite (Forall2_length _ _ _ HF). Qed.

Lemma swept_lookup s s' i d' :
  swept s s' → bufTable s' !! i = Some d' →
  ∃ d b, bufTable s !! i = Some d ∧ d' = set_refbit b d.
Proof.
  intros (_ & _ & _ & HF) Hd'.
  destruct (Forall2_lookup_r _ _ _ _ _ HF Hd') as (d & Hd & b & ->). eauto.
Qed.

Lemma swept_lookup_l s s' i d :
  swept s s' → bufTable s !! i = Some d →
  ∃ b, bufTable s' !! i = Some (set_refbit b d).
Proof.
  intros (_ & _ & _ & HF) Hd.
  destruct (Forall2_lookup_l _ _ _ _ _ HF Hd) as (d' & Hd' & b & ->). eauto.
Qed.

Lemma swept_wf s s' : swept s s' → wf s → wf s'.
Proof.
  intros (_ & Hh & _ & HF). apply wf_same_ident; [|done].
  eapply Forall2_impl; [exact HF|]. by intros d d' [b ->].
Qed.

(** One unfolding of the loop, with its returning branches folded into
    [allocBuf_last]. *)
Lemma allocBuf_loop_S fuel np s :
  allocBuf_loop (S fuel) np s =
    if decide (numBufs s = np) then Some (Fail BUFFEREXCEEDED, s)
    else
      let s0 := advanceClock s in
      let d := desc_at s0 (clockHand s0) in
      if valid d && refbit d then
        allocBuf_loop fuel np (upd_desc (clockHand s0) (set_refbit false) s0)
      else if valid d && (0 <? pinCnt d) then allocBuf_loop fuel (S np) s0
      else Some (allocBuf_last s0).
Proof.
  cbn [allocBuf_loop]. case_decide; [done|]. cbv zeta.
  unfold allocBuf_last.
  destruct (valid (desc_at (advanceClock s) (clockHand (advanceClock s))));
    cbn [negb andb]; [|done].
  destruct (refbit (desc_at (advanceClock s) (clockHand (advanceClock s))));
    [done|].
  destruct (0 <? pinCnt (desc_at (advanceClock s) (clockHand (advanceClock s))));
    [done|].
  destruct (dirty (desc_at (advanceClock s) (clockHand (advanceClock s))));
    [destruct FileStore.writePage as [ret d]|];
    (case_decide; [|done]);
    by destruct BufHashTbl.remove as [[] ?].
Qed.

(** Every call of [allocBuf_loop] that returns has swept to a frame and
    ended there, or has counted [numBufs] pinned frames. *)
Lemma allocBuf_loop_cases fuel : ∀ np s r s',
  (np ≤ numBufs s)%nat →
  allocBuf_loop fuel np s = Some (r, s') →
  (r = Fail BUFFEREXCEEDED ∧ swept s s')
  ∨ ∃ s1, swept s s1 ∧ (clockHand s1 < numBufs s1)%nat
      ∧ (valid (desc_at s1 (clockHand s1)) = false
         ∨ valid (desc_at s1 (clockHand s1)) = true
           ∧ refbit (desc_at s1 (clockHand s1)) = false
           ∧ pinCnt (desc_at s1 (clockHand s1)) ≤ 0)
      ∧ allocBuf_last s1 = (r, s').
Proof.
  induction fuel as [|fuel IH]; intros np s r s' Hnp Hrun; [done|].
  rewrite allocBuf_loop_S in Hrun. case_decide as Hfull.
  { left. injection Hrun as <- <-. split; [done|apply swept_refl]. }
  cbv zeta in Hrun.
  assert (Hlt : (clockHand (advanceClock s) < numBufs (advanceClock s))%nat).
  { apply (advanceClock_lt s). lia. }
  assert (Hs0 : swept s (advanceClock s)) by apply swept_advanceClock.
  set (s0 := advanceClock s) in *.
  destruct (valid (desc_at s0 (clockHand s0))) eqn:Hv; cbn [andb] in Hrun.
  - destruct (refbit (desc_at s0 (clockHand s0))) eqn:Hr.
    + apply IH in Hrun; [|by rewrite numBufs_upd_desc].
      pose proof (swept_clear_refbit s0 (clockHand s0)) as Hs1.
      destruct Hrun as [[-> Hsw]|(s1 & Hsw & Hrest)].
      * left. split; [done|]. eauto using swept_trans.
      * right. exists s1. split; [|done]. eauto using swept_trans.
    + destruct (0 <? pinCnt (desc_at s0 (clockHand s0))) eqn:Hpin.
      * apply IH in Hrun; [|change (numBufs s0) with (numBufs s); lia].
        destruct Hrun as [[-> Hsw]|(s1 & Hsw & Hrest)].
        -- left. split; [done|]. eauto using swept_trans.
        -- right. exists s1. split; [|done]. eauto using swept_trans.
      * right. exists s0. split; [done|]. split; [done|].
        apply Z.ltb_ge in Hpin. split; [by right|]. congruence.
  - right. exists s0. split; [done|]. split; [done|]. split; [by left|].
    congruence.
Qed.

(** ** [allocBuf] returns *)

Lemma refs_le_length t : (refs t ≤ length t)%nat.
Proof.
  unfold refs. induction t as [|d t IH]; simpl; [lia|].
  destruct (refbit d); lia.
Qed.

Lemma refs_clear t : ∀ i d,
  t !! i = Some d → refbit d = true →
  refs t = S (refs (alter (set_refbit false) i t)).
Proof.
  unfold refs. induction t as [|e t IH]; intros [|i] d Hd Hr; simplify_eq/=.
  - by rewrite Hr.
  - rewrite (IH i d Hd Hr). lia.
Qed.

Lemma allocBuf_loop_total fuel : ∀ np s,
  (np ≤ numBufs s)%nat →
  (refs (bufTable s) + (numBufs s - np) < fuel)%nat →
  is_Some (allocBuf_loop fuel np s).
Proof.
  induction fuel as [|fuel IH]; intros np s Hnp Hfuel; [lia|].
  rewrite allocBuf_loop_S. case_decide as Hfull; [by eexists|]. cbv zeta.
  assert (Hlt : (clockHand (advanceClock s) < numBufs (advanceClock s))%nat).
  { apply (advanceClock_lt s). lia. }
  set (s0 := advanceClock s) in *.
  destruct (valid (desc_at s0 (clockHand s0))) eqn:Hv; cbn [andb];
    [|by eexists].
  destruct (refbit (desc_at s0 (clockHand s0))) eqn:Hr.
  - apply IH; rewrite numBufs_upd_desc; [done|].
    pose proof (refs_clear (bufTable s0) (clockHand s0) _
                  (lookup_desc_at s0 _ Hlt) Hr) as Hdec.
    change (bufTable s0) with (bufTable s) in Hdec.
    change (numBufs s0) with (numBufs s).
    change (bufTable (upd_desc (clockHand s0) (set_refbit false) s0))
      with (alter (set_refbit false) (clockHand s0) (bufTable s)).
    lia.
  - destruct (0 <? pinCnt (desc_at s0 (clockHand s0))); [|by eexists].
    apply IH; change (numBufs s0) with (numBufs s);
      change (bufTable s0) with (bufTable s); lia.
Qed.

(** The fuel that [allocBuf] gives to its loop is never used up: the
    [while (true)] loop of the source terminates in every state. *)
Lemma allocBuf_total s : is_Some (allocBuf s).
Proof.
  apply allocBuf_loop_total; [lia|].
  pose proof (refs_le_length (bufTable s)). unfold numBufs. lia.
Qed.

Lemma allocBuf_cases s r s' :
  allocBuf s = Some (r, s') →
  (r = Fail BUFFEREXCEEDED ∧ swept s s')
  ∨ ∃ s1, swept s s1 ∧ (clockHand s1 < numBufs s1)%nat
      ∧ (valid (desc_at s1 (clockHand s1)) = false
         ∨ valid (desc_at s1 (clockHand s1)) = true
           ∧ refbit (desc_at s1 (clockHand s1)) = false
           ∧ pinCnt (desc_at s1 (clockHand s1)) ≤ 0)
      ∧ allocBuf_last s1 = (r, s').
Proof. apply allocBuf_loop_cases. lia. Qed.

(** ** The returning iteration of [allocBuf] *)

Lemma set_disk_id s : set_disk (disk s) s = s.
Proof. by destruct s. Qed.

Lemma upd_desc_Clear_dirty i s :
  upd_desc i Clear (upd_desc i (set_dirty true) s) = upd_desc i Clear s.
Proof.
  unfold upd_desc, set_bufTable. simpl. f_equal.
  rewrite list_alter_alter_eq. by apply list_alter_ext.
Qed.

Lemma allocBuf_last_cases s r s' :
  wf s → (clockHand s < numBufs s)%nat →
  valid (desc_at s (clockHand s)) = false
  ∨ valid (desc_at s (clockHand s)) = true
    ∧ refbit (desc_at s (clockHand s)) = false
    ∧ pinCnt (desc_at s (clockHand s)) ≤ 0 →
  allocBuf_last s = (r, s') →
  takes_invalid s (clockHand s) r s'
  ∨ evicts s (clockHand s) r s'
  ∨ write_fails s (clockHand s) r s'.
Proof.
  intros Hwf Hlt Hcase Hlast.
  pose proof (lookup_desc_at s _ Hlt) as Hd.
  pose proof Hwf as (Hn & Hc & _).
  pose proof (Hn _ _ Hd) as Hno.
  unfold allocBuf_last in Hlast. rewrite Hno in Hlast.
  destruct Hcase as [Hv|(Hv & Hr & Hp)]; rewrite Hv in Hlast; cbn [negb] in Hlast.
  { left. by simplify_eq. }
  right. pose proof (Hc _ _ Hd Hv) as Hht.
  destruct (dirty (desc_at s (clockHand s))) eqn:Hdirty.
  - destruct FileStore.writePage as [ret dk] eqn:Hw.
    case_decide as Hret; [subst ret|].
    + left. unfold BufHashTbl.remove in Hlast. simpl in Hlast.
      rewrite Hht in Hlast. simplify_eq.
      repeat split; [done..|]. exists dk. split; [right; by rewrite Hdirty|].
      split; [done|].
      change (upd_desc (clockHand s) Clear
                (set_hashTable (delete (file (desc_at s (clockHand s)),
                                        pageNo (desc_at s (clockHand s)))
                                       (hashTable s))
                   (upd_desc (clockHand s) (set_dirty true) (set_disk dk s))))
        with (upd_desc (clockHand s) Clear
                (upd_desc (clockHand s) (set_dirty true)
                   (set_hashTable (delete (file (desc_at s (clockHand s)),
                                           pageNo (desc_at s (clockHand s)))
                                          (hashTable s))
                      (set_disk dk s)))).
      by rewrite upd_desc_Clear_dirty.
    + right. simplify_eq. repeat split; [done..|]. by exists ret, dk.
  - left. case_decide; [|done].
    unfold BufHashTbl.remove in Hlast. rewrite Hht in Hlast. simplify_eq.
    repeat split; [done..|]. exists (disk s). split; [left; by rewrite Hdirty|].
    by rewrite set_disk_id.
Qed.

(** What a call of [allocBuf] does in a well-formed state. *)
Lemma allocBuf_spec s r s' :
  wf s → allocBuf s = Some (r, s') →
  ∃ s1, swept s s1 ∧ wf s1
    ∧ ((r = Fail BUFFEREXCEEDED ∧ s' = s1)
       ∨ ∃ i, (i < numBufs s1)%nat
           ∧ (takes_invalid s1 i r s' ∨ evicts s1 i r s' ∨ write_fails s1 i r s')).
Proof.
  intros Hwf Hrun.
  destruct (allocBuf_cases _ _ _ Hrun) as [[-> Hsw]|(s1 & Hsw & Hlt & Hcase & Hlast)].
  - exists s'. split; [done|]. split; [by eapply swept_wf|]. by left.
  - exists s1. pose proof (swept_wf _ _ Hsw Hwf) as Hwf1.
    split; [done|]. split; [done|]. right. exists (clockHand s1).
    split; [done|]. by apply allocBuf_last_cases.
Qed.

Lemma takes_invalid_wf s i r s' :
  wf s → (i < numBufs s)%nat → takes_invalid s i r s' → wf s'.
Proof.
  intros Hwf Hlt (Hv & _ & ->).
  eapply wf_clear_invalid; [done|by apply lookup_desc_at|done].
Qed.

Lemma evicts_wf s i r s' :
  wf s → (i < numBufs s)%nat → evicts s i r s' → wf s'.
Proof.
  intros Hwf Hlt (Hv & _ & _ & dk & _ & _ & ->).
  apply (wf_evict (set_disk dk s) i (desc_at s i));
    [by apply wf_set_disk|by apply (lookup_desc_at s)|done].
Qed.

Lemma write_fails_wf s i r s' : wf s → write_fails s i r s' → wf s'.
Proof. intros Hwf (_ & _ & st & dk & _ & _ & _ & ->). by apply wf_set_disk. Qed.

Lemma allocBuf_wf s r s' : wf s → allocBuf s = Some (r, s') → wf s'.
Proof.
  intros Hwf Hrun.
  destruct (allocBuf_spec _ _ _ Hwf Hrun)
    as (s1 & _ & Hwf1 & [[_ ->]|(i & Hlt & [H|[H|H]])]);
    eauto using takes_invalid_wf, evicts_wf, write_fails_wf.
Qed.

(** The frame that [allocBuf] hands out is in the pool and invalid. *)
Lemma allocBuf_Done s frame s' :
  wf s → allocBuf s = Some (Done frame, s') →
  (frame < numBufs s')%nat ∧ numBufs s' = numBufs s
  ∧ bufTable s' !! frame = Some (Clear (desc_at s' frame))
  ∧ valid (desc_at s' frame) = false.
Proof.
  intros Hwf Hrun.
  destruct (allocBuf_spec _ _ _ Hwf Hrun)
    as (s1 & Hsw & Hwf1 & [[? _]|(i & Hlt & Hcase)]); [done|].
  pose proof (swept_numBufs _ _ Hsw) as Hnb.
  assert (frame = i ∧ ∃ s2, numBufs s2 = numBufs s1 ∧ s' = upd_desc i Clear s2)
    as (-> & s2 & Hnb2 & ->).
  { destruct Hcase as [(_ & ? & ->)|[(_ & _ & _ & dk & _ & ? & ->)|(_ & _ & ? & ? & _ & _ & ? & _)]];
      [| |done]; simplify_eq; (split; [done|]); eexists; (split; [|done]); done. }
  rewrite numBufs_upd_desc.
  assert (Hi : (i < numBufs s2)%nat) by lia.
  pose proof (lookup_desc_at s2 i Hi) as Hd.
  assert (Hd' : bufTable (upd_desc i Clear s2) !! i = Some (Clear (desc_at s2 i))).
  { by rewrite lookup_upd_desc_eq, Hd. }
  rewrite (desc_at_lookup _ _ _ Hd'). repeat split; [lia..|done].
Qed.

(** ** Every call preserves the invariants *)

Lemma desc_at_valid_lookup s i :
  valid (desc_at s i) = true → bufTable s !! i = Some (desc_at s i).
Proof. unfold desc_at. by destruct (bufTable s !! i). Qed.

Lemma wf_new bufs d : wf (new bufs d).
Proof.
  split; [|split].
  - intros i e He. simpl in He.
    rewrite list_lookup_fmap in He.
    destruct (seq 0 bufs !! i) as [j|] eqn:Hj; [|done].
    apply lookup_seq in Hj as [-> _]. by simplify_eq/=.
  - intros i e He Hv. simpl in He.
    rewrite list_lookup_fmap in He.
    destruct (seq 0 bufs !! i) as [j|]; by simplify_eq/=.
  - intros f p i Hi. simpl in Hi. by rewrite lookup_empty in Hi.
Qed.

Lemma allocBuf_absent s r s' k :
  wf s → allocBuf s = Some (r, s') →
  hashTable s !! k = None → hashTable s' !! k = None.
Proof.
  intros Hwf Hrun Hk.
  destruct (allocBuf_spec _ _ _ Hwf Hrun)
    as (s1 & (_ & Hh & _) & Hwf1 & [[_ ->]|(i & Hlt & [H|[H|H]])]).
  - congruence.
  - destruct H as (_ & _ & ->). simpl. congruence.
  - destruct H as (_ & _ & _ & dk & _ & _ & ->). simpl.
    apply lookup_delete_None. right. congruence.
  - destruct H as (_ & _ & st & dk & _ & _ & _ & ->). simpl. congruence.
Qed.

Lemma disposePage_wf f p s : wf s → wf (disposePage f p s).2.
Proof.
  intros Hwf. unfold disposePage, BufHashTbl.lookup, BufHashTbl.remove.
  destruct (hashTable s !! (f, p)) as [frameNo|] eqn:Hht.
  - destruct Hwf as (Hn & Hc & Hs).
    destruct (Hs f p frameNo Hht) as (d & Hd & Hv & <- & <-).
    assert (Hht' : hashTable (upd_desc frameNo Clear s) !! (file d, pageNo d)
                   = Some frameNo) by done.
    rewrite Hht'. cbn [snd].
    destruct FileStore.disposePage as [st dk]. cbn [snd].
    apply wf_set_disk.
    change (wf (upd_desc frameNo Clear
                  (set_hashTable (delete (file d, pageNo d) (hashTable s)) s))).
    by apply wf_evict.
  - rewrite Hht. cbn [snd].
    destruct FileStore.disposePage as [st dk]. cbn [snd].
    apply wf_set_disk. by destruct s.
Qed.

Lemma readPage_wf f p s r s' : wf s → readPage f p s = Some (r, s') → wf s'.
Proof.
  intros Hwf Hrun. unfold readPage, BufHashTbl.lookup in Hrun.
  destruct (hashTable s !! (f, p)) as [frame|] eqn:Hht.
  { simplify_eq. apply wf_upd_desc_ident; [|done]. by intros d. }
  destruct (allocBuf s) as [[[frame|st] s1]|] eqn:Halloc; [| |done].
  2:{ simplify_eq. by eapply allocBuf_wf. }
  pose proof (allocBuf_wf _ _ _ Hwf Halloc) as Hwf1.
  pose proof (allocBuf_absent _ _ _ (f, p) Hwf Halloc Hht) as Hht1.
  destruct (allocBuf_Done _ _ _ Hwf Halloc) as (Hlt & _ & Hd & Hv).
  destruct FileStore.readPage as [[pg|st] dk].
  - unfold BufHashTbl.insert in Hrun. simpl in Hrun. rewrite Hht1 in Hrun.
    simplify_eq.
    apply (wf_install (set_page frame pg (set_disk dk s1)) frame
             (Clear (desc_at s1 frame)) f p);
      first [done | by apply wf_set_page, wf_set_disk].
  - pose proof (disposePage_wf f p (set_disk dk s1) (wf_set_disk _ _ Hwf1)) as Hdp.
    destruct (disposePage f p (set_disk dk s1)) as [? s2]. by simplify_eq.
Qed.

Lemma allocPage_wf f s r s' : wf s → allocPage f s = Some (r, s') → wf s'.
Proof.
  intros Hwf Hrun. unfold allocPage in Hrun.
  destruct FileStore.allocatePage as [[pageNum|st] dk].
  2:{ simplify_eq. by apply wf_set_disk. }
  pose proof (wf_set_disk dk _ Hwf) as Hwf0.
  destruct (allocBuf (set_disk dk s)) as [[[frame|st] s1]|] eqn:Halloc; [| |done].
  2:{ simplify_eq. by eapply allocBuf_wf. }
  pose proof (allocBuf_wf _ _ _ Hwf0 Halloc) as Hwf1.
  destruct (allocBuf_Done _ _ _ Hwf0 Halloc) as (Hlt & _ & Hd & Hv).
  unfold BufHashTbl.insert in Hrun.
  destruct (hashTable s1 !! (f, pageNum)) eqn:Hht1; simplify_eq; [done|].
  apply (wf_install s1 frame (Clear (desc_at s1 frame)) f pageNum); try done.
  simpl. by apply (proj1 Hwf1 frame _ Hd).
Qed.

Lemma unPinPage_wf f p b s : wf s → wf (unPinPage f p b s).2.
Proof.
  intros Hwf. unfold unPinPage.
  destruct BufHashTbl.lookup as [frame|st]; [|done].
  case_decide; [done|]. cbn [snd].
  apply wf_upd_desc_ident; [|done]. intros d. by destruct b.
Qed.

Lemma flushFile_loop_wf file_ todo : ∀ s,
  wf s → wf (flushFile_loop todo file_ s).2.
Proof.
  induction todo as [|i todo IH]; intros s Hwf; [done|].
  cbn [flushFile_loop].
  destruct (valid (desc_at s i)) eqn:Hv; cbn [andb negb].
  - case_bool_decide as Hf; [|by apply IH].
    destruct (0 <? pinCnt (desc_at s i)); [done|].
    pose proof (desc_at_valid_lookup _ _ Hv) as Hd.
    assert (Hstep : ∀ dk,
      wf (upd_desc i (λ d, mkDesc NULL (-1) (frameNo d) (pinCnt d)
                                  false false (refbit d))
            (set_hashTable
               (BufHashTbl.remove file_ (pageNo (desc_at s i))
                                  (hashTable (set_disk dk s))).2
               (set_disk dk s)))).
    { intros dk. unfold BufHashTbl.remove. simpl.
      pose proof (proj1 (proj2 Hwf) _ _ Hd Hv) as Hht. rewrite Hf in Hht.
      rewrite Hht. cbn [snd]. rewrite <- Hf.
      apply (wf_evict_with _ (set_disk dk s) i (desc_at s i));
        [done|by apply wf_set_disk|done..]. }
    destruct (dirty (desc_at s i)).
    + destruct FileStore.writePage as [st dk].
      case_decide; [|by apply wf_set_disk]. apply IH, Hstep.
    + case_decide; [|done]. apply IH.
      specialize (Hstep (disk s)). by rewrite set_disk_id in Hstep.
  - case_bool_decide; [done|by apply IH].
Qed.

Lemma flushFile_wf file_ s : wf s → wf (flushFile file_ s).2.
Proof. apply flushFile_loop_wf. Qed.

Lemma exec_wf op s st s' : wf s → exec op s = Some (st, s') → wf s'.
Proof.
  intros Hwf Hex. destruct op as [f p|f|f p b|f p|f| |frame pg]; simpl in Hex.
  - destruct (readPage f p s) as [[r s1]|] eqn:Hrun; simplify_eq.
    by eapply readPage_wf.
  - destruct (allocPage f s) as [[r s1]|] eqn:Hrun; simplify_eq.
    by eapply allocPage_wf.
  - pose proof (unPinPage_wf f p b s Hwf). destruct unPinPage. by simplify_eq.
  - pose proof (disposePage_wf f p s Hwf). destruct disposePage. by simplify_eq.
  - pose proof (flushFile_wf f s Hwf). destruct flushFile. by simplify_eq.
  - destruct (allocBuf s) as [[r s1]|] eqn:Hrun; simplify_eq.
    by eapply allocBuf_wf.
  - simplify_eq. by apply wf_set_page.
Qed.

Lemma run_wf ops : ∀ s s', wf s → run ops s = Some s' → wf s'.
Proof.
  induction ops as [|op ops IH]; intros s s' Hwf Hrun; simpl in Hrun.
  - by simplify_eq.
  - destruct (exec op s) as [[st s1]|] eqn:Hex; [|done].
    eapply IH; [|done]. by eapply exec_wf.
Qed.

(** ** The clock policy and the pinned count *)

(** C1: the claim that [allocBuf] returns BUFFEREXCEEDED only when every
    frame is pinned fails on the code.  With two frames, after the calls
    of [Scenario.pin_unpin_calls] frame 0 is pinned with its reference bit
    clear and frame 1 holds an unpinned page whose reference bit is set.
    The sweep counts frame 0, clears the bit of frame 1, counts frame 0 a
    second time and returns BUFFEREXCEEDED, although frame 1 has
    [pinCnt = 0]. *)
Theorem allocBuf_exceeded_with_unpinned_frame :
  match run Scenario.pin_unpin_calls (new 2 Scenario.disk4) with
  | Some s =>
      numBufs s = 2%nat
      ∧ valid (desc_at s 1) = true ∧ pinCnt (desc_at s 1) = 0
      ∧ fst <$> allocBuf s = Some (Fail BUFFEREXCEEDED)
      ∧ fst <$> readPage 1 2 s = Some (Fail BUFFEREXCEEDED)
  | None => False
  end.
Proof. vm_compute. repeat split. Qed.

(** ** Coherence of the residency index *)

(** C2: after every buffer-manager call that returns OK, in any state that
    the buffer manager reaches from its constructor, every valid frame is
    in the residency index under its identity and frame number, and every
    index entry points to a valid frame with the identity of the key. *)
Theorem coherent_after_OK bufs d0 ops op s st s' :
  run ops (new bufs d0) = Some s →
  exec op s = Some (st, s') →
  st = OK →
  coherent s'.
Proof.
  intros Hrun Hex _.
  apply (run_wf ops (new bufs d0) s (wf_new bufs d0)) in Hrun.
  by apply (exec_wf op s st s' Hrun) in Hex as [_ ?].
Qed.

Lemma coherent_after_OK_witness :
  let s := Scenario.after [OpReadPage 1 0; OpUnPinPage 1 0 true]
             (new 1 Scenario.disk4) in
  let s' := Scenario.after_call (OpReadPage 1 1) s in
  run [OpReadPage 1 0; OpUnPinPage 1 0 true] (new 1 Scenario.disk4) = Some s
  ∧ exec (OpReadPage 1 1) s = Some (OK, s')
  ∧ coherent s'.
Proof.
  intros s s'.
  assert (H1 : run [OpReadPage 1 0; OpUnPinPage 1 0 true]
                 (new 1 Scenario.disk4) = Some s) by (vm_compute; reflexivity).
  assert (H2 : exec (OpReadPage 1 1) s = Some (OK, s')) by (vm_compute; reflexivity).
  split; [exact H1|]. split; [exact H2|].
  exact (coherent_after_OK 1 Scenario.disk4 _ _ s OK s' H1 H2 eq_refl).
Defined.

(** ** Requests to the file store *)

Lemma writePage_log f n pg d st d' :
  FileStore.writePage f n pg d = (st, d') →
  FileStore.log d' = FileStore.log d ++ [FileStore.IO (FileStore.WrReq f n pg) st]
  ∧ FileStore.fault d' = FileStore.fault d ∧ FileStore.pick d' = FileStore.pick d.
Proof.
  unfold FileStore.writePage. intros H.
  destruct (FileStore.fault d (FileStore.log d) (FileStore.WrReq f n pg));
    by simplify_eq.
Qed.

Lemma writePage_OK f n pg d d' :
  FileStore.writePage f n pg d = (OK, d') →
  FileStore.store d' = <[(f, n) := pg]> (FileStore.store d).
Proof.
  unfold FileStore.writePage. intros H.
  destruct (FileStore.fault d (FileStore.log d) (FileStore.WrReq f n pg));
    by simplify_eq.
Qed.

Lemma readPage_Done f n d pg d' :
  FileStore.readPage f n d = (Done pg, d') →
  FileStore.store d !! (f, n) = Some pg
  ∧ FileStore.store d' = FileStore.store d
  ∧ FileStore.log d' = FileStore.log d ++ [FileStore.IO (FileStore.RdReq f n) OK].
Proof.
  unfold FileStore.readPage. intros H.
  destruct (FileStore.fault d (FileStore.log d) (FileStore.RdReq f n));
    try done.
  destruct (FileStore.store d !! (f, n)); by simplify_eq.
Qed.

Lemma readPage_store f n d r d' :
  FileStore.readPage f n d = (r, d') →
  FileStore.store d' = FileStore.store d
  ∧ ∃ st, FileStore.log d' = FileStore.log d ++ [FileStore.IO (FileStore.RdReq f n) st].
Proof.
  unfold FileStore.readPage. intros H.
  destruct (FileStore.fault d (FileStore.log d) (FileStore.RdReq f n));
    try (destruct (FileStore.store d !! (f, n))); simplify_eq; eauto.
Qed.

(** [allocBuf] issues at most one request, a write-back. *)
Lemma allocBuf_log s r s' :
  wf s → allocBuf s = Some (r, s') →
  ∃ evs, FileStore.log (disk s') = FileStore.log (disk s) ++ evs
    ∧ Forall (λ e, FileStore.is_read e = false) evs
    ∧ (length evs ≤ 1)%nat.
Proof.
  intros Hwf Hrun.
  destruct (allocBuf_spec _ _ _ Hwf Hrun)
    as (s1 & (_ & _ & Hdk & _) & Hwf1 & [[_ ->]|(i & Hlt & [H|[H|H]])]).
  - exists []. rewrite Hdk, app_nil_r. by repeat split; [constructor|simpl; lia].
  - destruct H as (_ & _ & ->). exists []. simpl. rewrite Hdk, app_nil_r.
    by repeat split; [constructor|simpl; lia].
  - destruct H as (_ & _ & _ & dk & [[_ ->]|[_ Hw]] & _ & ->); simpl.
    + exists []. rewrite Hdk, app_nil_r. by repeat split; [constructor|simpl; lia].
    + apply writePage_log in Hw as (-> & _). rewrite Hdk. eexists.
      split; [done|]. split; [by repeat constructor|simpl; lia].
  - destruct H as (_ & _ & st & dk & _ & Hw & _ & ->); simpl.
    apply writePage_log in Hw as (-> & _). rewrite Hdk. eexists.
    split; [done|]. split; [by repeat constructor|simpl; lia].
Qed.

(** ** The size of the arrays *)

Lemma allocBuf_frames s r s' :
  wf s → allocBuf s = Some (r, s') →
  bufPool s' = bufPool s ∧ numBufs s' = numBufs s.
Proof.
  intros Hwf Hrun.
  destruct (allocBuf_spec _ _ _ Hwf Hrun)
    as (s1 & Hsw & Hwf1 & Hcase).
  pose proof (swept_numBufs _ _ Hsw) as Hnb. destruct Hsw as (Hp & _).
  destruct Hcase as [[_ ->]|(i & Hlt & [H|[H|H]])]; [done|..].
  - destruct H as (_ & _ & ->). by rewrite numBufs_upd_desc.
  - destruct H as (_ & _ & _ & dk & _ & _ & ->). by rewrite numBufs_upd_desc.
  - by destruct H as (_ & _ & st & dk & _ & _ & _ & ->).
Qed.

Lemma disposePage_frames f p s :
  bufPool (disposePage f p s).2 = bufPool s
  ∧ numBufs (disposePage f p s).2 = numBufs s.
Proof.
  unfold disposePage. destruct BufHashTbl.lookup as [frameNo|st];
    destruct FileStore.disposePage as [st' dk]; cbn [snd]; split; try done.
  apply (numBufs_upd_desc frameNo Clear s).
Qed.

Lemma flushFile_loop_frames file_ todo : ∀ s,
  bufPool (flushFile_loop todo file_ s).2 = bufPool s
  ∧ numBufs (flushFile_loop todo file_ s).2 = numBufs s.
Proof.
  induction todo as [|i todo IH]; intros s; [done|].
  cbn [flushFile_loop].
  destruct (valid (desc_at s i)); cbn [andb negb].
  - case_bool_decide; [|by apply IH].
    destruct (0 <? pinCnt (desc_at s i)); [done|].
    destruct (dirty (desc_at s i)).
    + destruct FileStore.writePage as [st dk].
      case_decide; [|done].
      destruct (IH (upd_desc i
                 (λ d, mkDesc NULL (-1) (frameNo d) (pinCnt d) false false (refbit d))
                 (set_hashTable
                    (BufHashTbl.remove file_ (pageNo (desc_at s i))
                       (hashTable (set_disk dk s))).2 (set_disk dk s))))
        as [-> ->].
      by rewrite numBufs_upd_desc.
    + case_decide; [|done].
      destruct (IH (upd_desc i
                 (λ d, mkDesc NULL (-1) (frameNo d) (pinCnt d) false false (refbit d))
                 (set_hashTable
                    (BufHashTbl.remove file_ (pageNo (desc_at s i))
                       (hashTable s)).2 s)))
        as [-> ->].
      by rewrite numBufs_upd_desc.
  - case_bool_decide; [done|by apply IH].
Qed.

Lemma readPage_frames f p s r s' :
  wf s → readPage f p s = Some (r, s') →
  length (bufPool s') = length (bufPool s) ∧ numBufs s' = numBufs s.
Proof.
  intros Hwf Hrun. unfold readPage in Hrun.
  destruct BufHashTbl.lookup as [frame|st].
  { simplify_eq. by rewrite numBufs_upd_desc. }
  destruct (decide (st = HASHNOTFOUND)) as [->|Hne];
    [|by destruct st; simplify_eq].
  destruct (allocBuf s) as [[[frame|st] s1]|] eqn:Halloc; [| |done];
    destruct (allocBuf_frames _ _ _ Hwf Halloc) as [Hp Hn].
  2:{ simplify_eq. by rewrite Hp. }
  destruct FileStore.readPage as [[pg|st] dk].
  - destruct BufHashTbl.insert as [[] ht]; simplify_eq;
      rewrite ?numBufs_upd_desc; simpl; rewrite length_insert, Hp; done.
  - pose proof (disposePage_frames f p (set_disk dk s1)) as [Hp' Hn'].
    destruct disposePage as [? s2]. simplify_eq. simpl in *.
    by rewrite Hp', Hn', Hp.
Qed.

Lemma allocPage_frames f s r s' :
  wf s → allocPage f s = Some (r, s') →
  length (bufPool s') = length (bufPool s) ∧ numBufs s' = numBufs s.
Proof.
  intros Hwf Hrun. unfold allocPage in Hrun.
  destruct FileStore.allocatePage as [[pageNum|st] dk]; [|by simplify_eq].
  destruct (allocBuf (set_disk dk s)) as [[[frame|st] s1]|] eqn:Halloc; [| |done];
    destruct (allocBuf_frames _ _ _ (wf_set_disk dk _ Hwf) Halloc) as [Hp Hn].
  2:{ simplify_eq. by rewrite Hp. }
  destruct BufHashTbl.insert as [[] ht]; simplify_eq;
    rewrite ?numBufs_upd_desc; simpl; rewrite Hp; done.
Qed.

Lemma unPinPage_frames f p b s :
  bufPool (unPinPage f p b s).2 = bufPool s
  ∧ numBufs (unPinPage f p b s).2 = numBufs s.
Proof.
  unfold unPinPage. destruct BufHashTbl.lookup as [frame|st]; [|done].
  case_decide; [done|]. cbn [snd]. by rewrite numBufs_upd_desc.
Qed.

Lemma exec_pooled op s st s' :
  wf s → pooled s → exec op s = Some (st, s') → pooled s'.
Proof.
  unfold pooled. intros Hwf Hpool Hex.
  destruct op as [f p|f|f p b|f p|f| |frame pg]; simpl in Hex.
  - destruct (readPage f p s) as [[r s1]|] eqn:Hrun; simplify_eq.
    destruct (readPage_frames _ _ _ _ _ Hwf Hrun). congruence.
  - destruct (allocPage f s) as [[r s1]|] eqn:Hrun; simplify_eq.
    destruct (allocPage_frames _ _ _ _ Hwf Hrun). congruence.
  - destruct (unPinPage_frames f p b s). destruct unPinPage.
    simplify_eq. simpl in *. congruence.
  - destruct (disposePage_frames f p s). destruct disposePage.
    simplify_eq. simpl in *. congruence.
  - destruct (flushFile_loop_frames f (seq 0 (numBufs s)) s).
    unfold flushFile in Hex. destruct flushFile_loop.
    simplify_eq. simpl in *. congruence.
  - destruct (allocBuf s) as [[r s1]|] eqn:Hrun; simplify_eq.
    destruct (allocBuf_frames _ _ _ Hwf Hrun). congruence.
  - simplify_eq. simpl. by rewrite length_insert.
Qed.

Lemma pooled_new bufs d : pooled (new bufs d).
Proof.
  unfold pooled, numBufs. simpl.
  by rewrite length_replicate, length_fmap, length_seq.
Qed.

(** ** [readPage] *)

Lemma readPage_total f p s : is_Some (readPage f p s).
Proof.
  unfold readPage. destruct BufHashTbl.lookup as [frame|[]]; try by eexists.
  destruct (allocBuf_total s) as [[[frame|st] s1] ->]; [|by eexists].
  destruct FileStore.readPage as [[pg|st] dk].
  - destruct BufHashTbl.insert as [[] ?]; by eexists.
  - destruct disposePage. by eexists.
Qed.

(** C3: [readPage] on a page that is resident issues no request to the
    file and changes nothing but [refbit] (set) and [pinCnt] (plus one) of
    the frame that holds the page.  On a page that is not resident it takes
    the frame that [allocBuf] returns, reads the page from the file exactly
    once, enters (file, pageNo) into the index and sets the descriptor to
    pinCnt = 1, dirty = false, refbit = 1, valid.  Whenever it returns OK,
    the frame handed out holds the requested page and is pinned.  ([pinCnt]
    is an unbounded integer here; the frame counts stay below INT_MAX.) *)
Theorem readPage_contract f p s frame s' :
  wf s → pooled s → pins_ok s →
  readPage f p s = Some (Done frame, s') →
  (∃ d', bufTable s' !! frame = Some d'
     ∧ valid d' = true ∧ file d' = f ∧ pageNo d' = p
     ∧ 0 < pinCnt d' ∧ refbit d' = true)
  ∧ hashTable s' !! (f, p) = Some frame
  ∧ match hashTable s !! (f, p) with
    | Some i =>
        i = frame ∧ disk s' = disk s
        ∧ s' = upd_desc frame
                 (λ d, set_pinCnt (pinCnt d + 1) (set_refbit true d)) s
    | None =>
        ∃ s1 pg evs,
          allocBuf s = Some (Done frame, s1)
          ∧ FileStore.log (disk s1) = FileStore.log (disk s) ++ evs
          ∧ Forall (λ e, FileStore.is_read e = false) evs
          ∧ FileStore.log (disk s')
            = FileStore.log (disk s1) ++ [FileStore.IO (FileStore.RdReq f p) OK]
          ∧ FileStore.store (disk s1) !! (f, p) = Some pg
          ∧ bufPool s' !! frame = Some pg
          ∧ hashTable s' = <[(f, p) := frame]> (hashTable s1)
          ∧ bufTable s' !! frame = Some (mkDesc f p frame 1 false true true)
          ∧ ∀ j, j ≠ frame →
              bufTable s' !! j = bufTable s1 !! j
              ∧ bufPool s' !! j = bufPool s1 !! j
    end.
Proof.
  intros Hwf Hpool Hpins Hrun. unfold readPage, BufHashTbl.lookup in Hrun.
  destruct (hashTable s !! (f, p)) as [i|] eqn:Hht.
  - (* hit *)
    simplify_eq.
    destruct (proj2 (proj2 Hwf) f p frame Hht) as (d & Hd & Hv & Hf & Hp).
    split; [|done].
    eexists. rewrite lookup_upd_desc_eq, Hd. split; [done|]. simpl.
    specialize (Hpins _ _ Hd). repeat split; [done..|lia].
  - (* miss *)
    destruct (allocBuf s) as [[[frame1|st] s1]|] eqn:Halloc; [|done..].
    pose proof (allocBuf_wf _ _ _ Hwf Halloc) as Hwf1.
    pose proof (allocBuf_absent _ _ _ (f, p) Hwf Halloc Hht) as Hht1.
    destruct (allocBuf_Done _ _ _ Hwf Halloc) as (Hlt & Hnb & Hd & Hv).
    destruct (allocBuf_frames _ _ _ Hwf Halloc) as (Hpl & _).
    destruct (allocBuf_log _ _ _ Hwf Halloc) as (evs & Hlog & Hnoread & _).
    destruct FileStore.readPage as [[pg|st] dk] eqn:Hread.
    2:{ destruct disposePage. by simplify_eq. }
    apply readPage_Done in Hread as (Hstore & _ & Hlog').
    unfold BufHashTbl.insert in Hrun. simpl in Hrun. rewrite Hht1 in Hrun.
    simplify_eq.
    assert (Hnew : bufTable
              (upd_desc frame (λ d, set_frameNo frame (Set_ f p d))
                 (set_hashTable (<[(f, p):=frame]> (hashTable s1))
                    (set_page frame pg (set_disk dk s1)))) !! frame
            = Some (mkDesc f p frame 1 false true true)).
    { rewrite lookup_upd_desc_eq. simpl. by rewrite Hd. }
    split; [eexists; split; [exact Hnew|]; by repeat split|].
    split; [simpl; by rewrite lookup_insert_eq|].
    exists s1, pg, evs. repeat split; try done.
    + simpl. apply list_lookup_insert_eq.
      rewrite Hpl. unfold pooled in Hpool. lia.
    + by rewrite lookup_upd_desc_ne.
    + simpl. by rewrite list_lookup_insert_ne.
Qed.

Lemma readPage_contract_witness :
  let s := new 2 Scenario.disk4 in
  let s' := Scenario.after_call (OpReadPage 1 0) s in
  wf s ∧ pooled s ∧ pins_ok s
  ∧ readPage 1 0 s = Some (Done 0%nat, s')
  ∧ hashTable s' !! (1%N, 0) = Some 0%nat.
Proof.
  intros s s'.
  assert (Hwf : wf s) by apply wf_new.
  assert (Hpool : pooled s) by apply pooled_new.
  assert (Hpins : pins_ok s).
  { intros i d Hd. vm_compute in Hd.
    destruct i as [|[|i]]; simplify_eq; done. }
  assert (Hrun : readPage 1 0 s = Some (Done 0%nat, s')) by (vm_compute; reflexivity).
  repeat (split; [assumption|]).
  exact (proj1 (proj2 (readPage_contract 1 0 s 0%nat s' Hwf Hpool Hpins Hrun))).
Defined.

(** ** Pin counts stay non-negative *)

Lemma pins_ok_upd_desc i g s :
  (∀ d, 0 ≤ pinCnt d → 0 ≤ pinCnt (g d)) → pins_ok s → pins_ok (upd_desc i g s).
Proof.
  intros Hg Hp j d' Hd'. apply lookup_upd_desc_Some in Hd' as (d & Hd & ->).
  case_decide; eauto.
Qed.

Lemma swept_pins_ok s s' : swept s s' → pins_ok s → pins_ok s'.
Proof.
  intros Hsw Hp i d' Hd'.
  destruct (swept_lookup _ _ _ _ Hsw Hd') as (d & b & Hd & ->). simpl. eauto.
Qed.

Lemma allocBuf_pins_ok s r s' :
  wf s → pins_ok s → allocBuf s = Some (r, s') → pins_ok s'.
Proof.
  intros Hwf Hp Hrun.
  destruct (allocBuf_spec _ _ _ Hwf Hrun)
    as (s1 & Hsw & Hwf1 & Hcase).
  pose proof (swept_pins_ok _ _ Hsw Hp) as Hp1.
  destruct Hcase as [[_ ->]|(i & Hlt & [H|[H|H]])]; [done|..].
  - destruct H as (_ & _ & ->). by apply pins_ok_upd_desc.
  - destruct H as (_ & _ & _ & dk & _ & _ & ->). by apply pins_ok_upd_desc.
  - by destruct H as (_ & _ & st & dk & _ & _ & _ & ->).
Qed.

Lemma disposePage_pins_ok f p s : pins_ok s → pins_ok (disposePage f p s).2.
Proof.
  intros Hp. unfold disposePage.
  destruct BufHashTbl.lookup as [frameNo|st];
    destruct FileStore.disposePage as [st' dk]; cbn [snd]; [|done].
  by apply (pins_ok_upd_desc frameNo Clear s).
Qed.

Lemma flushFile_loop_pins_ok file_ todo : ∀ s,
  pins_ok s → pins_ok (flushFile_loop todo file_ s).2.
Proof.
  induction todo as [|i todo IH]; intros s Hp; [done|].
  cbn [flushFile_loop].
  destruct (valid (desc_at s i)); cbn [andb negb].
  - case_bool_decide; [|by apply IH].
    destruct (0 <? pinCnt (desc_at s i)); [done|].
    destruct (dirty (desc_at s i)).
    + destruct FileStore.writePage as [st dk].
      case_decide; [|done]. apply IH.
      by apply (pins_ok_upd_desc i _ (set_hashTable _ (set_disk dk s))).
    + case_decide; [|done]. apply IH.
      by apply (pins_ok_upd_desc i _ (set_hashTable _ s)).
  - case_bool_decide; [done|by apply IH].
Qed.

Lemma exec_pins_ok op s st s' :
  wf s → pins_ok s → exec op s = Some (st, s') → pins_ok s'.
Proof.
  intros Hwf Hp Hex.
  destruct op as [f p|f|f p b|f p|f| |frame pg]; simpl in Hex.
  - unfold readPage in Hex.
    destruct BufHashTbl.lookup as [frame|e].
    { simplify_eq. apply pins_ok_upd_desc; [|done]. simpl. intros; lia. }
    destruct (decide (e = HASHNOTFOUND)) as [->|Hne];
      [|by destruct e; simplify_eq].
    destruct (allocBuf s) as [[[frame|e] s1]|] eqn:Halloc; [| |done];
      pose proof (allocBuf_pins_ok _ _ _ Hwf Hp Halloc) as Hp1.
    2:{ by simplify_eq. }
    destruct FileStore.readPage as [[pg|e] dk].
    + destruct BufHashTbl.insert as [[] ht]; simplify_eq; try done.
      by apply (pins_ok_upd_desc frame _
                  (set_hashTable ht (set_page frame pg (set_disk dk s1)))).
    + pose proof (disposePage_pins_ok f p (set_disk dk s1) Hp1).
      destruct disposePage. by simplify_eq.
  - unfold allocPage in Hex.
    destruct FileStore.allocatePage as [[pageNum|e] dk]; [|by simplify_eq].
    destruct (allocBuf (set_disk dk s)) as [[[frame|e] s1]|] eqn:Halloc; [| |done];
      pose proof (allocBuf_pins_ok _ _ _ (wf_set_disk dk _ Hwf) Hp Halloc) as Hp1.
    2:{ by simplify_eq. }
    destruct BufHashTbl.insert as [[] ht]; simplify_eq; try done.
    by apply (pins_ok_upd_desc frame _ (set_hashTable ht s1)).
  - unfold unPinPage in Hex. destruct BufHashTbl.lookup as [frame|e]; [|by simplify_eq].
    case_decide as Hz; simplify_eq; [done|].
    intros j d' Hd'. apply lookup_upd_desc_Some in Hd' as (d & Hd & ->).
    case_decide; [subst j|by eauto].
    rewrite (desc_at_lookup _ _ _ Hd) in Hz. specialize (Hp _ _ Hd).
    destruct b; simpl; lia.
  - pose proof (disposePage_pins_ok f p s Hp). destruct disposePage. by simplify_eq.
  - pose proof (flushFile_loop_pins_ok f (seq 0 (numBufs s)) s Hp).
    unfold flushFile in Hex. destruct flushFile_loop. by simplify_eq.
  - destruct (allocBuf s) as [[r s1]|] eqn:Hrun; simplify_eq.
    by eapply allocBuf_pins_ok.
  - by simplify_eq.
Qed.

(** The three invariants hold in every state that the buffer manager
    reaches from its constructor. *)
Lemma run_invariants ops : ∀ s s',
  wf s → pooled s → pins_ok s → run ops s = Some s' →
  wf s' ∧ pooled s' ∧ pins_ok s'.
Proof.
  induction ops as [|op ops IH]; intros s s' Hwf Hpool Hp Hrun; simpl in Hrun.
  - by simplify_eq.
  - destruct (exec op s) as [[st s1]|] eqn:Hex; [|done].
    eapply IH; [..|done];
      eauto using exec_wf, exec_pooled, exec_pins_ok.
Qed.

(** ** [flushFile] *)

Lemma flushFile_loop_cons i todo file_ s :
  flushFile_loop (i :: todo) file_ s =
    let d := desc_at s i in
    match stop_kind file_ d with
    | Some st => (st, s)
    | None =>
        if valid d && bool_decide (file d = file_) then
          if dirty d then
            let '(st, dk) :=
              FileStore.writePage (file d) (pageNo d) (page_at s i) (disk s) in
            if decide (st = OK)
            then flushFile_loop todo file_ (flush_frame i file_ dk s)
            else (st, set_disk dk s)
          else flushFile_loop todo file_ (flush_frame i file_ (disk s) s)
        else flushFile_loop todo file_ s
    end.
Proof.
  cbn [flushFile_loop]. cbv zeta. unfold stop_kind.
  destruct (valid (desc_at s i) && bool_decide (file (desc_at s i) = file_)).
  - destruct (0 <? pinCnt (desc_at s i)); [done|].
    destruct (dirty (desc_at s i)).
    + destruct FileStore.writePage as [st dk]. by case_decide.
    + case_decide; [|done]. unfold flush_frame. by rewrite set_disk_id.
  - by destruct (negb (valid (desc_at s i)) && bool_decide (file (desc_at s i) = file_)).
Qed.

Lemma desc_at_upd_desc_ne i j g s : i ≠ j → desc_at (upd_desc i g s) j = desc_at s j.
Proof. intros. unfold desc_at. by rewrite lookup_upd_desc_ne. Qed.

Lemma desc_at_flush_frame_ne i j file_ dk s :
  i ≠ j → desc_at (flush_frame i file_ dk s) j = desc_at s j.
Proof. intros. unfold flush_frame. by rewrite desc_at_upd_desc_ne. Qed.

Lemma valid_flush_frame i file_ dk s :
  valid (desc_at (flush_frame i file_ dk s) i) = false.
Proof.
  unfold flush_frame, desc_at. rewrite lookup_upd_desc_eq. simpl.
  by destruct (bufTable s !! i).
Qed.

Lemma flush_frame_wf i file_ dk s :
  wf s → valid (desc_at s i) = true → file (desc_at s i) = file_ →
  wf (flush_frame i file_ dk s).
Proof.
  intros Hwf Hv Hf. pose proof (desc_at_valid_lookup _ _ Hv) as Hd.
  unfold flush_frame, BufHashTbl.remove.
  pose proof (proj1 (proj2 Hwf) _ _ Hd Hv) as Hht. rewrite Hf in Hht.
  rewrite Hht. cbn [snd]. rewrite <- Hf.
  apply (wf_evict_with _ (set_disk dk s) i (desc_at s i));
    [done|by apply wf_set_disk|done..].
Qed.

(** The loop changes no frame that it does not flush. *)
Lemma flushFile_loop_desc file_ todo : ∀ s st s' j,
  (j ∈ todo → valid (desc_at s j) = true → file (desc_at s j) = file_ → False) →
  flushFile_loop todo file_ s = (st, s') →
  bufTable s' !! j = bufTable s !! j.
Proof.
  induction todo as [|i todo IH]; intros s st s' j Hj Hrun.
  { by simplify_eq/=. }
  rewrite flushFile_loop_cons in Hrun. cbv zeta in Hrun.
  destruct (stop_kind file_ (desc_at s i)); [by simplify_eq|].
  assert (Hrest : ∀ dk, i ≠ j →
    j ∈ todo → valid (desc_at (flush_frame i file_ dk s) j) = true →
    file (desc_at (flush_frame i file_ dk s) j) = file_ → False).
  { intros dk Hij Hin. rewrite desc_at_flush_frame_ne by done.
    apply Hj. by right. }
  destruct (valid (desc_at s i) && bool_decide (file (desc_at s i) = file_)) eqn:Hb.
  - apply andb_prop in Hb as [Hv Hf]. apply bool_decide_eq_true in Hf.
    assert (Hij : i ≠ j).
    { intros ->. apply Hj; [by left|done..]. }
    destruct (dirty (desc_at s i)).
    + destruct FileStore.writePage as [ret dk].
      case_decide; [|by simplify_eq].
      rewrite (IH _ _ _ j (Hrest dk Hij) Hrun).
      unfold flush_frame. by rewrite lookup_upd_desc_ne.
    + rewrite (IH _ _ _ j (Hrest (disk s) Hij) Hrun).
      unfold flush_frame. by rewrite lookup_upd_desc_ne.
  - eapply IH; [|exact Hrun]. intros Hin. apply Hj. by right.
Qed.

(** The loop writes only the pages of the dirty frames that it flushes. *)
Lemma flushFile_loop_store file_ todo : ∀ s st s' k,
  NoDup todo →
  (∀ j, j ∈ todo → valid (desc_at s j) = true → file (desc_at s j) = file_ →
        dirty (desc_at s j) = true → k ≠ (file_, pageNo (desc_at s j))) →
  flushFile_loop todo file_ s = (st, s') →
  FileStore.store (disk s') !! k = FileStore.store (disk s) !! k.
Proof.
  induction todo as [|i todo IH]; intros s st s' k Hnd Hk Hrun.
  { by simplify_eq/=. }
  apply NoDup_cons in Hnd as [Hi Hnd].
  rewrite flushFile_loop_cons in Hrun. cbv zeta in Hrun.
  destruct (stop_kind file_ (desc_at s i)); [by simplify_eq|].
  assert (Hrest : ∀ dk j,
    j ∈ todo → valid (desc_at (flush_frame i file_ dk s) j) = true →
    file (desc_at (flush_frame i file_ dk s) j) = file_ →
    dirty (desc_at (flush_frame i file_ dk s) j) = true →
    k ≠ (file_, pageNo (desc_at (flush_frame i file_ dk s) j))).
  { intros dk j Hin.
    assert (i ≠ j) by (intros ->; done).
    rewrite desc_at_flush_frame_ne by done. apply Hk. by right. }
  destruct (valid (desc_at s i) && bool_decide (file (desc_at s i) = file_)) eqn:Hb.
  - apply andb_prop in Hb as [Hv Hf]. apply bool_decide_eq_true in Hf.
    destruct (dirty (desc_at s i)) eqn:Hdirty.
    + destruct FileStore.writePage as [ret dk] eqn:Hw.
      case_decide as Hret.
      * subst ret. rewrite (IH _ _ _ k Hnd (Hrest dk) Hrun). simpl.
        rewrite (writePage_OK _ _ _ _ _ Hw), Hf.
        apply lookup_insert_ne. intros Heq. by eapply (Hk i); [left|..].
      * simplify_eq. simpl. unfold FileStore.writePage in Hw.
        destruct (FileStore.fault (disk s) (FileStore.log (disk s))
                    (FileStore.WrReq (file (desc_at s i)) (pageNo (desc_at s i))
                       (page_at s i))); by simplify_eq.
    + by rewrite (IH _ _ _ k Hnd (Hrest (disk s)) Hrun).
  - eapply (IH _ _ _ k Hnd); [|exact Hrun]. intros j Hin. apply Hk. by right.
Qed.

Lemma flushFile_loop_OK file_ todo : ∀ s s' i,
  NoDup todo → wf s →
  flushFile_loop todo file_ s = (OK, s') →
  i ∈ todo →
  stop_kind file_ (desc_at s i) = None
  ∧ (valid (desc_at s i) = true → file (desc_at s i) = file_ →
     valid (desc_at s' i) = false
     ∧ (dirty (desc_at s i) = true →
        FileStore.store (disk s') !! (file_, pageNo (desc_at s i))
        = Some (page_at s i))).
Proof.
  induction todo as [|i0 todo IH]; intros s s' i Hnd Hwf Hrun Hin.
  { by apply elem_of_nil in Hin. }
  apply NoDup_cons in Hnd as [Hi0 Hnd].
  rewrite flushFile_loop_cons in Hrun. cbv zeta in Hrun.
  destruct (stop_kind file_ (desc_at s i0)) eqn:Hstop.
  { simplify_eq. unfold stop_kind in Hstop.
    repeat (case_match; simplify_eq). }
  destruct (valid (desc_at s i0) && bool_decide (file (desc_at s i0) = file_)) eqn:Hb.
  - apply andb_prop in Hb as [Hv Hf]. apply bool_decide_eq_true in Hf.
    assert (Hstep : ∀ dk,
      flushFile_loop todo file_ (flush_frame i0 file_ dk s) = (OK, s') →
      (dirty (desc_at s i0) = true →
       FileStore.store dk !! (file_, pageNo (desc_at s i0)) = Some (page_at s i0)) →
      stop_kind file_ (desc_at s i) = None
      ∧ (valid (desc_at s i) = true → file (desc_at s i) = file_ →
         valid (desc_at s' i) = false
         ∧ (dirty (desc_at s i) = true →
            FileStore.store (disk s') !! (file_, pageNo (desc_at s i))
            = Some (page_at s i)))).
    { intros dk Hrest Hdk.
      pose proof (flush_frame_wf i0 file_ dk s Hwf Hv Hf) as Hwf1.
      apply elem_of_cons in Hin as [->|Hin].
      - split; [done|]. intros _ _. split.
        + unfold desc_at.
          rewrite (flushFile_loop_desc _ _ _ _ _ i0 (λ H, False_ind _ (Hi0 H)) Hrest).
          apply valid_flush_frame.
        + intros Hd.
          transitivity (FileStore.store (disk (flush_frame i0 file_ dk s))
                          !! (file_, pageNo (desc_at s i0))); [|by apply Hdk].
          eapply flushFile_loop_store; [exact Hnd| |exact Hrest].
          intros j Hj. assert (i0 ≠ j) by (intros ->; done).
          rewrite desc_at_flush_frame_ne by done.
          intros Hvj Hfj _ Heq. injection Heq as Hp.
          pose proof (desc_at_valid_lookup _ _ Hv).
          pose proof (desc_at_valid_lookup _ _ Hvj).
          apply (wf_valid_inj s i0 j _ _ Hwf) in Hp; congruence.
      - assert (i0 ≠ i) by (intros ->; done).
        destruct (IH _ _ i Hnd Hwf1 Hrest Hin) as [H1 H2].
        rewrite desc_at_flush_frame_ne in H1, H2 by done.
        split; [done|]. intros Hvi Hfi.
        destruct (H2 Hvi Hfi) as [H3 H4]. split; [done|].
        intros Hd. by rewrite (H4 Hd). }
    destruct (dirty (desc_at s i0)) eqn:Hdirty.
    + destruct FileStore.writePage as [ret dk] eqn:Hw.
      case_decide as Hret; [subst ret|by simplify_eq].
      apply (Hstep dk Hrun). intros _.
      rewrite (writePage_OK _ _ _ _ _ Hw), Hf. apply lookup_insert_eq.
    + by apply (Hstep (disk s) Hrun).
  - apply elem_of_cons in Hin as [->|Hin]; [|by apply (IH s s' i)].
    split; [done|]. intros Hv Hf.
    rewrite Hv in Hb. apply andb_false_iff in Hb as [?|Hb]; [done|].
    by apply bool_decide_eq_false in Hb.
Qed.

Lemma first_stop_cons file_ d t :
  first_stop file_ (d :: t) =
    match stop_kind file_ d with Some st => st | None => first_stop file_ t end.
Proof. unfold first_stop. simpl. by destruct (stop_kind file_ d). Qed.


Lemma desc_at_flush_frame_fmap i file_ dk s (todo : list nat) :
  i ∉ todo →
  desc_at (flush_frame i file_ dk s) <$> todo = desc_at s <$> todo.
Proof.
  intros Hi. apply list_fmap_ext. intros k j Hj.
  apply desc_at_flush_frame_ne. intros ->.
  apply Hi. by eapply list_elem_of_lookup_2.
Qed.

(** The status of the loop is that of the first frame that stops it, unless
    a write-back has failed before; the failed request is then the last
    entry of the log. *)
Lemma flushFile_loop_status file_ todo : ∀ s st s',
  NoDup todo →
  flushFile_loop todo file_ s = (st, s') →
  st = first_stop file_ (desc_at s <$> todo)
  ∨ (st ≠ OK
     ∧ ∃ l n pg,
         FileStore.fault (disk s) l (FileStore.WrReq file_ n pg) = st
         ∧ last (FileStore.log (disk s'))
           = Some (FileStore.IO (FileStore.WrReq file_ n pg) st)).
Proof.
  induction todo as [|i todo IH]; intros s st s' Hnd Hrun.
  { left. by simplify_eq/=. }
  apply NoDup_cons in Hnd as [Hi Hnd].
  rewrite flushFile_loop_cons in Hrun. cbv zeta in Hrun.
  rewrite fmap_cons, first_stop_cons.
  destruct (stop_kind file_ (desc_at s i)); [left; by simplify_eq|].
  destruct (valid (desc_at s i) && bool_decide (file (desc_at s i) = file_)) eqn:Hb;
    [|by apply IH].
  apply andb_prop in Hb as [Hv Hf]. apply bool_decide_eq_true in Hf.
  destruct (dirty (desc_at s i)).
  - destruct FileStore.writePage as [ret dk] eqn:Hw.
    pose proof (writePage_log _ _ _ _ _ _ Hw) as (Hlog & Hfault & _).
    case_decide as Hret.
    + destruct (IH _ _ _ Hnd Hrun) as [->|(Hne & l & n & pg & Hfl & Hlast)].
      * left. by rewrite desc_at_flush_frame_fmap.
      * right. split; [done|]. exists l, n, pg. split; [|done].
        simpl in Hfl. by rewrite <- Hfault.
    + right. simplify_eq. split; [done|].
      exists (FileStore.log (disk s)), (pageNo (desc_at s i)), (page_at s i).
      simpl. rewrite Hlog, last_snoc. split; [|done].
      unfold FileStore.writePage in Hw.
      destruct (FileStore.fault (disk s) (FileStore.log (disk s))
                  (FileStore.WrReq (file (desc_at s i)) (pageNo (desc_at s i))
                     (page_at s i))) eqn:Hfl; by simplify_eq.
  - destruct (IH _ _ _ Hnd Hrun) as [->|(Hne & l & n & pg & Hfl & Hlast)].
    + left. by rewrite desc_at_flush_frame_fmap.
    + right. split; [done|]. by exists l, n, pg.
Qed.




(** ** The log only grows *)

Lemma log_grows_refl s : log_grows s s.
Proof. exists []. by rewrite app_nil_r. Qed.

Lemma log_grows_trans s1 s2 s3 : log_grows s1 s2 → log_grows s2 s3 → log_grows s1 s3.
Proof. intros [e1 H1] [e2 H2]. exists (e1 ++ e2). by rewrite H2, H1, app_assoc. Qed.

Lemma written_then_grows s1 s2 s3 f p :
  written_since s1 s2 f p → log_grows s2 s3 → written_since s1 s3 f p.
Proof.
  intros (e1 & H1 & Hw) [e2 H2]. exists (e1 ++ e2).
  split; [by rewrite H2, H1, app_assoc|]. apply Exists_app. by left.
Qed.

Lemma grows_then_written s1 s2 s3 f p :
  log_grows s1 s2 → written_since s2 s3 f p → written_since s1 s3 f p.
Proof.
  intros [e1 H1] (e2 & H2 & Hw). exists (e1 ++ e2).
  split; [by rewrite H2, H1, app_assoc|]. apply Exists_app. by right.
Qed.

Lemma written_since_grows s s' f p : written_since s s' f p → log_grows s s'.
Proof. intros (evs & H & _). by exists evs. Qed.

Lemma log_grows_disk s s' : disk s' = disk s → log_grows s s'.
Proof. intros H. exists []. by rewrite H, app_nil_r. Qed.

Lemma disposePage_log f n d st d' :
  FileStore.disposePage f n d = (st, d') →
  FileStore.log d' = FileStore.log d ++ [FileStore.IO (FileStore.DispReq f n) st].
Proof.
  unfold FileStore.disposePage. intros H.
  destruct (FileStore.fault d (FileStore.log d) (FileStore.DispReq f n));
    by simplify_eq.
Qed.

Lemma allocatePage_log f d r d' :
  FileStore.allocatePage f d = (r, d') →
  ∃ st, FileStore.log d' = FileStore.log d ++ [FileStore.IO (FileStore.AllocReq f) st].
Proof.
  unfold FileStore.allocatePage. intros H.
  destruct (FileStore.fault d (FileStore.log d) (FileStore.AllocReq f));
    simplify_eq; eauto.
Qed.

Lemma allocBuf_log_grows s r s' :
  wf s → allocBuf s = Some (r, s') → log_grows s s'.
Proof.
  intros Hwf Hrun.
  destruct (allocBuf_log _ _ _ Hwf Hrun) as (evs & H & _). by exists evs.
Qed.

Lemma disposePage_log_grows f p s : log_grows s (disposePage f p s).2.
Proof.
  unfold disposePage.
  destruct (FileStore.disposePage _ _ _) as [st dk] eqn:Hd.
  apply disposePage_log in Hd. cbn [snd].
  destruct BufHashTbl.lookup; simpl in *; by eexists.
Qed.

Lemma unPinPage_disk f p b s : disk (unPinPage f p b s).2 = disk s.
Proof.
  unfold unPinPage. destruct BufHashTbl.lookup; [|done]. by case_decide.
Qed.

Lemma flushFile_loop_log_grows file_ todo : ∀ s,
  log_grows s (flushFile_loop todo file_ s).2.
Proof.
  induction todo as [|i todo IH]; intros s; [apply log_grows_refl|].
  rewrite flushFile_loop_cons. cbv zeta.
  destruct (stop_kind file_ (desc_at s i)); [apply log_grows_refl|].
  destruct (valid (desc_at s i) && bool_decide (file (desc_at s i) = file_));
    [|apply IH].
  destruct (dirty (desc_at s i)).
  - destruct FileStore.writePage as [st dk] eqn:Hw.
    apply writePage_log in Hw as (Hlog & _).
    assert (log_grows s (set_disk dk s)) by (by eexists).
    case_decide; [|done].
    eapply log_grows_trans; [|apply IH]. by eexists.
  - eapply log_grows_trans; [|apply IH]. by apply log_grows_disk.
Qed.

Lemma readPage_log_grows f p s r s' :
  wf s → readPage f p s = Some (r, s') → log_grows s s'.
Proof.
  intros Hwf Hrun. unfold readPage in Hrun.
  destruct BufHashTbl.lookup as [frame|e].
  { simplify_eq. by apply log_grows_disk. }
  destruct (decide (e = HASHNOTFOUND)) as [->|Hne];
    [|destruct e; simplify_eq; by apply log_grows_disk].
  destruct (allocBuf s) as [[[frame|e] s1]|] eqn:Halloc; [| |done];
    pose proof (allocBuf_log_grows _ _ _ Hwf Halloc) as Hg.
  2:{ by simplify_eq. }
  destruct FileStore.readPage as [[pg|e] dk] eqn:Hrd;
    apply readPage_store in Hrd as (_ & st & Hlog).
  - assert (log_grows s1 s').
    { destruct BufHashTbl.insert as [[] ht]; simplify_eq; by eexists. }
    by eapply log_grows_trans.
  - pose proof (disposePage_log_grows f p (set_disk dk s1)) as Hg2.
    destruct disposePage as [? s2]. simplify_eq.
    eapply log_grows_trans; [exact Hg|].
    eapply log_grows_trans; [|exact Hg2]. by eexists.
Qed.

Lemma allocPage_log_grows f s r s' :
  wf s → allocPage f s = Some (r, s') → log_grows s s'.
Proof.
  intros Hwf Hrun. unfold allocPage in Hrun.
  destruct FileStore.allocatePage as [[pageNum|e] dk] eqn:Ha;
    apply allocatePage_log in Ha as (st & Hlog).
  2:{ simplify_eq. by eexists. }
  assert (Hg0 : log_grows s (set_disk dk s)) by (by eexists).
  destruct (allocBuf (set_disk dk s)) as [[[frame|e] s1]|] eqn:Halloc; [| |done];
    pose proof (allocBuf_log_grows _ _ _ (wf_set_disk dk _ Hwf) Halloc) as Hg.
  2:{ simplify_eq. by eapply log_grows_trans. }
  eapply log_grows_trans; [exact Hg0|]. eapply log_grows_trans; [exact Hg|].
  destruct BufHashTbl.insert as [[] ht]; simplify_eq; by apply log_grows_disk.
Qed.

Lemma exec_log_grows op s st s' :
  wf s → exec op s = Some (st, s') → log_grows s s'.
Proof.
  intros Hwf Hex. destruct op as [f p|f|f p b|f p|f| |frame pg]; simpl in Hex.
  - destruct (readPage f p s) as [[r s1]|] eqn:Hrun; simplify_eq.
    by eapply readPage_log_grows.
  - destruct (allocPage f s) as [[r s1]|] eqn:Hrun; simplify_eq.
    by eapply allocPage_log_grows.
  - pose proof (unPinPage_disk f p b s). destruct unPinPage.
    simplify_eq. by apply log_grows_disk.
  - pose proof (disposePage_log_grows f p s). destruct disposePage. by simplify_eq.
  - pose proof (flushFile_loop_log_grows f (seq 0 (numBufs s)) s).
    unfold flushFile in Hex. destruct flushFile_loop. by simplify_eq.
  - destruct (allocBuf s) as [[r s1]|] eqn:Hrun; simplify_eq.
    by eapply allocBuf_log_grows.
  - simplify_eq. by apply log_grows_disk.
Qed.

(** ** A dirty frame stays dirty until it is written back or disposed of *)

Lemma holds_dirty_upd_desc_ne i j g s f p :
  i ≠ j → holds_dirty s j f p → holds_dirty (upd_desc i g s) j f p.
Proof.
  intros Hij (d & Hd & H). exists d. by rewrite lookup_upd_desc_ne.
Qed.

Lemma holds_dirty_upd_desc i j g s f p :
  (∀ d, valid (g d) = valid d ∧ file (g d) = file d ∧ pageNo (g d) = pageNo d
        ∧ (dirty d = true → dirty (g d) = true)) →
  holds_dirty s j f p → holds_dirty (upd_desc i g s) j f p.
Proof.
  intros Hg (d & Hd & Hv & Hdirty & Hf & Hp).
  destruct (decide (i = j)) as [->|Hij].
  - exists (g d). rewrite lookup_upd_desc_eq, Hd.
    destruct (Hg d) as (-> & -> & -> & Hk). by rewrite Hk.
  - exists d. by rewrite lookup_upd_desc_ne.
Qed.

Lemma swept_holds_dirty s s' i f p :
  swept s s' → holds_dirty s i f p → holds_dirty s' i f p.
Proof.
  intros Hsw (d & Hd & H).
  destruct (swept_lookup_l _ _ _ _ Hsw Hd) as [b Hd'].
  by exists (set_refbit b d).
Qed.

Lemma allocBuf_dirty s r s' i f p :
  wf s → holds_dirty s i f p → allocBuf s = Some (r, s') →
  holds_dirty s' i f p ∨ (written_since s s' f p ∧ r = Done i).
Proof.
  intros Hwf Hh Hrun.
  destruct (allocBuf_spec _ _ _ Hwf Hrun) as (s1 & Hsw & Hwf1 & Hcase).
  pose proof (swept_holds_dirty _ _ _ _ _ Hsw Hh) as Hh1.
  destruct Hsw as (_ & _ & Hdk & _).
  destruct Hh1 as (d & Hd & Hv & Hdirty & Hf & Hp).
  pose proof (desc_at_lookup _ _ _ Hd) as Hat.
  assert (Hh1 : holds_dirty s1 i f p) by (by exists d).
  destruct Hcase as [[_ ->]|(k & Hlt & [H|[H|H]])]; [by left|..].
  - destruct H as (Hvk & _ & ->). left.
    apply holds_dirty_upd_desc_ne; [|done]. intros ->. congruence.
  - destruct H as (Hvk & _ & _ & dk & Hwb & -> & ->).
    destruct (decide (k = i)) as [->|Hne].
    + right. split; [|done]. unfold written_back in Hwb. cbv zeta in Hwb.
      rewrite Hat in Hwb.
      destruct Hwb as [[? _]|[_ Hw]]; [congruence|].
      apply writePage_log in Hw as (Hlog & _).
      eexists. simpl. rewrite Hlog, Hdk. split; [done|].
      apply Exists_cons_hd. exists (page_at s1 i). by rewrite Hf, Hp.
    + left. by apply holds_dirty_upd_desc_ne.
  - destruct H as (_ & _ & st & dk & _ & _ & _ & ->). by left.
Qed.

Lemma holds_dirty_flush_frame_ne i0 i file_ dk s f p :
  i0 ≠ i → holds_dirty s i f p → holds_dirty (flush_frame i0 file_ dk s) i f p.
Proof.
  intros Hne Hh. unfold flush_frame. by apply holds_dirty_upd_desc_ne.
Qed.

Lemma flushFile_loop_dirty file_ todo : ∀ s st s' i f p,
  holds_dirty s i f p →
  flushFile_loop todo file_ s = (st, s') →
  holds_dirty s' i f p ∨ written_since s s' f p.
Proof.
  induction todo as [|i0 todo IH]; intros s st s' i f p Hh Hrun.
  { left. by simplify_eq/=. }
  rewrite flushFile_loop_cons in Hrun. cbv zeta in Hrun.
  destruct (stop_kind file_ (desc_at s i0)); [left; by simplify_eq|].
  destruct (valid (desc_at s i0) && bool_decide (file (desc_at s i0) = file_));
    [|by eapply IH].
  assert (Hrest : ∀ dk, i0 ≠ i → log_grows s (set_disk dk s) →
    flushFile_loop todo file_ (flush_frame i0 file_ dk s) = (st, s') →
    holds_dirty s' i f p ∨ written_since s s' f p).
  { intros dk Hne Hg Hr.
    destruct (IH _ _ _ i f p (holds_dirty_flush_frame_ne i0 i file_ dk s f p Hne Hh) Hr)
      as [?|Hw]; [by left|right].
    eapply grows_then_written; [exact Hg|exact Hw]. }
  destruct Hh as (d & Hd & Hv & Hdirty & Hf & Hp).
  pose proof (desc_at_lookup _ _ _ Hd) as Hat.
  assert (Hh : holds_dirty s i f p) by (by exists d).
  destruct (dirty (desc_at s i0)) eqn:Hdi0.
  - destruct FileStore.writePage as [ret dk] eqn:Hw.
    pose proof (writePage_log _ _ _ _ _ _ Hw) as (Hlog & _).
    case_decide as Hret; [subst ret|left; by simplify_eq].
    destruct (decide (i0 = i)) as [->|Hne].
    + right.
      assert (Hws : written_since s (flush_frame i file_ dk s) f p).
      { eexists. simpl. split; [exact Hlog|].
        apply Exists_cons_hd. exists (page_at s i). by rewrite Hat, Hf, Hp. }
      eapply written_then_grows; [exact Hws|].
      pose proof (flushFile_loop_log_grows file_ todo (flush_frame i file_ dk s)) as Hg.
      by rewrite Hrun in Hg.
    + apply (Hrest dk Hne); [by eexists|done].
  - destruct (decide (i0 = i)) as [->|Hne]; [congruence|].
    apply (Hrest (disk s) Hne); [by apply log_grows_disk|done].
Qed.

Lemma exec_dirty op s st s' i f p :
  wf s → holds_dirty s i f p → exec op s = Some (st, s') →
  holds_dirty s' i f p ∨ written_since s s' f p ∨ op = OpDisposePage f p.
Proof.
  intros Hwf Hh Hex.
  destruct op as [f' p'|f'|f' p' b|f' p'|f'| |frame pg]; simpl in Hex.
  - (* readPage *)
    unfold readPage, BufHashTbl.lookup in Hex.
    destruct (hashTable s !! (f', p')) as [frame|] eqn:Hht.
    { simplify_eq. left. by apply holds_dirty_upd_desc. }
    destruct (allocBuf s) as [[[frame|e] s1]|] eqn:Halloc; [| |done].
    2:{ simplify_eq. destruct (allocBuf_dirty _ _ _ _ _ _ Hwf Hh Halloc) as [?|[? ?]];
          [by left|done]. }
    pose proof (allocBuf_wf _ _ _ Hwf Halloc) as Hwf1.
    pose proof (allocBuf_absent _ _ _ (f', p') Hwf Halloc Hht) as Hht1.
    destruct (allocBuf_Done _ _ _ Hwf Halloc) as (Hlt & _ & Hd & Hv).
    assert (Hrest : log_grows s1 s' ∧ (holds_dirty s1 i f p → holds_dirty s' i f p)).
    { destruct FileStore.readPage as [[pg|e] dk] eqn:Hrd;
        apply readPage_store in Hrd as (_ & ste & Hlog).
      - unfold BufHashTbl.insert in Hex. simpl in Hex. rewrite Hht1 in Hex.
        simplify_eq. split; [by eexists|].
        intros Hh1. apply holds_dirty_upd_desc_ne; [|done].
        intros ->. destruct Hh1 as (d & Hd1 & Hv1 & _).
        rewrite (desc_at_lookup _ _ _ Hd1) in Hv. congruence.
      - unfold disposePage, BufHashTbl.lookup, BufHashTbl.remove in Hex.
        simpl in Hex. rewrite Hht1 in Hex.
        destruct FileStore.disposePage as [st' dk'] eqn:Hdp.
        apply disposePage_log in Hdp. simpl in Hdp. simplify_eq.
        split; [|done]. exists [FileStore.IO (FileStore.RdReq f' p') ste;
                               FileStore.IO (FileStore.DispReq f' p') st'].
        simpl. rewrite Hdp, Hlog. by rewrite <- app_assoc. }
    destruct Hrest as [Hg Hkeep].
    destruct (allocBuf_dirty _ _ _ _ _ _ Hwf Hh Halloc) as [?|[Hw _]];
      [left; by apply Hkeep|right; left].
    by eapply written_then_grows.
  - (* allocPage *)
    unfold allocPage in Hex.
    destruct FileStore.allocatePage as [[pageNum|e] dk] eqn:Ha;
      apply allocatePage_log in Ha as (ste & Hlog).
    2:{ simplify_eq. by left. }
    assert (Hg0 : log_grows s (set_disk dk s)) by (by eexists).
    pose proof (wf_set_disk dk _ Hwf) as Hwf0.
    assert (Hh0 : holds_dirty (set_disk dk s) i f p) by done.
    destruct (allocBuf (set_disk dk s)) as [[[frame|e] s1]|] eqn:Halloc; [| |done].
    2:{ simplify_eq. destruct (allocBuf_dirty _ _ _ _ _ _ Hwf0 Hh0 Halloc) as [?|[? ?]];
          [by left|done]. }
    destruct (allocBuf_Done _ _ _ Hwf0 Halloc) as (Hlt & _ & Hd & Hv).
    assert (Hrest : log_grows s1 s' ∧ (holds_dirty s1 i f p → holds_dirty s' i f p)).
    { destruct BufHashTbl.insert as [[] ht]; simplify_eq;
        (split; [by apply log_grows_disk|]); try done.
      intros Hh1. apply holds_dirty_upd_desc_ne; [|done].
      intros ->. destruct Hh1 as (d & Hd1 & Hv1 & _).
      rewrite (desc_at_lookup _ _ _ Hd1) in Hv. congruence. }
    destruct Hrest as [Hg Hkeep].
    destruct (allocBuf_dirty _ _ _ _ _ _ Hwf0 Hh0 Halloc) as [?|[Hw _]];
      [left; by apply Hkeep|right; left].
    eapply grows_then_written; [exact Hg0|]. by eapply written_then_grows.
  - (* unPinPage *)
    left. unfold unPinPage in Hex.
    destruct BufHashTbl.lookup as [frame|e]; [|by simplify_eq].
    case_decide; simplify_eq; [done|].
    apply holds_dirty_upd_desc; [|done]. intros d. by destruct b.
  - (* disposePage *)
    unfold disposePage, BufHashTbl.lookup in Hex.
    destruct (hashTable s !! (f', p')) as [k|] eqn:Hht.
    + destruct FileStore.disposePage as [st' dk']. simplify_eq.
      destruct (proj2 (proj2 Hwf) _ _ _ Hht) as (d & Hd & Hv & Hf & Hp).
      destruct (decide (k = i)) as [->|Hne].
      * right; right. destruct Hh as (d' & Hd' & _ & _ & <- & <-). congruence.
      * left. by apply (holds_dirty_upd_desc_ne k i Clear s).
    + destruct FileStore.disposePage as [st' dk']. simplify_eq. by left.
  - (* flushFile *)
    unfold flushFile in Hex.
    destruct flushFile_loop as [st1 s1] eqn:Hrun. simplify_eq.
    destruct (flushFile_loop_dirty _ _ _ _ _ _ _ _ Hh Hrun); eauto.
  - (* allocBuf *)
    destruct (allocBuf s) as [[r s1]|] eqn:Hrun; simplify_eq.
    destruct (allocBuf_dirty _ _ _ _ _ _ Hwf Hh Hrun) as [?|[? _]]; eauto.
  - (* a store into the pool *)
    simplify_eq. by left.
Qed.

Lemma run_dirty ops : ∀ s s' i f p,
  wf s → holds_dirty s i f p → run ops s = Some s' →
  holds_dirty s' i f p ∨ written_since s s' f p ∨ OpDisposePage f p ∈ ops.
Proof.
  induction ops as [|op ops IH]; intros s s' i f p Hwf Hh Hrun; simpl in Hrun.
  { left. by simplify_eq. }
  destruct (exec op s) as [[st s1]|] eqn:Hex; [|done].
  pose proof (exec_wf _ _ _ _ Hwf Hex) as Hwf1.
  pose proof (exec_log_grows _ _ _ _ Hwf Hex) as Hg.
  assert (Hg1 : log_grows s1 s').
  { clear -Hwf1 Hrun. revert s1 Hwf1 Hrun.
    induction ops as [|op' ops IH']; intros s1 Hwf1 Hrun; simpl in Hrun.
    - simplify_eq. apply log_grows_refl.
    - destruct (exec op' s1) as [[st2 s2]|] eqn:Hex2; [|done].
      eapply log_grows_trans; [by eapply exec_log_grows|].
      eapply IH'; [|done]. by eapply exec_wf. }
  destruct (exec_dirty _ _ _ _ _ _ _ Hwf Hh Hex) as [Hh1|[Hw| ->]].
  - destruct (IH _ _ _ _ _ Hwf1 Hh1 Hrun) as [?|[Hw|Hin]]; [by left| |].
    + right; left. by eapply grows_then_written.
    + right; right. by right.
  - right; left. by eapply written_then_grows.
  - right; right. by left.
Qed.

(** ** [unPinPage] *)

(** C5, as the code has it: [unPinPage] returns HASHNOTFOUND when the page is
    not resident and PAGENOTPINNED when the frame has [pinCnt = 0], and
    leaves the whole state as it was in both cases; otherwise it decrements
    [pinCnt] and sets [dirty] when the caller passes [dirty = true].  No
    call of [unPinPage] clears a dirty bit.  Once a resident page has been
    unpinned dirty, its frame stays valid and dirty with that page through
    every sequence of calls, until the file has accepted a write of the
    page or [disposePage] has been called for it ([disposePage] clears the
    frame without writing it). *)
Theorem unPinPage_contract f p b s :
  (hashTable s !! (f, p) = None → unPinPage f p b s = (HASHNOTFOUND, s))
  ∧ (∀ i, hashTable s !! (f, p) = Some i → pinCnt (desc_at s i) = 0 →
       unPinPage f p b s = (PAGENOTPINNED, s))
  ∧ (∀ i, hashTable s !! (f, p) = Some i → pinCnt (desc_at s i) ≠ 0 →
       unPinPage f p b s
       = (OK, upd_desc i
                (λ d, set_pinCnt (pinCnt d - 1)
                        (if b then set_dirty true d else d)) s))
  ∧ (∀ j d, bufTable s !! j = Some d → dirty d = true →
       ∃ d', bufTable (unPinPage f p b s).2 !! j = Some d' ∧ dirty d' = true)
  ∧ (∀ s1, wf s → b = true → unPinPage f p b s = (OK, s1) →
       ∃ i, hashTable s !! (f, p) = Some i
         ∧ holds_dirty s1 i f p
         ∧ ∀ ops s', run ops s1 = Some s' →
             holds_dirty s' i f p
             ∨ written_since s1 s' f p
             ∨ OpDisposePage f p ∈ ops).
Proof.
  unfold unPinPage, BufHashTbl.lookup. repeat split.
  - by intros ->.
  - intros i -> Hz. by case_decide.
  - intros i -> Hnz. by case_decide.
  - intros j d Hd Hdirty.
    destruct (hashTable s !! (f, p)) as [i|]; [|by exists d].
    case_decide; [by exists d|]. cbn [snd].
    destruct (decide (i = j)) as [->|Hne].
    + rewrite lookup_upd_desc_eq, Hd. eexists. split; [done|].
      simpl. by destruct b.
    + rewrite lookup_upd_desc_ne by done. by exists d.
  - intros s1 Hwf -> Hrun.
    destruct (hashTable s !! (f, p)) as [i|] eqn:Hht; [|by simplify_eq].
    case_decide; simplify_eq.
    destruct (proj2 (proj2 Hwf) _ _ _ Hht) as (d & Hd & Hv & Hf & Hp).
    exists i. split; [done|].
    assert (Hh : holds_dirty
              (upd_desc i (λ d, set_pinCnt (pinCnt d - 1) (set_dirty true d)) s)
              i (file d) (pageNo d)).
    { eexists. rewrite lookup_upd_desc_eq, Hd. by repeat split. }
    rewrite Hf, Hp in Hh.
    split; [done|]. intros ops s' Hops.
    eapply run_dirty; [|exact Hh|exact Hops].
    apply wf_upd_desc_ident; [|done]. by intros x.
Qed.

Lemma unPinPage_contract_witness :
  let s := Scenario.after [OpReadPage 1 0] (new 2 Scenario.disk4) in
  let s1 := (unPinPage 1 0 true s).2 in
  let ops := [OpReadPage 1 1; OpUnPinPage 1 1 false; OpReadPage 1 2] in
  wf s ∧ unPinPage 1 0 true s = (OK, s1)
  ∧ ∃ i, hashTable s !! (1%N, 0) = Some i
      ∧ holds_dirty s1 i 1 0
      ∧ (holds_dirty (Scenario.after ops s1) i 1 0
         ∨ written_since s1 (Scenario.after ops s1) 1 0
         ∨ OpDisposePage 1 0 ∈ ops).
Proof.
  intros s s1 ops.
  assert (Hwf : wf s).
  { apply (run_wf [OpReadPage 1 0] (new 2 Scenario.disk4));
      [apply wf_new|vm_compute; reflexivity]. }
  assert (Hrun : unPinPage 1 0 true s = (OK, s1)) by (vm_compute; reflexivity).
  assert (Hops : run ops s1 = Some (Scenario.after ops s1))
    by (vm_compute; reflexivity).
  split; [exact Hwf|]. split; [exact Hrun|].
  destruct (proj2 (proj2 (proj2 (proj2 (unPinPage_contract 1 0 true s))))
              s1 Hwf eq_refl Hrun) as (i & Hi & Hh & Hfate).
  exists i. split; [exact Hi|]. split; [exact Hh|].
  exact (Hfate ops _ Hops).
Defined.

(** C5 as stated fails at [disposePage]: page 0 of file 1 is read and
    unpinned dirty, so that frame 0 holds it valid and dirty; after
    [disposePage] the frame is no longer dirty, and the file has seen no
    write of the page. *)
Lemma dirty_frame_disposed_unwritten :
  let s := Scenario.after [OpReadPage 1 0; OpUnPinPage 1 0 true]
             (new 2 Scenario.disk4) in
  let s' := Scenario.after_call (OpDisposePage 1 0) s in
  holds_dirty s 0 1 0
  ∧ exec (OpDisposePage 1 0) s = Some (OK, s')
  ∧ dirty (desc_at s' 0) = false
  ∧ Forall (λ e, ¬ FileStore.wrote 1 0 e) (FileStore.log (disk s')).
Proof.
  intros s s'. split; [|split; [|split]].
  - exists (desc_at s 0). vm_compute. by repeat split.
  - vm_compute. reflexivity.
  - vm_compute. reflexivity.
  - vm_compute. repeat constructor; intros [pg H]; discriminate.
Qed.

(** ** A failure is never reported as OK *)

Lemma allocBuf_last_Fail s e s' : allocBuf_last s = (Fail e, s') → e ≠ OK.
Proof.
  unfold allocBuf_last, BufHashTbl.remove. intros H.
  repeat case_match; simplify_eq; done.
Qed.

Lemma allocBuf_loop_Fail fuel : ∀ np s e s',
  allocBuf_loop fuel np s = Some (Fail e, s') → e ≠ OK.
Proof.
  induction fuel as [|fuel IH]; intros np s e s' Hrun; [done|].
  rewrite allocBuf_loop_S in Hrun. cbv zeta in Hrun.
  repeat case_match; simplify_eq; eauto using allocBuf_last_Fail.
Qed.

Lemma file_readPage_Fail f n d e d' :
  FileStore.readPage f n d = (Fail e, d') → e ≠ OK.
Proof.
  unfold FileStore.readPage. intros H.
  repeat case_match; simplify_eq; done.
Qed.

Lemma readPage_Fail f p s e s' : readPage f p s = Some (Fail e, s') → e ≠ OK.
Proof.
  unfold readPage, BufHashTbl.lookup, BufHashTbl.insert. intros H.
  destruct (hashTable s !! (f, p)); [done|].
  destruct (allocBuf s) as [[[frame|e1] s1]|] eqn:Halloc; [| |done].
  - destruct (FileStore.readPage f p (disk s1)) as [[pg|e2] dk] eqn:Hrd.
    + repeat case_match; simplify_eq; done.
    + destruct disposePage. simplify_eq. by eapply file_readPage_Fail.
  - simplify_eq. by eapply allocBuf_loop_Fail.
Qed.

End BufMgrFacts.

(** * Properties of heap files and scans *)

Module HeapFacts.
Import BufMgr BufInv BufMgrFacts HeapInv.

(** ** [startScan] and the predicate *)

(** C10: [startScan] with a null filter returns OK whatever the other
    parameters are, validates nothing, and leaves the handle as it was but
    for [filter = NULL]; every later [matchRec] is then true.  With a
    non-null filter the parameters are validated: BADSCANPARM when they are
    not acceptable, and the predicate is stored otherwise.  BADSCANPARM is
    never returned for a null filter. *)
Theorem startScan_null_filter offset_ length_ type_ op_ h :
  Heap.startScan offset_ length_ type_ None op_ h = (OK, Heap.set_filter None h)
  ∧ (∀ float_diff rec,
       Heap.matchRec float_diff
         (Heap.startScan offset_ length_ type_ None op_ h).2 rec = true)
  ∧ (∀ fl, Heap.startScan offset_ length_ type_ (Some fl) op_ h
           = if HeapInv.valid_params offset_ length_ type_ op_
             then (OK, Heap.set_predicate offset_ length_ type_ fl op_ h)
             else (BADSCANPARM, h))
  ∧ (∀ filter_, (Heap.startScan offset_ length_ type_ filter_ op_ h).1 = BADSCANPARM →
       filter_ ≠ None).
Proof.
  repeat split.
  - intros fl. unfold Heap.startScan, HeapInv.valid_params.
    destruct (Z.ltb_spec offset_ 0), (Z.leb_spec 0 offset_); try lia;
      destruct (Z.ltb_spec length_ 1), (Z.leb_spec 1 length_); try lia;
      destruct type_, op_; simpl; try done;
      by destruct (length_ =? 4).
  - intros [fl|]; [done|]. simpl. discriminate.
Qed.

(** ** [insertRecord] *)

Lemma insertRecord_cursor_hdrDirtyFlag h s st h' s' :
  Heap.insertRecord_cursor h s = Some (st, h', s') →
  Heap.hdrDirtyFlag h' = Heap.hdrDirtyFlag h.
Proof.
  unfold Heap.insertRecord_cursor. intros H.
  repeat case_match; by simplify_eq.
Qed.

Lemma insertRecord_newPage_hdrDirtyFlag rec c h s r h' s' :
  Heap.insertRecord_newPage rec c h s = Some (r, h', s') →
  Heap.hdrDirtyFlag h' = Heap.hdrDirtyFlag h.
Proof.
  unfold Heap.insertRecord_newPage. intros H.
  repeat case_match; by simplify_eq.
Qed.

(** No path through [insertRecord] assigns [hdrDirtyFlag]. *)
Lemma insertRecord_hdrDirtyFlag rec h s r h' s' :
  Heap.insertRecord rec h s = Some (r, h', s') →
  Heap.hdrDirtyFlag h' = Heap.hdrDirtyFlag h.
Proof.
  unfold Heap.insertRecord. intros H.
  case_match; [by simplify_eq|].
  destruct (Heap.insertRecord_cursor h s) as [[[st h1] s1]|] eqn:Hc; [|done].
  apply insertRecord_cursor_hdrDirtyFlag in Hc.
  destruct (decide (st = OK)) as [->|Hne]; [|destruct st; by simplify_eq].
  destruct (Heap.curPage h1) as [c|]; [|done].
  destruct (PageLayer.insertRecord _ _) as [[rid|e] pg].
  - by simplify_eq.
  - destruct (decide (e = NOSPACE)) as [->|Hne]; [|destruct e; by simplify_eq].
    apply insertRecord_newPage_hdrDirtyFlag in H. congruence.
Qed.

(** C7: the claim fails on the code.  [insertRecord] increments [recCnt],
    sets [curRec], marks the cursor page dirty and outputs the record id,
    but it never sets [hdrDirtyFlag]: on a freshly opened file the insert
    returns OK and the flag is still false, although the header page has
    changed.  ([deleteRecord] sets the flag after its update of [recCnt].) *)
Theorem insertRecord_misses_hdrDirtyFlag :
  (∀ rec h s r h' s',
     Heap.insertRecord rec h s = Some (r, h', s') →
     Heap.hdrDirtyFlag h' = Heap.hdrDirtyFlag h)
  ∧ match HeapScenario.opened with
    | Some (h, s) =>
        match Heap.insertRecord (HeapScenario.rec4 x01) h s with
        | Some (Done rid, h', s') =>
            Heap.hdrDirtyFlag h = false
            ∧ recCnt (Heap.hdr_of h' s') = recCnt (Heap.hdr_of h s) + 1
            ∧ Heap.curRec h' = rid
            ∧ Heap.curDirtyFlag h' = true
            ∧ Heap.hdrDirtyFlag h' = false
        | _ => False
        end
    | None => False
    end.
Proof.
  split; [apply insertRecord_hdrDirtyFlag|].
  vm_compute. by repeat split.
Qed.

(** ** [scanNext] *)

(** C6: the claim fails on the code when the scan starts without a cursor
    page.  Three records are inserted into a new file (slots 0, 1, 2 of
    page 2).  The scan that the constructor has positioned returns the
    three record ids and then FILEEOF on every call.  After [endScan] the
    cursor is null: the next [scanNext] pins the first page, sets [curRec]
    to its first record and at once asks for the record after it, so that
    the scan returns slots 1 and 2 only and never slot 0. *)
Theorem scanNext_restart_skips_first_record :
  HeapScenario.scan_twice
  = Some ([Done (mkRID 2 0); Done (mkRID 2 1); Done (mkRID 2 2);
           Fail FILEEOF; Fail FILEEOF],
          [Done (mkRID 2 1); Done (mkRID 2 2); Fail FILEEOF; Fail FILEEOF]).
Proof. vm_compute. reflexivity. Qed.

(** ** Page contents under replacement *)

Lemma content_same s s' f p :
  hashTable s' = hashTable s → bufPool s' = bufPool s →
  FileStore.store (disk s') = FileStore.store (disk s) →
  content s' f p = content s f p.
Proof. unfold content. by intros -> -> ->. Qed.

Lemma writePage_fail_store f n pg d st d' :
  FileStore.writePage f n pg d = (st, d') → st ≠ OK →
  FileStore.store d' = FileStore.store d.
Proof.
  unfold FileStore.writePage. intros H Hst.
  destruct (FileStore.fault d (FileStore.log d) (FileStore.WrReq f n pg));
    by simplify_eq.
Qed.

Lemma page_at_lookup s i : pooled s → (i < numBufs s)%nat →
  bufPool s !! i = Some (page_at s i).
Proof.
  unfold pooled, page_at. intros Hp Hi.
  destruct (lookup_lt_is_Some_2 (bufPool s) i) as [pg ->]; [lia|done].
Qed.

Lemma swept_synced f s s' : swept s s' → synced f s → synced f s'.
Proof.
  intros Hsw Hs i d' Hd' Hv Hf Hdirty Hpin.
  destruct (swept_lookup _ _ _ _ Hsw Hd') as (d & b & Hd & ->).
  destruct Hsw as (-> & _ & -> & _). by apply (Hs i d).
Qed.

Lemma swept_content f s s' p : swept s s' → content s' f p = content s f p.
Proof. intros (Hp & Hh & Hd & _). apply content_same; congruence. Qed.

(** A frame is taken over: the pages of [f] read as before. *)
Lemma evicts_synced f s i r s' :
  wf s → pooled s → (i < numBufs s)%nat → synced f s → evicts s i r s' →
  synced f s' ∧ ∀ q, content s' f q = content s f q.
Proof.
  intros Hwf Hpool Hlt Hs (Hv & _ & Hpin & dk & Hwb & _ & ->).
  pose proof (lookup_desc_at s i Hlt) as Hd.
  pose proof (page_at_lookup s i Hpool Hlt) as Hpg.
  set (d := desc_at s i) in *.
  assert (Hht : hashTable s !! (file d, pageNo d) = Some i).
  { rewrite (proj1 (proj2 Hwf) i d Hd Hv). f_equal. apply (proj1 Hwf i d Hd). }
  assert (Hstore : ∀ k, k ≠ (file d, pageNo d) →
            FileStore.store dk !! k = FileStore.store (disk s) !! k).
  { intros k Hk. destruct Hwb as [[_ ->]|[_ Hw]]; [done|].
    rewrite (writePage_OK _ _ _ _ _ Hw). by apply lookup_insert_ne. }
  assert (Hkey : FileStore.store dk !! (file d, pageNo d) = bufPool s !! i ∨ file d ≠ f).
  { destruct (decide (file d = f)) as [Hf|]; [left|by right].
    destruct Hwb as [[Hclean ->]|[_ Hw]].
    - rewrite Hf. by apply (Hs i d).
    - rewrite (writePage_OK _ _ _ _ _ Hw), lookup_insert_eq. done. }
  split.
  - intros j e' He' Hve Hfe Hde Hpe.
    apply lookup_upd_desc_Some in He' as (e & He & ->). simpl in He.
    case_decide as Hij; [done|]. simpl.
    rewrite Hstore; [by apply (Hs j e)|].
    intros Heq. apply Hij. injection Heq as Hf' Hp'.
    eapply (wf_valid_inj s i j d e); eauto. congruence.
  - intros q. unfold content. simpl.
    destruct (decide ((f, q) = (file d, pageNo d))) as [Heq|Hne].
    + rewrite Heq, lookup_delete_eq, Hht.
      destruct Hkey as [?|Hf]; [done|]. by injection Heq as -> _.
    + rewrite lookup_delete_ne by done. by rewrite Hstore.
Qed.

Lemma allocBuf_synced f s r s' :
  wf s → pooled s → synced f s → allocBuf s = Some (r, s') →
  synced f s' ∧ ∀ q, content s' f q = content s f q.
Proof.
  intros Hwf Hpool Hs Hrun.
  destruct (allocBuf_spec _ _ _ Hwf Hrun) as (s1 & Hsw & Hwf1 & Hcase).
  pose proof (swept_synced f _ _ Hsw Hs) as Hs1.
  assert (Hc1 : ∀ q, content s1 f q = content s f q)
    by (intros q; by apply swept_content).
  assert (Hpool1 : pooled s1).
  { unfold pooled. rewrite (swept_numBufs _ _ Hsw).
    destruct Hsw as (-> & _). done. }
  destruct Hcase as [[_ ->]|(i & Hlt & [H|[H|H]])]; [done|..].
  - destruct H as (Hv & _ & ->). split.
    + intros j e' He' Hve Hfe Hde Hpe.
      apply lookup_upd_desc_Some in He' as (e & He & ->).
      case_decide; [done|]. by apply (Hs1 j e).
    + intros q. rewrite <- Hc1. by apply content_same.
  - destruct (evicts_synced f s1 i r s' Hwf1 Hpool1 Hlt Hs1 H) as [? Hc].
    split; [done|]. intros q. by rewrite Hc.
  - destruct H as (_ & _ & st & dk & Hst & Hw & _ & ->).
    pose proof (writePage_fail_store _ _ _ _ _ _ Hw Hst) as Hstore.
    split.
    + intros j e He Hve Hfe Hde Hpe. simpl. rewrite Hstore. by apply (Hs1 j e).
    + intros q. rewrite <- Hc1. by apply content_same.
Qed.

(** The page that a frame holds is the content of that page. *)
Lemma holds_content s c f p b :
  wf s → holds s c f p b → content s f p = bufPool s !! c.
Proof.
  intros Hwf (d & Hd & Hv & Hf & Hp & _). unfold content.
  pose proof (proj1 (proj2 Hwf) c d Hd Hv) as Hht.
  rewrite Hf, Hp, (proj1 Hwf c d Hd) in Hht. by rewrite Hht.
Qed.

Lemma holds_page_at s c f p b :
  wf s → holds s c f p b → page_at s c = default blankPage (content s f p).
Proof. intros Hwf Hh. unfold page_at. by rewrite (holds_content _ _ _ _ _ Hwf Hh). Qed.

(** [readPage] for a scan: the pages of the file read as before, and the
    frame handed out holds the page. *)
Lemma readPage_scan f p s frame s' :
  wf s → pooled s → synced f s →
  readPage f p s = Some (Done frame, s') →
  wf s' ∧ pooled s' ∧ synced f s'
  ∧ (∀ q, content s' f q = content s f q)
  ∧ holds s' frame f p false.
Proof.
  intros Hwf Hpool Hs Hrun.
  pose proof (readPage_wf _ _ _ _ _ Hwf Hrun) as Hwf'.
  assert (Hpool' : pooled s').
  { apply (exec_pooled (OpReadPage f p) s OK s' Hwf Hpool). simpl. by rewrite Hrun. }
  split; [done|]. split; [done|].
  unfold readPage, BufHashTbl.lookup in Hrun.
  destruct (hashTable s !! (f, p)) as [i|] eqn:Hht.
  - (* hit *)
    simplify_eq.
    destruct (proj2 (proj2 Hwf) f p frame Hht) as (d & Hd & Hv & Hf & Hp).
    split; [|split].
    + intros j e' He' Hve Hfe Hde Hpe.
      apply lookup_upd_desc_Some in He' as (e & He & ->).
      case_decide; [subst j|by apply (Hs j e)].
      simpl in *. apply (Hs frame e); try done. lia.
    + intros q. by apply content_same.
    + eexists. rewrite lookup_upd_desc_eq, Hd. split; [done|]. simpl.
      repeat split; [done..|]. intros Hdirty _ Hpin.
      rewrite <- Hp. apply (Hs frame d); try done. lia.
  - (* miss *)
    destruct (allocBuf s) as [[[frame1|st] s1]|] eqn:Halloc; [|done..].
    pose proof (allocBuf_wf _ _ _ Hwf Halloc) as Hwf1.
    pose proof (allocBuf_absent _ _ _ (f, p) Hwf Halloc Hht) as Hht1.
    destruct (allocBuf_Done _ _ _ Hwf Halloc) as (Hlt & Hnb & Hd & Hv).
    destruct (allocBuf_frames _ _ _ Hwf Halloc) as (Hpl & _).
    destruct (allocBuf_synced f _ _ _ Hwf Hpool Hs Halloc) as (Hs1 & Hc1).
    destruct FileStore.readPage as [[pg|st] dk] eqn:Hread.
    2:{ destruct disposePage. by simplify_eq. }
    apply readPage_Done in Hread as (Hstore & Hsame & _).
    unfold BufHashTbl.insert in Hrun. simpl in Hrun. rewrite Hht1 in Hrun.
    simplify_eq.
    assert (Hfr : (frame < length (bufPool s1))%nat).
    { rewrite Hpl. unfold pooled in Hpool. lia. }
    split; [|split].
    + intros j e' He' Hve Hfe Hde Hpe.
      apply lookup_upd_desc_Some in He' as (e & He & ->). simpl in He.
      case_decide as Hj; [done|]. simpl.
      rewrite Hsame, list_lookup_insert_ne by done. by apply (Hs1 j e).
    + intros q. rewrite <- Hc1. unfold content. simpl. rewrite Hsame.
      destruct (decide ((f, p) = (f, q))) as [Heq|Hne].
      * injection Heq as <-. rewrite lookup_insert_eq, Hht1, Hstore.
        by apply list_lookup_insert_eq.
      * rewrite lookup_insert_ne by done.
        destruct (hashTable s1 !! (f, q)) as [j|] eqn:Hj; [|done].
        apply list_lookup_insert_ne. intros <-.
        destruct (proj2 (proj2 Hwf1) _ _ _ Hj) as (e & He & Hve & _).
        rewrite (desc_at_lookup _ _ _ He) in Hv. congruence.
    + eexists. rewrite lookup_upd_desc_eq. simpl. rewrite Hd. split; [done|].
      simpl. repeat split; [done..|]. intros _ _ _.
      rewrite Hsame, Hstore. symmetry. by apply list_lookup_insert_eq.
Qed.

(** [unPinPage] on the page that the scan holds. *)
Lemma unPinPage_scan f p b s c s' :
  wf s → pooled s → synced f s → holds s c f p b →
  unPinPage f p b s = (OK, s') →
  wf s' ∧ pooled s' ∧ synced f s' ∧ ∀ q, content s' f q = content s f q.
Proof.
  intros Hwf Hpool Hs Hh Hrun.
  pose proof (unPinPage_wf f p b s Hwf) as Hwf'.
  pose proof (unPinPage_frames f p b s) as [Hfp Hfn].
  rewrite Hrun in Hwf', Hfp, Hfn. cbn [snd] in *.
  split; [done|]. split; [unfold pooled in *; congruence|].
  destruct Hh as (d & Hd & Hv & Hf & Hp & Hsync).
  pose proof (proj1 (proj2 Hwf) c d Hd Hv) as Hht.
  rewrite Hf, Hp, (proj1 Hwf c d Hd) in Hht.
  unfold unPinPage, BufHashTbl.lookup in Hrun. rewrite Hht in Hrun.
  case_decide; simplify_eq. split.
  - intros j e' He' Hve Hfe Hde Hpe.
    apply lookup_upd_desc_Some in He' as (e & He & ->).
    case_decide; [subst j|by apply (Hs j e)].
    simplify_eq. simpl in *.
    destruct b; simpl in *; [done|]. apply Hsync; [done..|lia].
  - intros q. by apply content_same.
Qed.

(** ** One iteration of the scan *)

Section Scan.
Variable float_diff : list byte → list byte → Heap.Diff.

Lemma scanNext_loop_S fuel h s :
  Heap.scanNext_loop float_diff (S fuel) h s =
    match scan_step float_diff h s with
    | Stop r h s => Some (r, h, s)
    | Again h s => Heap.scanNext_loop float_diff fuel h s
    | Stuck => None
    end.
Proof.
  cbn [Heap.scanNext_loop]. unfold scan_step, scan_check.
  repeat case_match; simplify_eq; done.
Qed.

Lemma matchRec_same_scan h h' rec :
  same_scan h h' → Heap.matchRec float_diff h' rec = Heap.matchRec float_diff h rec.
Proof.
  intros (_ & Ho & Hl & Ht & Hf & Hop). unfold Heap.matchRec.
  by rewrite Ho, Hl, Ht, Hf, Hop.
Qed.

Lemma same_scan_refl h : same_scan h h.
Proof. by repeat split. Qed.

Lemma same_scan_trans h1 h2 h3 : same_scan h1 h2 → same_scan h2 h3 → same_scan h1 h3.
Proof. unfold same_scan. intros (?&?&?&?&?&?) (?&?&?&?&?&?). repeat split; congruence. Qed.

Lemma same_mark_trans h1 h2 h3 : same_mark h1 h2 → same_mark h2 h3 → same_mark h1 h3.
Proof. unfold same_mark. intros (?&?) (?&?). split; congruence. Qed.



(** ** The scan over page contents *)





Lemma step_post_trans h1 s1 h2 s2 h3 s3 :
  step_post h1 s1 h2 s2 → step_post h2 s2 h3 s3 → step_post h1 s1 h3 s3.
Proof.
  intros (_ & Hs12 & Hm12 & Hc12) (Hinv & Hs23 & Hm23 & Hc23).
  split; [done|]. split; [by eapply same_scan_trans|].
  split; [by eapply same_mark_trans|].
  intros p. rewrite <- Hc12. rewrite <- (proj1 Hs12). apply Hc23.
Qed.






End Scan.

(** The handle and the pool of the scenario are those that the constructor
    of a scan produces. *)
Lemma chain_scan_opened :
  Heap.openScan 1 1 HeapScenario.raw_handle (new 3 HeapScenario.chain_disk)
  = Some (OK, HeapScenario.chain_scan, HeapScenario.chain_pool).
Proof. vm_compute. reflexivity. Qed.

Lemma chain_scan_inv : scan_inv HeapScenario.chain_scan HeapScenario.chain_pool.
Proof.
  assert (Hinv : wf HeapScenario.chain_pool ∧ pooled HeapScenario.chain_pool
                 ∧ pins_ok HeapScenario.chain_pool).
  { apply (run_invariants [OpReadPage 1 1; OpReadPage 1 2]
             (new 3 HeapScenario.chain_disk));
      [apply wf_new|apply pooled_new| |vm_compute; reflexivity].
    intros i d Hd. vm_compute in Hd.
    destruct i as [|[|[|i]]]; simplify_eq; done. }
  destruct Hinv as (Hwf & Hpool & _).
  split; [exact Hwf|]. split; [exact Hpool|]. split.
  - intros i d Hd. vm_compute in Hd.
    destruct i as [|[|[|i]]]; simplify_eq; simpl; intros; (done || lia).
  - exists 1%nat. split; [reflexivity|].
    exists (desc_at HeapScenario.chain_pool 1).
    split; [vm_compute; reflexivity|].
    repeat split; intros; vm_compute; reflexivity.
Qed.



End HeapFacts.

(** * Further properties of the buffer manager *)

Module BufMgrProps.
Import BufMgr BufInv BufMgrFacts PoolUse.

Lemma allocBuf_last_not_exceeded s r s' :
  allocBuf_last s = (r, s') → r ≠ Fail BUFFEREXCEEDED.
Proof.
  unfold allocBuf_last, BufHashTbl.remove. intros H.
  repeat (case_match; simplify_eq); try done.
Qed.

Lemma takeable_set_refbit d : takeable d → takeable (set_refbit false d).
Proof. intros [H | [H1 H2]]; [left | right]; done. Qed.

Lemma allocBuf_loop_finds fuel : ∀ np s j d k r s',
  bufTable s !! j = Some d → takeable d →
  (1 ≤ k)%nat → (np + k ≤ numBufs s)%nat →
  ((clockHand s + k) `mod` numBufs s)%nat = j →
  allocBuf_loop fuel np s = Some (r, s') →
  r ≠ Fail BUFFEREXCEEDED.
Proof.
  induction fuel as [|fuel IH]; intros np s j d k r s' Hj Ht Hk Hnp Hmod Hrun;
    [discriminate|].
  rewrite allocBuf_loop_S in Hrun.
  case_decide; [lia|]. cbv zeta in Hrun.
  set (s0 := advanceClock s) in *.
  assert (Hn0 : numBufs s0 = numBufs s) by done.
  assert (Hj0 : bufTable s0 !! j = Some d) by done.
  assert (Hone : k = 1%nat → desc_at s0 (clockHand s0) = d).
  { intros ->. apply desc_at_lookup. cbn. by rewrite Hmod. }
  assert (Hmod0 : ((clockHand s0 + (k - 1)) `mod` numBufs s)%nat = j).
  { cbn. rewrite Nat.Div0.add_mod_idemp_l. rewrite <- Hmod. f_equal. lia. }
  destruct (valid (desc_at s0 (clockHand s0))
            && refbit (desc_at s0 (clockHand s0))) eqn:E1.
  - apply andb_prop in E1 as [Ev Er].
    assert (k ≠ 1%nat).
    { intros Hk1. rewrite (Hone Hk1) in Ev, Er.
      destruct Ht as [? | [? ?]]; congruence. }
    destruct (decide (clockHand s0 = j)) as [Heq | Hne].
    + eapply (IH np _ j (set_refbit false d) (k - 1)%nat); [| | | | |exact Hrun].
      * rewrite Heq, lookup_upd_desc_eq, Hj0. done.
      * by apply takeable_set_refbit.
      * lia.
      * rewrite numBufs_upd_desc. lia.
      * rewrite numBufs_upd_desc. exact Hmod0.
    + eapply (IH np _ j d (k - 1)%nat); [| | | | |exact Hrun].
      * by rewrite lookup_upd_desc_ne.
      * done.
      * lia.
      * rewrite numBufs_upd_desc. lia.
      * rewrite numBufs_upd_desc. exact Hmod0.
  - destruct (valid (desc_at s0 (clockHand s0))
              && (0 <? pinCnt (desc_at s0 (clockHand s0)))) eqn:E2.
    + apply andb_prop in E2 as [Ev Ep]. apply Z.ltb_lt in Ep.
      assert (k ≠ 1%nat).
      { intros Hk1. rewrite (Hone Hk1) in Ev, Ep.
        destruct Ht as [? | [? ?]]; [congruence | lia]. }
      eapply (IH (S np) _ j d (k - 1)%nat); [| | | | |exact Hrun];
        [done | done | lia | lia | exact Hmod0].
    + simplify_eq. by eapply allocBuf_last_not_exceeded.
Qed.

Lemma clock_distance n h j :
  (j < n)%nat → ∃ k, (1 ≤ k ≤ n)%nat ∧ ((h + k) `mod` n)%nat = j.
Proof.
  intros Hj. set (h0 := (h `mod` n)%nat).
  assert (h0 < n)%nat by (apply Nat.mod_upper_bound; lia).
  destruct (decide (h0 < j)%nat).
  - exists (j - h0)%nat. split; [lia|].
    rewrite <- Nat.Div0.add_mod_idemp_l. fold h0.
    replace (h0 + (j - h0))%nat with j by lia. by apply Nat.mod_small.
  - exists (j + n - h0)%nat. split; [lia|].
    rewrite <- Nat.Div0.add_mod_idemp_l. fold h0.
    replace (h0 + (j + n - h0))%nat with (j + 1 * n)%nat by lia.
    rewrite Nat.Div0.mod_add. by apply Nat.mod_small.
Qed.

Lemma allocBuf_pinned_kept s r s' j d :
  wf s → allocBuf s = Some (r, s') →
  bufTable s !! j = Some d → valid d = true → 0 < pinCnt d →
  r ≠ Done j
  ∧ (∃ b, bufTable s' !! j = Some (set_refbit b d))
  ∧ bufPool s' = bufPool s
  ∧ hashTable s' !! (file d, pageNo d) = Some j.
Proof.
  intros Hwf Ha Hj Hv Hp.
  destruct (allocBuf_frames _ _ _ Hwf Ha) as [Hpool _].
  destruct (allocBuf_spec _ _ _ Hwf Ha) as (s1 & Hsw & Hwf1 & Hc).
  destruct (swept_lookup_l _ _ _ _ Hsw Hj) as [b Hj1].
  pose proof (desc_at_lookup _ _ _ Hj1) as Hd1.
  assert (Hidx : hashTable s1 !! (file d, pageNo d) = Some j).
  { destruct Hsw as (_ & -> & _). destruct Hwf as (Hn & Hic & _).
    rewrite (Hic _ _ Hj Hv). f_equal. by apply Hn. }
  destruct Hc as [[-> ->] | (i & Hi & [Ht | [He | Hf]])].
  - repeat split; eauto.
  - destruct Ht as (Hiv & -> & ->).
    assert (i ≠ j) by (intros ->; rewrite Hd1 in Hiv; cbn in Hiv; congruence).
    repeat split; [congruence| |done|done].
    exists b. by rewrite lookup_upd_desc_ne.
  - destruct He as (Hiv & _ & Hip & dk & _ & -> & ->).
    assert (i ≠ j) by (intros ->; rewrite Hd1 in Hip; cbn in Hip; lia).
    repeat split; [congruence| |done|].
    + exists b. by rewrite lookup_upd_desc_ne.
    + cbn. rewrite lookup_delete_ne; [done|].
      intros Heq. apply H.
      eapply (wf_valid_inj s1 i j); eauto using desc_at_valid_lookup; cbn; congruence.
  - destruct Hf as (_ & _ & st & dk & _ & _ & -> & ->).
    repeat split; eauto.
Qed.

(** X1.  [allocBuf] never hands out a frame that is valid and pinned: such
    a frame keeps its descriptor (up to the reference bit), its content and
    its entry in the residency index, whatever the call returns. *)
Theorem allocBuf_spares_pinned s r s' j d :
  wf s → allocBuf s = Some (r, s') →
  bufTable s !! j = Some d → valid d = true → 0 < pinCnt d →
  r ≠ Done j
  ∧ (∃ b, bufTable s' !! j = Some (set_refbit b d))
  ∧ bufPool s' = bufPool s
  ∧ hashTable s' !! (file d, pageNo d) = Some j.
Proof. apply allocBuf_pinned_kept. Qed.

Lemma all_pinned_exceeded s :
  all_pinned s →
  ∃ s', allocBuf s = Some (Fail BUFFEREXCEEDED, s') ∧ swept s s'.
Proof.
  intros Hall. destruct (allocBuf_total s) as [[r s'] Ha].
  destruct (allocBuf_cases _ _ _ Ha) as [[-> Hsw]|(s1 & Hsw & Hlt & Hc & _)];
    [by exists s'|].
  exfalso.
  pose proof (lookup_desc_at _ _ Hlt) as Hd.
  destruct (swept_lookup _ _ _ _ Hsw Hd) as (d & b & Hd0 & Heq).
  unfold all_pinned in Hall. rewrite Forall_lookup in Hall.
  destruct (Hall _ _ Hd0) as [Hv Hp].
  rewrite Heq in Hc. cbn in Hc. destruct Hc as [?|(_ & _ & ?)]; [congruence|lia].
Qed.

(** X2.  When every frame holds a pinned page, [allocBuf] returns
    BUFFEREXCEEDED having changed nothing but reference bits and the clock
    hand, and so does [readPage] for every page that is not resident. *)
Theorem allocBuf_all_pinned s :
  all_pinned s →
  ∃ s', allocBuf s = Some (Fail BUFFEREXCEEDED, s') ∧ swept s s'
    ∧ ∀ f p, hashTable s !! (f, p) = None →
        readPage f p s = Some (Fail BUFFEREXCEEDED, s').
Proof.
  intros Hall. destruct (all_pinned_exceeded _ Hall) as (s' & Ha & Hsw).
  exists s'. split; [done|]. split; [done|]. intros f p Hnone.
  unfold readPage, BufHashTbl.lookup. by rewrite Hnone, Ha.
Qed.

Lemma allocBuf_all_pinned_witness :
  let s := Scenario.after [OpReadPage 1 0; OpReadPage 1 1] (new 2 Scenario.disk4) in
  all_pinned s
  ∧ ∃ s', allocBuf s = Some (Fail BUFFEREXCEEDED, s') ∧ swept s s'
      ∧ ∀ f p, hashTable s !! (f, p) = None →
          readPage f p s = Some (Fail BUFFEREXCEEDED, s').
Proof.
  intros s.
  assert (Hall : all_pinned s) by (vm_compute; repeat constructor).
  split; [exact Hall|]. exact (allocBuf_all_pinned s Hall).
Defined.

(** X3.  A frame that is invalid, or unpinned with its reference bit
    clear, rules out BUFFEREXCEEDED: the clock hand reaches it before the
    count of pinned frames can reach [numBufs].  With a coherent index the
    call then returns a frame, or UNIXERR when a write-back fails. *)
Theorem allocBuf_free_frame s j d r s' :
  bufTable s !! j = Some d → takeable d →
  allocBuf s = Some (r, s') →
  r ≠ Fail BUFFEREXCEEDED
  ∧ (wf s → (∃ i, r = Done i) ∨ r = Fail UNIXERR).
Proof.
  intros Hj Ht Ha.
  assert (Hne : r ≠ Fail BUFFEREXCEEDED).
  { destruct (clock_distance (numBufs s) (clockHand s) j) as (k & Hk & Hmod).
    { by eapply lookup_lt_Some. }
    eapply (allocBuf_loop_finds _ 0%nat s j d k); eauto; lia. }
  split; [exact Hne|]. intros Hwf.
  destruct (allocBuf_spec _ _ _ Hwf Ha) as (s1 & _ & _ & Hc).
  destruct Hc as [[-> _] | (i & _ & [Hc | [Hc | Hc]])]; [done| | |].
  - left. exists i. apply Hc.
  - left. exists i. destruct Hc as (_ & _ & _ & dk & _ & -> & _). done.
  - right. destruct Hc as (_ & _ & st & dk & _ & _ & -> & _). done.
Qed.

Lemma allocBuf_free_frame_witness :
  let s := Scenario.after [OpReadPage 1 0] (new 2 Scenario.disk4) in
  let s' := Scenario.after_call OpAllocBuf s in
  bufTable s !! 1%nat = Some (mkDesc NULL 0 1 0 false false false)
  ∧ takeable (mkDesc NULL 0 1 0 false false false)
  ∧ allocBuf s = Some (Done 1%nat, s')
  ∧ (Done 1%nat : Ret nat) ≠ Fail BUFFEREXCEEDED.
Proof.
  intros s s'.
  assert (Hj : bufTable s !! 1%nat = Some (mkDesc NULL 0 1 0 false false false))
    by (vm_compute; reflexivity).
  assert (Ht : takeable (mkDesc NULL 0 1 0 false false false))
    by (left; reflexivity).
  assert (Ha : allocBuf s = Some (Done 1%nat, s')) by (vm_compute; reflexivity).
  repeat (split; [assumption|]).
  exact (proj1 (allocBuf_free_frame s 1%nat _ _ s' Hj Ht Ha)).
Defined.

Lemma allocBuf_spares_pinned_witness :
  let s := Scenario.after [OpReadPage 1 0] (new 2 Scenario.disk4) in
  let s' := Scenario.after_call OpAllocBuf s in
  let d := mkDesc 1 0 0 1 false true true in
  wf s ∧ allocBuf s = Some (Done 1%nat, s')
  ∧ bufTable s !! 0%nat = Some d ∧ valid d = true ∧ 0 < pinCnt d
  ∧ hashTable s' !! (file d, pageNo d) = Some 0%nat.
Proof.
  intros s s' d.
  assert (Hwf : wf s).
  { apply (run_wf [OpReadPage 1 0] (new 2 Scenario.disk4));
      [apply wf_new|vm_compute; reflexivity]. }
  assert (Ha : allocBuf s = Some (Done 1%nat, s')) by (vm_compute; reflexivity).
  assert (Hj : bufTable s !! 0%nat = Some d) by (vm_compute; reflexivity).
  assert (Hv : valid d = true) by reflexivity.
  assert (Hp : 0 < pinCnt d) by (cbn; lia).
  repeat (split; [assumption|]).
  exact (proj2 (proj2 (proj2
           (allocBuf_spares_pinned s _ s' 0%nat d Hwf Ha Hj Hv Hp)))).
Defined.

(** What a successful [readPage] leaves at the frame it returns. *)
Lemma readPage_Done_frame f p s frame s1 :
  wf s → readPage f p s = Some (Done frame, s1) →
  hashTable s1 !! (f, p) = Some frame
  ∧ ∃ d1, bufTable s1 !! frame = Some d1
      ∧ match hashTable s !! (f, p) with
        | Some i => i = frame ∧ pinCnt d1 = pinCnt (desc_at s frame) + 1
        | None => pinCnt d1 = 1
        end.
Proof.
  intros Hwf Hrun. unfold readPage, BufHashTbl.lookup in Hrun.
  destruct (hashTable s !! (f, p)) as [i|] eqn:Hlk.
  - simplify_eq. split; [exact Hlk|].
    destruct Hwf as (_ & _ & Hsound).
    destruct (Hsound _ _ _ Hlk) as (d & Hd & _).
    exists (set_pinCnt (pinCnt d + 1) (set_refbit true d)).
    rewrite lookup_upd_desc_eq, Hd. split; [done|]. split; [done|].
    cbn. by rewrite (desc_at_lookup _ _ _ Hd).
  - destruct (allocBuf s) as [[[fr|e] s0]|] eqn:Ha; cbn beta iota in Hrun;
      [|done..].
    destruct (allocBuf_Done _ _ _ Hwf Ha) as (Hlt & _ & Hfr & _).
    pose proof (allocBuf_absent _ _ _ (f, p) Hwf Ha Hlk) as Habs.
    destruct (FileStore.readPage f p (disk s0)) as [[pg|e] dk] eqn:Hrd.
    + unfold BufHashTbl.insert in Hrun. cbn in Hrun. rewrite Habs in Hrun.
      simplify_eq. split; [cbn; by rewrite lookup_insert_eq|].
      eexists. rewrite lookup_upd_desc_eq. cbn. rewrite Hfr. cbn. done.
    + destruct (disposePage f p (set_disk dk s0)). done.
Qed.

(** X4.  Pins balance: after a successful [readPage], [unPinPage] of the
    same page returns OK and takes the pin back, so that a page that was
    resident has the pin count it had before and a page that was brought in
    is left unpinned. *)
Theorem readPage_unPinPage f p b s frame s1 :
  wf s → pins_ok s →
  readPage f p s = Some (Done frame, s1) →
  ∃ s2, unPinPage f p b s1 = (OK, s2)
    ∧ pinCnt (desc_at s2 frame) = pinCnt (desc_at s1 frame) - 1
    ∧ match hashTable s !! (f, p) with
      | Some _ => pinCnt (desc_at s2 frame) = pinCnt (desc_at s frame)
      | None => pinCnt (desc_at s2 frame) = 0
      end.
Proof.
  intros Hwf Hpins Hrun.
  destruct (readPage_Done_frame _ _ _ _ _ Hwf Hrun) as (Hidx & d1 & Hd1 & Hpin).
  pose proof (desc_at_lookup _ _ _ Hd1) as Hat.
  assert (Hpos : pinCnt d1 ≠ 0).
  { destruct (hashTable s !! (f, p)) as [i|] eqn:Hlk; [|lia].
    destruct Hpin as [-> Hpin].
    destruct Hwf as (_ & _ & Hsound).
    destruct (Hsound _ _ _ Hlk) as (d & Hd & _).
    rewrite (desc_at_lookup _ _ _ Hd) in Hpin.
    specialize (Hpins _ _ Hd). lia. }
  unfold unPinPage, BufHashTbl.lookup. rewrite Hidx, Hat.
  case_decide; [done|]. eexists. split; [done|].
  assert (Hat2 : pinCnt (desc_at (upd_desc frame
                   (λ d, set_pinCnt (pinCnt d - 1)
                           (if b then set_dirty true d else d)) s1) frame)
                 = pinCnt d1 - 1).
  { erewrite desc_at_lookup; [|by rewrite lookup_upd_desc_eq, Hd1]. done. }
  rewrite Hat2. split; [done|].
  destruct (hashTable s !! (f, p)); lia.
Qed.

Lemma readPage_unPinPage_witness :
  let s := new 2 Scenario.disk4 in
  let s1 := Scenario.after_call (OpReadPage 1 0) s in
  wf s ∧ pins_ok s ∧ readPage 1 0 s = Some (Done 0%nat, s1)
  ∧ ∃ s2, unPinPage 1 0 true s1 = (OK, s2)
      ∧ pinCnt (desc_at s2 0) = pinCnt (desc_at s1 0) - 1
      ∧ match hashTable s !! (1%N, 0) with
        | Some _ => pinCnt (desc_at s2 0) = pinCnt (desc_at s 0)
        | None => pinCnt (desc_at s2 0) = 0
        end.
Proof.
  intros s s1.
  assert (Hwf : wf s) by apply wf_new.
  assert (Hpins : pins_ok s).
  { intros i d Hd. vm_compute in Hd.
    destruct i as [|[|i]]; simplify_eq; done. }
  assert (Hrun : readPage 1 0 s = Some (Done 0%nat, s1)) by (vm_compute; reflexivity).
  repeat (split; [assumption|]).
  exact (readPage_unPinPage 1 0 true s 0%nat s1 Hwf Hpins Hrun).
Defined.

(** X5.  [disposePage] does not look at the pin count: whatever the status,
    the page is no longer resident, the frame that held it is cleared, and
    a holder of the page that still unpins it gets HASHNOTFOUND.  The status
    is that of [File::disposePage]; when it is OK the page is gone from the
    file, otherwise the file is as it was. *)
Theorem disposePage_ignores_pins f p s st s' :
  disposePage f p s = (st, s') →
  hashTable s' !! (f, p) = None
  ∧ (∀ i d, hashTable s !! (f, p) = Some i → bufTable s !! i = Some d →
       bufTable s' !! i = Some (Clear d))
  ∧ (∀ b, unPinPage f p b s' = (HASHNOTFOUND, s'))
  ∧ st = FileStore.fault (disk s) (FileStore.log (disk s)) (FileStore.DispReq f p)
  ∧ (st = OK → FileStore.store (disk s') !! (f, p) = None)
  ∧ (st ≠ OK → FileStore.store (disk s') = FileStore.store (disk s)).
Proof.
  unfold disposePage, BufHashTbl.lookup, BufHashTbl.remove, FileStore.disposePage.
  intros Hrun.
  assert (Hnone : hashTable s' !! (f, p) = None).
  { destruct (hashTable s !! (f, p)) eqn:Hlk; cbn in Hrun; rewrite ?Hlk in Hrun;
      cbn in Hrun; repeat case_match; simplify_eq; cbn;
      by rewrite ?lookup_delete_eq. }
  split; [exact Hnone|]. split.
  { intros i d Hlk Hd. rewrite Hlk in Hrun. cbn in Hrun. rewrite Hlk in Hrun.
    repeat case_match; simplify_eq; cbn; by rewrite list_lookup_alter_eq, Hd. }
  split.
  { intros b. unfold unPinPage, BufHashTbl.lookup. by rewrite Hnone. }
  destruct (hashTable s !! (f, p)) eqn:Hlk; cbn in Hrun; rewrite ?Hlk in Hrun;
    cbn in Hrun;
    destruct (FileStore.fault (disk s) (FileStore.log (disk s))
                (FileStore.DispReq f p)) eqn:Hf;
    simplify_eq; cbn; repeat split; try done; intros; by rewrite lookup_delete_eq.
Qed.

Lemma readPage_Fail_cases f p s e s' :
  wf s → readPage f p s = Some (Fail e, s') →
  hashTable s !! (f, p) = None
  ∧ hashTable s' !! (f, p) = None
  ∧ (allocBuf s = Some (Fail e, s')
     ∨ ∃ frame s1 st,
         allocBuf s = Some (Done frame, s1)
         ∧ FileStore.log (disk s')
           = FileStore.log (disk s1)
               ++ [FileStore.IO (FileStore.RdReq f p) e;
                   FileStore.IO (FileStore.DispReq f p) st]
         ∧ (st = OK → FileStore.store (disk s') !! (f, p) = None)
         ∧ bufTable s' = bufTable s1 ∧ bufPool s' = bufPool s1
         ∧ hashTable s' = hashTable s1
         ∧ valid (desc_at s' frame) = false).
Proof.
  intros Hwf Hrun. unfold readPage, BufHashTbl.lookup in Hrun.
  destruct (hashTable s !! (f, p)) as [i|] eqn:Hlk; [done|].
  split; [done|].
  destruct (allocBuf s) as [[[fr|e0] s0]|] eqn:Ha; [| |done].
  2:{ simplify_eq. split; [|by left].
      by apply (allocBuf_absent _ _ _ (f, p) Hwf Ha). }
  destruct (allocBuf_Done _ _ _ Hwf Ha) as (Hlt & _ & Hfr & Hinv).
  pose proof (allocBuf_absent _ _ _ (f, p) Hwf Ha Hlk) as Habs.
  destruct (FileStore.readPage f p (disk s0)) as [[pg|e1] dk] eqn:Hrd.
  { unfold BufHashTbl.insert in Hrun. cbn in Hrun. rewrite Habs in Hrun. done. }
  destruct (readPage_store _ _ _ _ _ Hrd) as (Hst & st0 & Hlog).
  assert (st0 = e1) as ->.
  { unfold FileStore.readPage in Hrd.
    repeat case_match; simplify_eq; cbn in Hlog;
      apply app_inv_head in Hlog; by simplify_eq. }
  destruct (disposePage f p (set_disk dk s0)) as [st s2] eqn:Hdp.
  simplify_eq.
  unfold disposePage, BufHashTbl.lookup, BufHashTbl.remove in Hdp.
  cbn in Hdp. rewrite Habs in Hdp. cbn in Hdp. rewrite Habs in Hdp. cbn in Hdp.
  destruct (FileStore.disposePage f p dk) as [st1 dk1] eqn:Hfd.
  pose proof (disposePage_log _ _ _ _ _ Hfd) as Hlog1.
  simplify_eq. cbn. split; [done|]. right. exists fr, s0, st.
  split; [done|]. split; [by rewrite Hlog1, Hlog, <- app_assoc|].
  split; [|done].
  intros ->. unfold FileStore.disposePage in Hfd.
  repeat case_match; simplify_eq; cbn; by rewrite lookup_delete_eq.
Qed.

(** X6.  A [readPage] that fails found the page not resident, and failed in
    one of two ways: in [allocBuf], with its status and final state; or in
    [File::readPage], in which case [File::disposePage] is called for the
    very page that could not be read (a page that the file then no longer
    has when that call is accepted), while the frame stays free and the
    index unchanged. *)
Theorem readPage_failure f p s e s' :
  wf s → readPage f p s = Some (Fail e, s') →
  hashTable s !! (f, p) = None
  ∧ hashTable s' !! (f, p) = None
  ∧ (allocBuf s = Some (Fail e, s')
     ∨ ∃ frame s1 st,
         allocBuf s = Some (Done frame, s1)
         ∧ FileStore.log (disk s')
           = FileStore.log (disk s1)
               ++ [FileStore.IO (FileStore.RdReq f p) e;
                   FileStore.IO (FileStore.DispReq f p) st]
         ∧ (st = OK → FileStore.store (disk s') !! (f, p) = None)
         ∧ bufTable s' = bufTable s1 ∧ bufPool s' = bufPool s1
         ∧ hashTable s' = hashTable s1
         ∧ valid (desc_at s' frame) = false).
Proof. apply readPage_Fail_cases. Qed.

Lemma readPage_failure_witness :
  let s := new 2 Scenario.disk4 in
  let s' := Scenario.after_call (OpReadPage 1 7) s in
  wf s ∧ readPage 1 7 s = Some (Fail BADPAGENO, s')
  ∧ hashTable s' !! (1%N, 7) = None.
Proof.
  intros s s'.
  assert (Hwf : wf s) by apply wf_new.
  assert (Hrun : readPage 1 7 s = Some (Fail BADPAGENO, s'))
    by (vm_compute; reflexivity).
  repeat (split; [assumption|]).
  exact (proj1 (proj2 (readPage_failure 1 7 s _ s' Hwf Hrun))).
Defined.

(** X7.  [allocPage] allocates the page in the file before it looks for a
    frame and takes nothing back: with every frame pinned it returns
    BUFFEREXCEEDED, and the file has the new page all the same. *)
Theorem allocPage_exceeded_keeps_page f s :
  all_pinned s →
  FileStore.fault (disk s) (FileStore.log (disk s)) (FileStore.AllocReq f) = OK →
  ∃ s', allocPage f s = Some (Fail BUFFEREXCEEDED, s')
    ∧ FileStore.store (disk s')
      = <[(f, FileStore.pick (disk s) (FileStore.log (disk s)) f) := blankPage]>
          (FileStore.store (disk s))
    ∧ FileStore.log (disk s')
      = FileStore.log (disk s) ++ [FileStore.IO (FileStore.AllocReq f) OK]
    ∧ hashTable s' = hashTable s ∧ bufPool s' = bufPool s.
Proof.
  intros Hall Hf. unfold allocPage, FileStore.allocatePage. rewrite Hf.
  set (dk := FileStore.record _ _ _).
  destruct (all_pinned_exceeded (set_disk dk s) Hall) as (s' & Ha & Hsw).
  rewrite Ha. exists s'. split; [done|].
  destruct Hsw as (Hpool & Hht & Hdk & _). rewrite Hdk, Hht, Hpool. done.
Qed.

Lemma allocPage_exceeded_keeps_page_witness :
  let s := Scenario.after [OpReadPage 1 0; OpReadPage 1 1] (new 2 Scenario.disk4) in
  all_pinned s
  ∧ FileStore.fault (disk s) (FileStore.log (disk s)) (FileStore.AllocReq 1) = OK
  ∧ ∃ s', allocPage 1 s = Some (Fail BUFFEREXCEEDED, s')
      ∧ FileStore.store (disk s')
        = <[(1%N, FileStore.pick (disk s) (FileStore.log (disk s)) 1) := blankPage]>
            (FileStore.store (disk s))
      ∧ FileStore.log (disk s')
        = FileStore.log (disk s) ++ [FileStore.IO (FileStore.AllocReq 1) OK]
      ∧ hashTable s' = hashTable s ∧ bufPool s' = bufPool s.
Proof.
  intros s.
  assert (Hall : all_pinned s) by (vm_compute; repeat constructor).
  assert (Hf : FileStore.fault (disk s) (FileStore.log (disk s))
                 (FileStore.AllocReq 1) = OK) by reflexivity.
  repeat (split; [assumption|]).
  exact (allocPage_exceeded_keeps_page 1 s Hall Hf).
Defined.

(** X8.  A successful [allocPage] returns the page number that the file
    handed out and a frame that holds this page pinned once, clean and
    indexed; the frame is handed out with the content it had. *)
Theorem allocPage_contract f s pageNum frame s' :
  wf s → allocPage f s = Some (Done (pageNum, frame), s') →
  pageNum = FileStore.pick (disk s) (FileStore.log (disk s)) f
  ∧ bufTable s' !! frame = Some (mkDesc f pageNum frame 1 false true true)
  ∧ hashTable s' !! (f, pageNum) = Some frame
  ∧ bufPool s' = bufPool s
  ∧ FileStore.IO (FileStore.AllocReq f) OK ∈ FileStore.log (disk s').
Proof.
  intros Hwf Hrun. unfold allocPage in Hrun.
  destruct (FileStore.allocatePage f (disk s)) as [[n|e] dk] eqn:Hal; [|done].
  assert (Hwf0 : wf (set_disk dk s)) by by apply wf_set_disk.
  destruct (allocBuf (set_disk dk s)) as [[[fr|e] s0]|] eqn:Ha; [|done..].
  destruct (allocBuf_Done _ _ _ Hwf0 Ha) as (Hlt & _ & Hfr & _).
  destruct (allocBuf_frames _ _ _ Hwf0 Ha) as [Hpool _].
  pose proof (allocBuf_wf _ _ _ Hwf0 Ha) as (Hnum & _).
  destruct (allocBuf_log_grows _ _ _ Hwf0 Ha) as [evs Hevs].
  unfold BufHashTbl.insert in Hrun.
  destruct (hashTable s0 !! (f, n)) eqn:Hlk; [done|]. simplify_eq. cbn.
  split.
  { unfold FileStore.allocatePage in Hal. repeat case_match; by simplify_eq. }
  split.
  { rewrite list_lookup_alter_eq, Hfr. cbn. unfold Set_. cbn.
    by rewrite (Hnum frame _ (lookup_desc_at _ _ Hlt)). }
  split; [by rewrite lookup_insert_eq|]. split; [done|].
  rewrite Hevs. cbn. unfold FileStore.allocatePage in Hal.
  repeat case_match; simplify_eq; cbn; set_solver.
Qed.

Lemma allocPage_contract_witness :
  let s := new 2 Scenario.disk4 in
  let s' := Scenario.after_call (OpAllocPage 1) s in
  wf s ∧ allocPage 1 s = Some (Done (4, 0%nat), s')
  ∧ bufTable s' !! 0%nat = Some (mkDesc 1 4 0 1 false true true).
Proof.
  intros s s'.
  assert (Hwf : wf s) by apply wf_new.
  assert (Hrun : allocPage 1 s = Some (Done (4, 0%nat), s'))
    by (vm_compute; reflexivity).
  repeat (split; [assumption|]).
  exact (proj1 (proj2 (allocPage_contract 1 s 4 0%nat s' Hwf Hrun))).
Defined.

Lemma disposePage_ignores_pins_witness :
  let s := Scenario.after [OpReadPage 1 0] (new 2 Scenario.disk4) in
  let s' := Scenario.after_call (OpDisposePage 1 0) s in
  0 < pinCnt (desc_at s 0)
  ∧ disposePage 1 0 s = (OK, s')
  ∧ hashTable s' !! (1%N, 0) = None
  ∧ ∀ b, unPinPage 1 0 b s' = (HASHNOTFOUND, s').
Proof.
  intros s s'.
  assert (Hp : 0 < pinCnt (desc_at s 0)) by (vm_compute; reflexivity).
  assert (Hrun : disposePage 1 0 s = (OK, s')) by (vm_compute; reflexivity).
  repeat (split; [assumption|]).
  pose proof (disposePage_ignores_pins 1 0 s OK s' Hrun) as H.
  split; [exact (proj1 H)|exact (proj1 (proj2 (proj2 H)))].
Defined.

(** ** The loop of [allocBuf] ends *)

Lemma allocBuf_loop_mono fuel : ∀ np s x fuel',
  allocBuf_loop fuel np s = Some x → (fuel ≤ fuel')%nat →
  allocBuf_loop fuel' np s = Some x.
Proof.
  induction fuel as [|fuel IH]; intros np s x fuel' Hrun Hle; [done|].
  destruct fuel' as [|fuel']; [lia|].
  rewrite allocBuf_loop_S in *. case_decide; [done|]. cbv zeta in *.
  repeat case_match; try done; eapply IH; eauto; lia.
Qed.

(** X9.  The [while (true)] loop of [allocBuf] returns after at most
    [2 * numBufs + 1] iterations, whatever the state of the pool: a bound of
    that size or more always gives a result, and always the same one. *)
Theorem allocBuf_terminates s fuel :
  (2 * numBufs s + 1 ≤ fuel)%nat →
  is_Some (allocBuf s) ∧ allocBuf_loop fuel 0 s = allocBuf s.
Proof.
  intros Hle. destruct (allocBuf_total s) as [x Hx].
  split; [by exists x|]. rewrite Hx.
  by apply (allocBuf_loop_mono (2 * numBufs s + 1)).
Qed.

Lemma allocBuf_terminates_witness :
  let s := Scenario.after [OpReadPage 1 0; OpReadPage 1 1] (new 2 Scenario.disk4) in
  (2 * numBufs s + 1 ≤ 9)%nat
  ∧ is_Some (allocBuf s) ∧ allocBuf_loop 9 0 s = allocBuf s.
Proof.
  intros s.
  assert (Hle : (2 * numBufs s + 1 ≤ 9)%nat) by (vm_compute; lia).
  split; [exact Hle|]. exact (allocBuf_terminates s 9 Hle).
Defined.

(** ** The destructor *)

Lemma destroy_loop_spec todo : ∀ s,
  ∃ dk evs,
    destroy_loop todo s = set_disk dk s
    ∧ FileStore.log dk = FileStore.log (disk s) ++ evs
    ∧ Forall2 (writes_frame s) (List.filter (unwritten_at s) todo) evs
    ∧ FileStore.fault dk = FileStore.fault (disk s)
    ∧ (∀ k, (∀ i, i ∈ todo → unwritten_at s i = true → k ≠ ident_at s i) →
         FileStore.store dk !! k = FileStore.store (disk s) !! k)
    ∧ (∀ i, i ∈ todo → unwritten_at s i = true →
         writes_accepted (file (desc_at s i)) (disk s) →
         (∀ j, j ∈ todo → j ≠ i → unwritten_at s j = true →
               ident_at s j ≠ ident_at s i) →
         FileStore.store dk !! ident_at s i = Some (page_at s i)).
Proof.
  induction todo as [|a todo IH]; intros s.
  { exists (disk s), []. rewrite set_disk_id, app_nil_r.
    split; [done|]. split; [done|]. split; [constructor|].
    split; [done|]. split; [done|].
    intros i Hi. by apply elem_of_nil in Hi. }
  cbn [destroy_loop List.filter]. cbv zeta.
  change (valid (desc_at s a) && dirty (desc_at s a)) with (unwritten_at s a).
  destruct (unwritten_at s a) eqn:Ea.
  - destruct (FileStore.writePage (file (desc_at s a)) (pageNo (desc_at s a))
                (page_at s a) (disk s)) as [st dk1] eqn:Hw.
    cbn [snd].
    destruct (writePage_log _ _ _ _ _ _ Hw) as (Hlog1 & Hfault1 & _).
    destruct (IH (set_disk dk1 s)) as (dk & evs & Heq & Hlog & HF & Hfault & Hsame & Hst).
    exists dk, (FileStore.IO (FileStore.WrReq (file (desc_at s a))
                  (pageNo (desc_at s a)) (page_at s a)) st :: evs).
    split; [exact Heq|]. split; [cbn in Hlog; by rewrite Hlog, Hlog1, <- app_assoc|].
    split; [constructor; [by exists st|exact HF]|].
    split; [cbn in Hfault; congruence|]. split.
    + intros k Hk. rewrite (Hsame k).
      * cbn. unfold FileStore.writePage in Hw.
        assert (k ≠ ident_at s a) by (apply Hk; [left|done]).
        repeat case_match; simplify_eq; cbn; try done;
          by rewrite lookup_insert_ne.
      * intros i Hi Hu. apply Hk; [by right|exact Hu].
    + intros i Hi Hu Hacc Hdiff.
      destruct (decide (i ∈ todo)) as [Hin|Hnin].
      * apply (Hst i Hin Hu).
        -- intros l n pg. cbn. rewrite Hfault1. apply Hacc.
        -- intros j Hj. apply Hdiff. by right.
      * apply elem_of_cons in Hi as [->|Hi]; [|done].
        rewrite (Hsame (ident_at s a)).
        -- cbn. unfold FileStore.writePage in Hw. rewrite Hacc in Hw.
           simplify_eq. cbn. apply lookup_insert_eq.
        -- intros j Hj Huj Hid.
           apply (Hdiff j); [by right| |exact Huj|by symmetry].
           intros ->. done.
  - destruct (IH s) as (dk & evs & Heq & Hlog & HF & Hfault & Hsame & Hst).
    exists dk, evs. repeat (split; [done|]). split.
    + intros k Hk. apply Hsame. intros i Hi. apply Hk. by right.
    + intros i Hi Hu Hacc Hdiff.
      apply elem_of_cons in Hi as [->|Hi]; [congruence|].
      apply (Hst i Hi Hu Hacc). intros j Hj. apply Hdiff. by right.
Qed.

Lemma elem_of_unwritten s i :
  i ∈ unwritten s ↔ (i < numBufs s)%nat ∧ unwritten_at s i = true.
Proof.
  unfold unwritten. rewrite list_elem_of_In, filter_In, <- list_elem_of_In.
  rewrite elem_of_seq. intuition lia.
Qed.

(** X10.  The destructor issues one write for every frame that is valid and
    dirty, pinned or not, in the order of the frames and with the content
    of the frame, and no other request.  A page that no such frame holds is
    on disk what it was; with a coherent index, a frame whose file accepts
    writes is on disk afterwards. *)
Theorem destroy_writes_dirty s :
  (∃ evs, FileStore.log (destroy s) = FileStore.log (disk s) ++ evs
     ∧ Forall2 (writes_frame s) (unwritten s) evs)
  ∧ (∀ k, (∀ i, i ∈ unwritten s → k ≠ ident_at s i) →
       FileStore.store (destroy s) !! k = FileStore.store (disk s) !! k)
  ∧ (wf s → ∀ i, i ∈ unwritten s →
       writes_accepted (file (desc_at s i)) (disk s) →
       FileStore.store (destroy s) !! ident_at s i = Some (page_at s i)).
Proof.
  unfold destroy.
  destruct (destroy_loop_spec (seq 0 (numBufs s)) s)
    as (dk & evs & -> & Hlog & HF & _ & Hsame & Hst).
  cbn [disk set_disk]. split; [by exists evs|]. split.
  - intros k Hk. apply Hsame. intros i Hi Hu. apply Hk.
    apply elem_of_unwritten. by apply elem_of_seq in Hi as [_ Hi].
  - intros Hwf i Hi Hacc. apply elem_of_unwritten in Hi as [Hi Hu].
    apply Hst; [apply elem_of_seq; lia|done|done|].
    intros j Hj Hne Huj Heq. apply Hne.
    apply andb_prop in Hu as [Hv _]. apply andb_prop in Huj as [Hvj _].
    unfold ident_at in Heq.
    eapply (wf_valid_inj s j i); eauto using desc_at_valid_lookup; congruence.
Qed.

(** ** [flushFile] a second time *)

Lemma flushFile_loop_untouched file_ todo : ∀ s,
  (∀ i, i ∈ todo → file (desc_at s i) ≠ file_) →
  flushFile_loop todo file_ s = (OK, s).
Proof.
  induction todo as [|a todo IH]; intros s Hno; [done|].
  rewrite flushFile_loop_cons. cbv zeta.
  assert (Ha : file (desc_at s a) ≠ file_) by (apply Hno; left).
  unfold stop_kind. rewrite (bool_decide_eq_false_2 _ Ha), !andb_false_r.
  apply IH. intros i Hi. apply Hno. by right.
Qed.

Lemma file_flush_frame i file_ dk s :
  file (desc_at (flush_frame i file_ dk s) i) = NULL.
Proof.
  unfold flush_frame, desc_at, upd_desc. cbn.
  rewrite list_lookup_alter_eq. by destruct (bufTable s !! i).
Qed.

Lemma flushFile_loop_files file_ todo : ∀ s s' j,
  file_ ≠ NULL →
  flushFile_loop todo file_ s = (OK, s') →
  j ∈ todo ∨ file (desc_at s j) ≠ file_ →
  file (desc_at s' j) ≠ file_.
Proof.
  induction todo as [|a todo IH]; intros s s' j Hnn Hrun Hj.
  { cbn in Hrun. simplify_eq. destruct Hj as [Hj|Hj]; [|done].
    by apply elem_of_nil in Hj. }
  rewrite flushFile_loop_cons in Hrun. cbv zeta in Hrun.
  destruct (stop_kind file_ (desc_at s a)) eqn:Hstop.
  { simplify_eq. unfold stop_kind in Hstop. repeat case_match; simplify_eq. }
  assert (Hstep : ∀ dk, flushFile_loop todo file_ (flush_frame a file_ dk s)
                        = (OK, s') → file (desc_at s' j) ≠ file_).
  { intros dk Hrun'. apply (IH _ _ j Hnn Hrun').
    destruct (decide (j = a)) as [->|Hne].
    - right. rewrite file_flush_frame. done.
    - rewrite desc_at_flush_frame_ne by done.
      destruct Hj as [Hj|Hj]; [|by right].
      apply elem_of_cons in Hj as [?|Hj]; [done|by left]. }
  destruct (valid (desc_at s a) && bool_decide (file (desc_at s a) = file_)) eqn:E.
  - destruct (dirty (desc_at s a)).
    + destruct (FileStore.writePage _ _ _ _) as [st dk].
      case_decide; [by eapply Hstep|]. simplify_eq.
    + by eapply Hstep.
  - apply (IH _ _ j Hnn Hrun).
    destruct Hj as [Hj|Hj]; [|by right].
    apply elem_of_cons in Hj as [->|Hj]; [|by left].
    right. intros Hf. unfold stop_kind in Hstop. rewrite E in Hstop.
    rewrite (bool_decide_eq_true_2 _ Hf), andb_true_r in Hstop, E.
    rewrite E in Hstop. done.
Qed.

(** X11.  [flushFile] is idempotent on success: once it has returned OK for
    a file, no descriptor names that file any more, and a second call
    returns OK, changes nothing and issues no request. *)
Theorem flushFile_twice file_ s s1 :
  file_ ≠ NULL →
  flushFile file_ s = (OK, s1) →
  (∀ i, file (desc_at s1 i) ≠ file_)
  ∧ flushFile file_ s1 = (OK, s1).
Proof.
  intros Hnn Hrun. unfold flushFile in *.
  assert (Hn : numBufs s1 = numBufs s).
  { pose proof (flushFile_loop_frames file_ (seq 0 (numBufs s)) s) as [_ H].
    by rewrite Hrun in H. }
  assert (Hall : ∀ i, file (desc_at s1 i) ≠ file_).
  { intros i. destruct (decide (i < numBufs s)%nat) as [Hi|Hi].
    - eapply flushFile_loop_files; [done|exact Hrun|]. left.
      apply elem_of_seq. lia.
    - unfold desc_at. rewrite lookup_ge_None_2; [done|].
      fold (numBufs s1). lia. }
  split; [exact Hall|]. apply flushFile_loop_untouched. intros i _. apply Hall.
Qed.

Lemma flushFile_twice_witness :
  let s := Scenario.after [OpReadPage 1 0; OpUnPinPage 1 0 true]
             (new 2 Scenario.disk4) in
  let s1 := (flushFile 1 s).2 in
  (1%N : FilePtr) ≠ NULL ∧ flushFile 1 s = (OK, s1)
  ∧ flushFile 1 s1 = (OK, s1).
Proof.
  intros s s1.
  assert (Hnn : (1%N : FilePtr) ≠ NULL) by done.
  assert (Hrun : flushFile 1 s = (OK, s1)) by (vm_compute; reflexivity).
  repeat (split; [assumption|]).
  exact (proj2 (flushFile_twice 1 s s1 Hnn Hrun)).
Defined.

(** ** What holds after any sequence of calls *)

Lemma exec_numBufs op s st s' :
  wf s → exec op s = Some (st, s') → numBufs s' = numBufs s.
Proof.
  intros Hwf Hex.
  destruct op as [f p|f|f p b|f p|f| |frame pg]; simpl in Hex.
  - destruct (readPage f p s) as [[r s1]|] eqn:Hrun; simplify_eq.
    by destruct (readPage_frames _ _ _ _ _ Hwf Hrun).
  - destruct (allocPage f s) as [[r s1]|] eqn:Hrun; simplify_eq.
    by destruct (allocPage_frames _ _ _ _ Hwf Hrun).
  - destruct (unPinPage_frames f p b s) as [_ H]. destruct unPinPage.
    by simplify_eq.
  - destruct (disposePage_frames f p s) as [_ H]. destruct disposePage.
    by simplify_eq.
  - destruct (flushFile_loop_frames f (seq 0 (numBufs s)) s) as [_ H].
    unfold flushFile in Hex. destruct flushFile_loop. by simplify_eq.
  - destruct (allocBuf s) as [[r s1]|] eqn:Hrun; simplify_eq.
    by destruct (allocBuf_frames _ _ _ Hwf Hrun).
  - by simplify_eq.
Qed.

Lemma run_numBufs ops : ∀ s s',
  wf s → run ops s = Some s' → numBufs s' = numBufs s.
Proof.
  induction ops as [|op ops IH]; intros s s' Hwf Hrun; simpl in Hrun.
  - by simplify_eq.
  - destruct (exec op s) as [[st s1]|] eqn:Hex; [|done].
    rewrite (IH _ _ (exec_wf _ _ _ _ Hwf Hex) Hrun).
    by eapply exec_numBufs.
Qed.

Lemma pins_ok_new bufs d : pins_ok (new bufs d).
Proof.
  intros i e He. cbn in He. apply list_lookup_fmap_Some in He as (k & -> & _).
  done.
Qed.

(** X12.  In every state that a new buffer manager reaches by calls of its
    member functions and by stores into frames, the frame table and the
    pool have [bufs] entries, every descriptor carries its own frame number
    and a pin count that is not negative, and no page is held by two valid
    frames. *)
Theorem reachable_invariants bufs d ops s :
  run ops (new bufs d) = Some s →
  numBufs s = bufs ∧ length (bufPool s) = bufs
  ∧ (∀ i e, bufTable s !! i = Some e → frameNo e = i ∧ 0 ≤ pinCnt e)
  ∧ (∀ i j di dj, bufTable s !! i = Some di → bufTable s !! j = Some dj →
       valid di = true → valid dj = true →
       file di = file dj → pageNo di = pageNo dj → i = j).
Proof.
  intros Hrun.
  destruct (run_invariants ops _ _ (wf_new bufs d) (pooled_new bufs d)
              (pins_ok_new bufs d) Hrun) as (Hwf & Hpool & Hpins).
  assert (Hn : numBufs s = bufs).
  { rewrite (run_numBufs _ _ _ (wf_new bufs d) Hrun).
    unfold numBufs. cbn. by rewrite length_fmap, length_seq. }
  split; [done|]. split; [by rewrite Hpool|]. split.
  - intros i e He. split; [by apply (proj1 Hwf)|by eapply Hpins].
  - intros i j di dj. by apply wf_valid_inj.
Qed.

Lemma reachable_invariants_witness :
  let s := Scenario.after Scenario.pin_unpin_calls (new 2 Scenario.disk4) in
  run Scenario.pin_unpin_calls (new 2 Scenario.disk4) = Some s
  ∧ numBufs s = 2%nat ∧ length (bufPool s) = 2%nat.
Proof.
  intros s.
  assert (Hrun : run Scenario.pin_unpin_calls (new 2 Scenario.disk4) = Some s)
    by (vm_compute; reflexivity).
  split; [exact Hrun|].
  pose proof (reachable_invariants 2 Scenario.disk4 _ s Hrun) as H.
  split; [exact (proj1 H)|exact (proj1 (proj2 H))].
Defined.

(** ** Only dirty frames are written *)

Lemma write_of_dirty_other s e :
  (∀ f n pg st, e ≠ FileStore.IO (FileStore.WrReq f n pg) st) →
  write_of_dirty s e.
Proof. intros Hne f n pg st ->. by destruct (Hne f n pg st). Qed.

Lemma write_of_dirty_frame s i st :
  valid (desc_at s i) = true → dirty (desc_at s i) = true →
  write_of_dirty s
    (FileStore.IO (FileStore.WrReq (file (desc_at s i)) (pageNo (desc_at s i))
                     (page_at s i)) st).
Proof.
  intros Hv Hd f n pg st' Heq. injection Heq as <- <- <- <-.
  exists i, (desc_at s i). by rewrite desc_at_valid_lookup.
Qed.

Lemma write_of_dirty_same s s' e :
  bufTable s' = bufTable s → bufPool s' = bufPool s →
  write_of_dirty s e → write_of_dirty s' e.
Proof.
  intros Ht Hp He f n pg st Heq.
  destruct (He f n pg st Heq) as (i & d & ?). exists i, d.
  unfold page_at. by rewrite Ht, Hp.
Qed.

Lemma write_of_dirty_swept s s1 e :
  swept s s1 → write_of_dirty s1 e → write_of_dirty s e.
Proof.
  intros Hsw He f n pg st Heq.
  destruct (He f n pg st Heq) as (i & d1 & Hd1 & Hv & Hdt & Hf & Hn & Hpg).
  destruct (swept_lookup _ _ _ _ Hsw Hd1) as (d & b & Hd & ->).
  exists i, d. destruct Hsw as (Hpool & _).
  unfold page_at in *. by rewrite <- Hpool.
Qed.

Lemma bm_disposePage_log f p s st s' :
  disposePage f p s = (st, s') →
  FileStore.log (disk s')
  = FileStore.log (disk s) ++ [FileStore.IO (FileStore.DispReq f p) st].
Proof.
  unfold disposePage.
  destruct (BufHashTbl.lookup f p (hashTable s)) as [fr|e]; cbn;
    destruct (FileStore.disposePage f p (disk s)) as [st2 dk2] eqn:Hfd;
    intros; simplify_eq; cbn; exact (disposePage_log _ _ _ _ _ Hfd).
Qed.

Lemma allocBuf_writes s r s' :
  wf s → allocBuf s = Some (r, s') →
  ∃ evs, FileStore.log (disk s') = FileStore.log (disk s) ++ evs
    ∧ Forall (write_of_dirty s) evs.
Proof.
  intros Hwf Ha.
  destruct (allocBuf_spec _ _ _ Hwf Ha) as (s1 & Hsw & Hwf1 & Hc).
  pose proof Hsw as (_ & _ & Hdk & _).
  destruct Hc as [[_ ->] | (i & Hi & [Ht | [He | Hf]])].
  - exists []. by rewrite Hdk, app_nil_r.
  - destruct Ht as (_ & _ & ->). exists []. cbn. by rewrite Hdk, app_nil_r.
  - destruct He as (Hv & _ & _ & dk & Hwb & _ & ->). cbn.
    unfold written_back in Hwb. cbv zeta in Hwb.
    destruct Hwb as [[_ ->]|[Hdt Hw]].
    + exists []. by rewrite Hdk, app_nil_r.
    + destruct (writePage_log _ _ _ _ _ _ Hw) as (-> & _). rewrite Hdk.
      eexists. split; [done|]. constructor; [|done].
      apply (write_of_dirty_swept _ _ _ Hsw). by apply write_of_dirty_frame.
  - destruct Hf as (Hv & Hdt & st & dk & _ & Hw & _ & ->). cbn.
    destruct (writePage_log _ _ _ _ _ _ Hw) as (-> & _). rewrite Hdk.
    eexists. split; [done|]. constructor; [|done].
    apply (write_of_dirty_swept _ _ _ Hsw). by apply write_of_dirty_frame.
Qed.

Lemma flushFile_loop_writes file_ todo : ∀ s0 s st s',
  NoDup todo →
  (∀ i, i ∈ todo → desc_at s i = desc_at s0 i) → bufPool s = bufPool s0 →
  flushFile_loop todo file_ s = (st, s') →
  ∃ evs, FileStore.log (disk s') = FileStore.log (disk s) ++ evs
    ∧ Forall (write_of_dirty s0) evs.
Proof.
  induction todo as [|a todo IH]; intros s0 s st s' Hnd Hsame Hpool Hrun.
  { cbn in Hrun. simplify_eq. exists []. by rewrite app_nil_r. }
  apply NoDup_cons in Hnd as [Ha Hnd].
  rewrite flushFile_loop_cons in Hrun. cbv zeta in Hrun.
  assert (Hnext : ∀ dk, ∀ i, i ∈ todo →
            desc_at (flush_frame a file_ dk s) i = desc_at s0 i).
  { intros dk i Hi. rewrite desc_at_flush_frame_ne by (intros ->; done).
    apply Hsame. by right. }
  destruct (stop_kind file_ (desc_at s a)).
  { simplify_eq. exists []. by rewrite app_nil_r. }
  destruct (valid (desc_at s a) && bool_decide (file (desc_at s a) = file_)) eqn:E.
  - apply andb_prop in E as [Hv _].
    destruct (dirty (desc_at s a)) eqn:Hdt.
    + destruct (FileStore.writePage _ _ _ _) as [st1 dk] eqn:Hw.
      destruct (writePage_log _ _ _ _ _ _ Hw) as (Hlog & _).
      assert (Hev : write_of_dirty s0
                (FileStore.IO (FileStore.WrReq (file (desc_at s a))
                                 (pageNo (desc_at s a)) (page_at s a)) st1)).
      { assert (Hd : desc_at s a = desc_at s0 a) by (apply Hsame; left).
        assert (Hp : page_at s a = page_at s0 a) by (unfold page_at; by rewrite Hpool).
        rewrite Hd, Hp. apply write_of_dirty_frame; by rewrite <- Hd. }
      case_decide.
      * destruct (IH s0 _ _ _ Hnd (Hnext dk) Hpool Hrun) as (evs & Hevs & HF).
        eexists (_ :: evs). split; [|by constructor].
        cbn in Hevs. by rewrite Hevs, Hlog, <- app_assoc.
      * simplify_eq. eexists [_]. split; [exact Hlog|]. by constructor.
    + by apply (IH s0 _ _ _ Hnd (Hnext (disk s)) Hpool Hrun).
  - eapply (IH s0 s); [exact Hnd| |exact Hpool|exact Hrun].
    intros i Hi. apply Hsame. by right.
Qed.

(** X13.  The buffer manager writes to a file only what a valid dirty frame
    holds: every [File::writePage] that a call of [readPage], [allocPage],
    [unPinPage], [disposePage], [flushFile] or [allocBuf] issues, accepted
    or not, carries the page number and the content of a frame that was
    valid and dirty for that page of that file when the call began.  A
    clean frame is never written. *)
Theorem exec_writes_only_dirty op s st s' :
  wf s → exec op s = Some (st, s') →
  ∃ evs, FileStore.log (disk s') = FileStore.log (disk s) ++ evs
    ∧ Forall (write_of_dirty s) evs.
Proof.
  intros Hwf Hex.
  destruct op as [f p|f|f p b|f p|f| |frame pg]; simpl in Hex.
  - destruct (readPage f p s) as [[r s1]|] eqn:Hrun; simplify_eq.
    unfold readPage, BufHashTbl.lookup in Hrun.
    destruct (hashTable s !! (f, p)) eqn:Hlk.
    { simplify_eq. exists []. by rewrite app_nil_r. }
    destruct (allocBuf s) as [[[fr|e] s0]|] eqn:Ha; [| |done].
    2:{ simplify_eq. by eapply allocBuf_writes. }
    destruct (allocBuf_writes _ _ _ Hwf Ha) as (evs & Hevs & HF).
    destruct (FileStore.readPage f p (disk s0)) as [[pg|e] dk] eqn:Hrd;
      destruct (readPage_store _ _ _ _ _ Hrd) as (_ & st0 & Hlog).
    + exists (evs ++ [FileStore.IO (FileStore.RdReq f p) st0]). split.
      * unfold BufHashTbl.insert in Hrun.
        destruct (hashTable (set_page fr pg (set_disk dk s0)) !! (f, p));
          simplify_eq; cbn; by rewrite Hlog, Hevs, <- app_assoc.
      * apply Forall_app. split; [done|]. constructor; [|done].
        by apply write_of_dirty_other.
    + destruct (disposePage f p (set_disk dk s0)) as [st1 s2] eqn:Hdp.
      pose proof (bm_disposePage_log _ _ _ _ _ Hdp) as Hlog2. cbn in Hlog2.
      simplify_eq.
      exists (evs ++ [FileStore.IO (FileStore.RdReq f p) st0;
                      FileStore.IO (FileStore.DispReq f p) st1]).
      split.
      * by rewrite Hlog2, Hlog, Hevs, <- !app_assoc.
      * apply Forall_app. split; [done|].
        repeat constructor; by apply write_of_dirty_other.
  - destruct (allocPage f s) as [[r s1]|] eqn:Hrun; simplify_eq.
    unfold allocPage in Hrun.
    destruct (FileStore.allocatePage f (disk s)) as [r0 dk] eqn:Hal.
    destruct (allocatePage_log _ _ _ _ Hal) as [st0 Hlog].
    destruct r0 as [n|e].
    2:{ simplify_eq. eexists [_]. split; [exact Hlog|].
        constructor; [|done]. by apply write_of_dirty_other. }
    assert (Hwf0 : wf (set_disk dk s)) by by apply wf_set_disk.
    destruct (allocBuf (set_disk dk s)) as [[r1 s0]|] eqn:Ha; [|done].
    destruct (allocBuf_writes _ _ _ Hwf0 Ha) as (evs & Hevs & HF).
    exists (FileStore.IO (FileStore.AllocReq f) st0 :: evs). split.
    + cbn in Hevs. rewrite Hlog, <- app_assoc in Hevs.
      destruct r1; [|by simplify_eq].
      unfold BufHashTbl.insert in Hrun.
      destruct (hashTable s0 !! (f, n)); by simplify_eq.
    + constructor; [by apply write_of_dirty_other|].
      eapply Forall_impl; [exact HF|]. intros e.
      by apply write_of_dirty_same.
  - exists []. rewrite app_nil_r. pose proof (unPinPage_disk f p b s) as H.
    destruct (unPinPage f p b s). simplify_eq. cbn [snd] in H. by rewrite H.
  - destruct (disposePage f p s) as [st1 s1] eqn:Hdp. simplify_eq.
    eexists [_]. split; [by eapply bm_disposePage_log|].
    constructor; [|done]. by apply write_of_dirty_other.
  - unfold flushFile in Hex.
    destruct (flushFile_loop _ _ _) as [st1 s1] eqn:Hrun. simplify_eq.
    by eapply (flushFile_loop_writes f _ s s); [apply NoDup_seq|..].
  - destruct (allocBuf s) as [[r s1]|] eqn:Hrun; simplify_eq.
    by eapply allocBuf_writes.
  - simplify_eq. exists []. by rewrite app_nil_r.
Qed.

Lemma exec_writes_only_dirty_witness :
  let s := Scenario.after [OpReadPage 1 0; OpUnPinPage 1 0 true]
             (new 1 Scenario.disk4) in
  let s' := Scenario.after_call (OpReadPage 1 1) s in
  wf s ∧ exec (OpReadPage 1 1) s = Some (OK, s')
  ∧ ∃ evs, FileStore.log (disk s') = FileStore.log (disk s) ++ evs
      ∧ Forall (write_of_dirty s) evs.
Proof.
  intros s s'.
  assert (Hwf : wf s).
  { apply (run_wf [OpReadPage 1 0; OpUnPinPage 1 0 true] (new 1 Scenario.disk4));
      [apply wf_new|vm_compute; reflexivity]. }
  assert (Hex : exec (OpReadPage 1 1) s = Some (OK, s')) by (vm_compute; reflexivity).
  repeat (split; [assumption|]).
  exact (exec_writes_only_dirty _ s OK s' Hwf Hex).
Defined.

End BufMgrProps.

(** * Modified pages survive replacement *)

Module WriteBackProps.
Import BufMgr BufInv BufMgrFacts PoolUse HeapInv HeapFacts.

Lemma touch_content f qs : ∀ s s',
  wf s → pooled s → synced f s → touch f qs s = Some s' →
  wf s' ∧ pooled s' ∧ synced f s' ∧ ∀ q, content s' f q = content s f q.
Proof.
  induction qs as [|a qs IH]; intros s s' Hwf Hpool Hsync Hrun; cbn in Hrun.
  { by simplify_eq. }
  destruct (readPage f a s) as [[[fr|e] s1]|] eqn:Hr; [|done..].
  destruct (readPage_scan _ _ _ _ _ Hwf Hpool Hsync Hr)
    as (Hwf1 & Hpool1 & Hsync1 & Hc1 & Hh1).
  destruct (unPinPage f a false s1) as [st s2] eqn:Hu.
  destruct st; try done.
  destruct (unPinPage_scan _ _ _ _ _ _ Hwf1 Hpool1 Hsync1 Hh1 Hu)
    as (Hwf2 & Hpool2 & Hsync2 & Hc2).
  destruct (IH _ _ Hwf2 Hpool2 Hsync2 Hrun) as (? & ? & ? & Hc3).
  repeat (split; [done|]). intros q. by rewrite Hc3, Hc2, Hc1.
Qed.

(** X14.  A modification made under the dirty protocol is not lost.  The
    holder of a pin on page [p] of [f] stores [pg] into the frame and unpins
    it dirty; other pages of the file are then read and released, which may
    replace the frame any number of times.  The next [readPage] of [p] that
    returns OK returns a frame with content [pg]. *)
Theorem modified_page_read_back f p c pg s s1 qs s2 frame s3 :
  wf s → pooled s → synced f s →
  hashTable s !! (f, p) = Some c → 0 < pinCnt (desc_at s c) →
  unPinPage f p true (set_page c pg s) = (OK, s1) →
  touch f qs s1 = Some s2 →
  readPage f p s2 = Some (Done frame, s3) →
  bufPool s3 !! frame = Some pg.
Proof.
  intros Hwf Hpool Hsync Hlk Hpin Hu Ht Hr.
  destruct (proj2 (proj2 Hwf) _ _ _ Hlk) as (d & Hd & Hv & Hf & Hp).
  pose proof (desc_at_lookup _ _ _ Hd) as Hat.
  assert (Hc : (c < length (bufPool s))%nat).
  { rewrite Hpool. by eapply lookup_lt_Some. }
  set (s0 := set_page c pg s) in *.
  assert (Hwf0 : wf s0) by by apply wf_set_page.
  assert (Hpool0 : pooled s0).
  { unfold pooled, s0. cbn. by rewrite length_insert. }
  assert (Hsync0 : synced f s0).
  { intros i e He Hev Hef Hed Hep. cbn in He. cbn.
    destruct (decide (i = c)) as [->|Hne].
    - rewrite Hd in He. injection He as <-. rewrite Hat in Hpin. lia.
    - rewrite list_lookup_insert_ne by done. by apply (Hsync i e). }
  assert (Hh0 : holds s0 c f p true).
  { exists d. repeat split; try done. }
  destruct (unPinPage_scan _ _ _ _ _ _ Hwf0 Hpool0 Hsync0 Hh0 Hu)
    as (Hwf1 & Hpool1 & Hsync1 & Hc1).
  destruct (touch_content _ _ _ _ Hwf1 Hpool1 Hsync1 Ht)
    as (Hwf2 & Hpool2 & Hsync2 & Hc2).
  destruct (readPage_scan _ _ _ _ _ Hwf2 Hpool2 Hsync2 Hr)
    as (Hwf3 & _ & _ & Hc3 & Hh3).
  rewrite <- (holds_content _ _ _ _ _ Hwf3 Hh3), Hc3, Hc2, Hc1.
  unfold content, s0. cbn. rewrite Hlk. by apply list_lookup_insert_eq.
Qed.

Lemma modified_page_read_back_witness :
  let s := one_frame_pinned in
  let pg := Scenario.numbered_page 42 in
  let s1 := (unPinPage 1 0 true (set_page 0 pg s)).2 in
  let s2 := default s1 (touch 1 [1; 2] s1) in
  let s3 := Scenario.after_call (OpReadPage 1 0) s2 in
  wf s ∧ pooled s ∧ synced 1 s
  ∧ hashTable s !! (1%N, 0) = Some 0%nat ∧ 0 < pinCnt (desc_at s 0)
  ∧ unPinPage 1 0 true (set_page 0 pg s) = (OK, s1)
  ∧ touch 1 [1; 2] s1 = Some s2
  ∧ readPage 1 0 s2 = Some (Done 0%nat, s3)
  ∧ bufPool s3 !! 0%nat = Some pg.
Proof.
  intros s pg s1 s2 s3.
  destruct (run_invariants [OpReadPage 1 0] (new 1 Scenario.disk4) s)
    as (Hwf & Hpool & _).
  { apply wf_new. }
  { apply pooled_new. }
  { intros i d Hd. vm_compute in Hd. destruct i as [|i]; simplify_eq; done. }
  { vm_compute; reflexivity. }
  assert (Hsync : synced 1 s).
  { intros i d Hd _ _ _ Hp. vm_compute in Hd.
    destruct i as [|i]; simplify_eq. vm_compute in Hp. done. }
  assert (Hlk : hashTable s !! (1%N, 0) = Some 0%nat) by (vm_compute; reflexivity).
  assert (Hpin : 0 < pinCnt (desc_at s 0)) by (vm_compute; reflexivity).
  assert (Hu : unPinPage 1 0 true (set_page 0 pg s) = (OK, s1))
    by (vm_compute; reflexivity).
  assert (Ht : touch 1 [1; 2] s1 = Some s2) by (vm_compute; reflexivity).
  assert (Hr : readPage 1 0 s2 = Some (Done 0%nat, s3)) by (vm_compute; reflexivity).
  repeat (split; [assumption|]).
  exact (modified_page_read_back 1 0 0%nat pg s s1 [1; 2] s2 0%nat s3
           Hwf Hpool Hsync Hlk Hpin Hu Ht Hr).
Defined.

End WriteBackProps.

(** * Further properties of the heap-file layer *)

Module HeapProps.
Import BufMgr BufInv BufMgrFacts PoolUse HeapInv HeapFacts HeapUse.

(** ** The scan predicate on integers *)

Lemma wrap32_small z : - 2 ^ 31 ≤ z < 2 ^ 31 → Heap.wrap32 z = z.
Proof. intros Hz. unfold Heap.wrap32. rewrite Z.mod_small; lia. Qed.

(** X15.  With an INTEGER filter, on a record that reaches to the end of the
    attribute, [matchRec] decides the comparison of the two [int] values
    that the operator stands for, provided their difference fits an [int]. *)
Theorem matchRec_INTEGER float_diff h rec fl :
  Heap.filter h = Some fl → Heap.type h = Heap.INTEGER →
  Heap.offset h + Heap.length h ≤ reclen rec →
  let n := Z.to_nat (Heap.length h) in
  let a := Heap.int_of_bytes (take n (drop (Z.to_nat (Heap.offset h)) (data rec))) in
  let b := Heap.int_of_bytes (take n fl) in
  - 2 ^ 31 ≤ a - b < 2 ^ 31 →
  Heap.matchRec float_diff h rec = holds_cmp (Heap.op h) a b.
Proof.
  intros Hf Ht Hlen n a b Hfit. unfold Heap.matchRec. rewrite Hf, Ht.
  destruct (Z.leb_spec (reclen rec) (Heap.offset h + Heap.length h - 1)); [lia|].
  cbv zeta. fold n. fold a. fold b. rewrite (wrap32_small _ Hfit).
  unfold Heap.diff_of_Z, holds_cmp.
  destruct (Z.ltb_spec (a - b) 0), (Z.eqb_spec (a - b) 0), (Z.ltb_spec a b),
    (Z.leb_spec a b), (Z.eqb_spec a b), (Z.leb_spec b a), (Z.ltb_spec b a);
    destruct (Heap.op h); cbn; try done; lia.
Qed.

Lemma matchRec_INTEGER_witness :
  let h := chain_filtered in
  let rec := HeapScenario.rec4 x01 in
  let fl := [x02; x02; x02; x02] in
  Heap.filter h = Some fl ∧ Heap.type h = Heap.INTEGER
  ∧ Heap.offset h + Heap.length h ≤ reclen rec
  ∧ Heap.matchRec HeapScenario.no_floats h rec
    = holds_cmp Heap.EQ (Heap.int_of_bytes [x01; x01; x01; x01])
                        (Heap.int_of_bytes fl).
Proof.
  intros h rec fl.
  assert (Hf : Heap.filter h = Some fl) by reflexivity.
  assert (Ht : Heap.type h = Heap.INTEGER) by reflexivity.
  assert (Hlen : Heap.offset h + Heap.length h ≤ reclen rec) by (vm_compute; congruence).
  repeat (split; [assumption|]).
  apply (matchRec_INTEGER HeapScenario.no_floats h rec fl Hf Ht Hlen).
  vm_compute. split; [congruence|reflexivity].
Defined.

(** ** What [scanNext] returns *)

Section ScanResult.
Variable float_diff : list byte → list byte → Heap.Diff.

Lemma scan_check_match h c s rid h' s' :
  Heap.curPage h = Some c →
  scan_check float_diff h c s = Stop (Done rid) h' s' →
  Heap.curRec h' = rid
  ∧ ∃ rec, Heap.HeapFileScan.getRecord h' s' = Some (Done rec)
      ∧ Heap.matchRec float_diff h' rec = true.
Proof.
  intros Hc Hck. unfold scan_check in Hck.
  destruct (PageLayer.getRecord (page_at s c) (Heap.curRec h)) as [rec|e] eqn:Hg;
    [|done].
  destruct (Heap.matchRec float_diff h rec) eqn:Hm; [|done].
  simplify_eq. split; [done|]. exists rec.
  unfold Heap.HeapFileScan.getRecord. by rewrite Hc, Hg.
Qed.

Lemma scan_step_match h s rid h' s' :
  scan_step float_diff h s = Stop (Done rid) h' s' →
  Heap.curRec h' = rid
  ∧ ∃ rec, Heap.HeapFileScan.getRecord h' s' = Some (Done rec)
      ∧ Heap.matchRec float_diff h' rec = true.
Proof.
  unfold scan_step. intros Hstep.
  destruct (Heap.curPage h) as [c|] eqn:Hc; [|done].
  destruct (PageLayer.nextRecord (page_at s c) (Heap.curRec h)) as [nextRid|e].
  { eapply scan_check_match; [|exact Hstep]. exact Hc. }
  destruct (PageLayer.getNextPage (page_at s c)) as [n|e']; [|done].
  destruct (n =? -1); [done|].
  destruct (unPinPage _ _ _ s) as [st1 s1].
  destruct st1; try done.
  destruct (readPage _ _ s1) as [[[frame|e''] s2]|]; [|done..].
  destruct (PageLayer.firstRecord (page_at s2 frame)) as [rid0|e3]; [|done].
  eapply scan_check_match; [|exact Hstep]. done.
Qed.

Lemma scanNext_loop_match fuel : ∀ h s rid h' s',
  Heap.scanNext_loop float_diff fuel h s = Some (Done rid, h', s') →
  Heap.curRec h' = rid
  ∧ ∃ rec, Heap.HeapFileScan.getRecord h' s' = Some (Done rec)
      ∧ Heap.matchRec float_diff h' rec = true.
Proof.
  induction fuel as [|fuel IH]; intros h s rid h' s' Hrun; [done|].
  rewrite scanNext_loop_S in Hrun.
  destruct (scan_step float_diff h s) as [r h1 s1|h1 s1|] eqn:Hstep; [| |done].
  - simplify_eq. by eapply scan_step_match.
  - by eapply IH.
Qed.

(** X16.  When [scanNext] returns OK, the record id it returns is the
    current record of the scan, [HeapFileScan::getRecord] returns a record
    for it, and that record satisfies the predicate of the scan. *)
Theorem scanNext_returns_match fuel h s rid h' s' :
  Heap.scanNext float_diff fuel h s = Some (Done rid, h', s') →
  Heap.curRec h' = rid
  ∧ ∃ rec, Heap.HeapFileScan.getRecord h' s' = Some (Done rec)
      ∧ Heap.matchRec float_diff h' rec = true.
Proof.
  unfold Heap.scanNext. intros Hrun.
  destruct (Heap.curPage h); [by eapply scanNext_loop_match|].
  destruct (readPage _ _ s) as [[[frame|e] s1]|]; [|done..].
  destruct (PageLayer.firstRecord (page_at s1 frame)); [|done].
  by eapply scanNext_loop_match.
Qed.

End ScanResult.

Lemma scanNext_returns_match_witness :
  let h := chain_filtered in
  let s := HeapScenario.chain_pool in
  let r := chain_filtered_found in
  Heap.scanNext HeapScenario.no_floats 10 h s = Some (Done (mkRID 3 0), r.1, r.2)
  ∧ Heap.curRec r.1 = mkRID 3 0
  ∧ ∃ rec, Heap.HeapFileScan.getRecord r.1 r.2 = Some (Done rec)
      ∧ Heap.matchRec HeapScenario.no_floats r.1 rec = true.
Proof.
  intros h s r.
  assert (Hrun : Heap.scanNext HeapScenario.no_floats 10 h s
                 = Some (Done (mkRID 3 0), r.1, r.2)) by (vm_compute; reflexivity).
  split; [exact Hrun|].
  exact (scanNext_returns_match HeapScenario.no_floats 10 h s _ _ _ Hrun).
Defined.

(** ** Deleting the current record *)

Lemma page_at_set_page_eq i pg s :
  (i < length (bufPool s))%nat → page_at (set_page i pg s) i = pg.
Proof.
  intros Hi. unfold page_at, set_page. cbn. by rewrite list_lookup_insert_eq.
Qed.

Lemma page_at_set_page_ne i j pg s :
  i ≠ j → page_at (set_page i pg s) j = page_at s j.
Proof.
  intros Hne. unfold page_at, set_page. cbn. by rewrite list_lookup_insert_ne.
Qed.

Lemma getRecCnt_upd_hdr g h s :
  (Heap.headerPage h < length (bufPool s))%nat →
  Heap.getRecCnt h (Heap.upd_hdr g h s) = recCnt (g (Heap.hdr_of h s)).
Proof.
  intros Hh. unfold Heap.getRecCnt, Heap.hdr_of at 1, Heap.upd_hdr.
  by rewrite page_at_set_page_eq.
Qed.

Lemma page_getRecord_Fail p rid e :
  PageLayer.getRecord p rid = Fail e → e = INVALIDSLOTNO.
Proof. unfold PageLayer.getRecord. intros H. by repeat case_match; simplify_eq. Qed.

Lemma page_deleteRecord_again p rid st p' :
  PageLayer.deleteRecord p rid = (st, p') →
  PageLayer.deleteRecord p' rid = (INVALIDSLOTNO, p')
  ∧ (st ≠ OK → st = INVALIDSLOTNO ∧ p' = p).
Proof.
  unfold PageLayer.deleteRecord. intros Hdel.
  destruct (PageLayer.getRecord p rid) as [rec|e] eqn:Hget.
  - simplify_eq. split; [|done].
    unfold PageLayer.getRecord in *. cbn.
    destruct (slotNo rid <? 0); [done|].
    destruct (slots (PageLayer.as_data p) !! Z.to_nat (slotNo rid)) eqn:Hs; [|done].
    rewrite list_lookup_insert_eq; [done|]. by eapply lookup_lt_Some.
  - simplify_eq. pose proof (page_getRecord_Fail _ _ _ Hget) as ->.
    by rewrite Hget.
Qed.

Lemma deleteRecord_effect h s c :
  Heap.curPage h = Some c → c ≠ Heap.headerPage h →
  (c < length (bufPool s))%nat → (Heap.headerPage h < length (bufPool s))%nat →
  ∃ s',
    Heap.deleteRecord h s
    = Some ((PageLayer.deleteRecord (page_at s c) (Heap.curRec h)).1,
            Heap.set_hdrDirtyFlag true (Heap.set_curDirtyFlag true h), s')
    ∧ page_at s' c = (PageLayer.deleteRecord (page_at s c) (Heap.curRec h)).2
    ∧ Heap.getRecCnt h s' = Heap.getRecCnt h s - 1
    ∧ length (bufPool s') = length (bufPool s).
Proof.
  intros Hc Hne Hlt Hh. unfold Heap.deleteRecord. rewrite Hc.
  destruct (PageLayer.deleteRecord (page_at s c) (Heap.curRec h)) as [st pg].
  eexists. split; [reflexivity|]. cbn [fst snd].
  split; [|split].
  - unfold Heap.upd_hdr. cbn [Heap.headerPage Heap.set_curDirtyFlag].
    rewrite page_at_set_page_ne by done. by apply page_at_set_page_eq.
  - change (Heap.getRecCnt h
              (Heap.upd_hdr Heap.decr_recCnt h (set_page c pg s))
            = Heap.getRecCnt h s - 1).
    rewrite getRecCnt_upd_hdr by (cbn; by rewrite length_insert).
    unfold Heap.hdr_of, Heap.getRecCnt, Heap.hdr_of.
    by rewrite page_at_set_page_ne.
  - unfold Heap.upd_hdr. cbn. by rewrite !length_insert.
Qed.

(** X17.  [deleteRecord] of a scan takes one off the record count of the
    header and raises both dirty flags whatever the page layer answers.  A
    call that finds no record at the current record id returns
    INVALIDSLOTNO, leaves the page as it is and still lowers the count: the
    same record deleted twice is counted twice. *)
Theorem deleteRecord_counts_every_call h s c st h' s' :
  Heap.curPage h = Some c → c ≠ Heap.headerPage h →
  (c < length (bufPool s))%nat → (Heap.headerPage h < length (bufPool s))%nat →
  Heap.deleteRecord h s = Some (st, h', s') →
  Heap.getRecCnt h' s' = Heap.getRecCnt h s - 1
  ∧ Heap.hdrDirtyFlag h' = true ∧ Heap.curDirtyFlag h' = true
  ∧ (st ≠ OK → st = INVALIDSLOTNO ∧ page_at s' c = page_at s c)
  ∧ ∃ h2 s2, Heap.deleteRecord h' s' = Some (INVALIDSLOTNO, h2, s2)
      ∧ Heap.getRecCnt h2 s2 = Heap.getRecCnt h s - 2.
Proof.
  intros Hc Hne Hlt Hh Hrun.
  destruct (deleteRecord_effect h s c Hc Hne Hlt Hh) as (s1 & Hrun1 & Hpg & Hcnt & Hlen).
  rewrite Hrun in Hrun1. injection Hrun1 as -> -> ->.
  destruct (PageLayer.deleteRecord (page_at s c) (Heap.curRec h)) as [st pg] eqn:Hdel.
  cbn [fst snd] in *.
  destruct (page_deleteRecord_again _ _ _ _ Hdel) as [Hagain Hfail].
  split; [exact Hcnt|]. split; [done|]. split; [done|]. split.
  { intros Hst. destruct (Hfail Hst) as [-> ->]. by rewrite Hpg. }
  set (h1 := Heap.set_hdrDirtyFlag true (Heap.set_curDirtyFlag true h)).
  destruct (deleteRecord_effect h1 s1 c Hc Hne) as (s2 & Hrun2 & _ & Hcnt2 & _);
    [by rewrite Hlen..|].
  change (Heap.curRec h1) with (Heap.curRec h) in Hrun2.
  rewrite Hpg, Hagain in Hrun2. cbn [fst] in Hrun2.
  eexists _, s2. split; [exact Hrun2|].
  change (Heap.getRecCnt h1 s2 = Heap.getRecCnt h s - 2).
  rewrite Hcnt2. change (Heap.getRecCnt h1 s1) with (Heap.getRecCnt h s1). lia.
Qed.

Lemma deleteRecord_counts_every_call_witness :
  let h := chain_filtered_found.1 in
  let s := chain_filtered_found.2 in
  Heap.curPage h = Some 2%nat ∧ 2%nat ≠ Heap.headerPage h
  ∧ (2 < length (bufPool s))%nat ∧ (Heap.headerPage h < length (bufPool s))%nat
  ∧ Heap.deleteRecord h s = Some (OK, chain_deleted.1, chain_deleted.2)
  ∧ Heap.getRecCnt chain_deleted.1 chain_deleted.2 = Heap.getRecCnt h s - 1.
Proof.
  intros h s.
  assert (Hc : Heap.curPage h = Some 2%nat) by (vm_compute; reflexivity).
  assert (Hne : 2%nat ≠ Heap.headerPage h) by (vm_compute; congruence).
  assert (Hlt : (2 < length (bufPool s))%nat) by (vm_compute; lia).
  assert (Hh : (Heap.headerPage h < length (bufPool s))%nat) by (vm_compute; lia).
  assert (Hrun : Heap.deleteRecord h s = Some (OK, chain_deleted.1, chain_deleted.2))
    by (vm_compute; reflexivity).
  repeat (split; [assumption|]).
  exact (proj1 (deleteRecord_counts_every_call h s 2%nat OK _ _ Hc Hne Hlt Hh Hrun)).
Defined.

End HeapProps.

(** * Access to records by record id *)

Module RecordProps.
Import BufInv BufMgrFacts BufMgrProps HeapInv HeapFacts HeapUse HeapProps.

Lemma put_free_slot rec sl : ∀ i,
  (i ≤ PageLayer.free_slot i sl)%nat
  ∧ PageLayer.put_slot (PageLayer.free_slot i sl - i) rec sl
      !! (PageLayer.free_slot i sl - i)%nat = Some (Some rec).
Proof.
  induction sl as [|[x|] sl IH]; intros i; cbn [PageLayer.free_slot].
  - split; [lia|]. by replace (i - i)%nat with 0%nat by lia.
  - destruct (IH (S i)) as [Hle Hlk]. split; [lia|].
    set (k := PageLayer.free_slot (S i) sl) in *.
    replace (k - i)%nat with (S (k - S i)) by lia.
    unfold PageLayer.put_slot in *. cbn [length].
    destruct (decide (k - S i < length sl)%nat),
             (decide (S (k - S i) < S (length sl))%nat); try lia; exact Hlk.
  - split; [lia|]. by replace (i - i)%nat with 0%nat by lia.
Qed.

Lemma page_insert_get p rec rid p' :
  PageLayer.insertRecord p rec = (Done rid, p') →
  PageLayer.getRecord p' rid = Done rec
  ∧ pageNo rid = dpPageNo (PageLayer.as_data p).
Proof.
  unfold PageLayer.insertRecord. intros Hins.
  destruct (_ <? _); [done|]. simplify_eq.
  split; [|done]. unfold PageLayer.getRecord. cbn.
  destruct (Z.ltb_spec (Z.of_nat (PageLayer.free_slot 0 (slots (PageLayer.as_data p)))) 0);
    [lia|].
  rewrite Nat2Z.id.
  destruct (put_free_slot rec (slots (PageLayer.as_data p)) 0) as [_ Hlk].
  rewrite Nat.sub_0_r in Hlk. by rewrite Hlk.
Qed.

(** X18.  Insert, then look up.  For a handle with a cursor page that has
    room for the record, [insertRecord] returns a record id on that page;
    [HeapFile::getRecord] of that id and [HeapFileScan::getRecord] then both
    return the record that was inserted, without a call of the buffer
    manager, and the record count of the header has gone up by one. *)
Theorem insertRecord_getRecord rec h s c :
  Heap.curPage h = Some c → c ≠ Heap.headerPage h →
  (c < length (BufMgr.bufPool s))%nat →
  (Heap.headerPage h < length (BufMgr.bufPool s))%nat →
  dpPageNo (PageLayer.as_data (BufMgr.page_at s c)) = Heap.curPageNo h →
  0 ≤ reclen rec ≤ PageLayer.PAGESIZE - PageLayer.DPFIXED →
  reclen rec + PageLayer.SLOTSIZE
    ≤ PageLayer.freeSpace (PageLayer.as_data (BufMgr.page_at s c)) →
  ∃ rid h' s',
    Heap.insertRecord rec h s = Some (Done rid, h', s')
    ∧ Heap.getRecord rid h' s' = Some (Done rec, h', s')
    ∧ Heap.HeapFileScan.getRecord h' s' = Some (Done rec)
    ∧ Heap.getRecCnt h' s' = Heap.getRecCnt h s + 1
    ∧ pageNo rid = Heap.curPageNo h
    ∧ Heap.curDirtyFlag h' = true.
Proof.
  intros Hc Hne Hlt Hh Hno Hlen Hroom.
  unfold Heap.insertRecord.
  destruct (Z.ltb_spec (PageLayer.PAGESIZE - PageLayer.DPFIXED)
                       (reclen rec `mod` 2 ^ 32)) as [Hbig|_].
  { rewrite Z.mod_small in Hbig; [lia|].
    unfold PageLayer.PAGESIZE, PageLayer.DPFIXED in Hlen. lia. }
  unfold Heap.insertRecord_cursor. rewrite Hc. cbn beta iota. rewrite Hc.
  destruct (PageLayer.insertRecord (BufMgr.page_at s c) rec) as [[rid|e] pg] eqn:Hins.
  2:{ unfold PageLayer.insertRecord in Hins.
      destruct (Z.ltb_spec (PageLayer.freeSpace (PageLayer.as_data (BufMgr.page_at s c)))
                           (reclen rec + PageLayer.SLOTSIZE)); [lia|done]. }
  destruct (page_insert_get _ _ _ _ Hins) as [Hget Hpno].
  set (s1 := BufMgr.set_page c pg s).
  set (s' := Heap.upd_hdr Heap.incr_recCnt h s1).
  set (h' := Heap.set_curDirtyFlag true (Heap.set_curRec rid h)).
  assert (Hpg : BufMgr.page_at s' c = pg).
  { unfold s', Heap.upd_hdr. rewrite page_at_set_page_ne by done.
    by apply page_at_set_page_eq. }
  exists rid, h', s'. split; [done|]. split; [|split; [|split; [|split]]].
  - unfold Heap.getRecord.
    change (Heap.curPage h') with (Heap.curPage h). rewrite Hc.
    change (Heap.curPageNo h') with (Heap.curPageNo h).
    rewrite decide_True by congruence.
    cbv zeta. change (Heap.curRec (Heap.set_curRec rid h')) with rid.
    by rewrite Hpg, Hget.
  - unfold Heap.HeapFileScan.getRecord.
    change (Heap.curPage h') with (Heap.curPage h). rewrite Hc.
    change (Heap.curRec h') with rid. by rewrite Hpg, Hget.
  - change (Heap.getRecCnt h s' = Heap.getRecCnt h s + 1). unfold s'.
    rewrite getRecCnt_upd_hdr by (unfold s1; cbn; by rewrite length_insert).
    unfold Heap.hdr_of, Heap.getRecCnt, Heap.hdr_of, s1.
    by rewrite page_at_set_page_ne.
  - congruence.
  - done.
Qed.

Lemma insertRecord_getRecord_witness :
  let h := opened_pair.1 in
  let s := opened_pair.2 in
  let rec := HeapScenario.rec4 x01 in
  Heap.curPage h = Some 3%nat ∧ 3%nat ≠ Heap.headerPage h
  ∧ (3 < length (BufMgr.bufPool s))%nat
  ∧ (Heap.headerPage h < length (BufMgr.bufPool s))%nat
  ∧ dpPageNo (PageLayer.as_data (BufMgr.page_at s 3)) = Heap.curPageNo h
  ∧ 0 ≤ reclen rec ≤ PageLayer.PAGESIZE - PageLayer.DPFIXED
  ∧ reclen rec + PageLayer.SLOTSIZE
      ≤ PageLayer.freeSpace (PageLayer.as_data (BufMgr.page_at s 3))
  ∧ ∃ rid h' s',
      Heap.insertRecord rec h s = Some (Done rid, h', s')
      ∧ Heap.getRecord rid h' s' = Some (Done rec, h', s')
      ∧ Heap.HeapFileScan.getRecord h' s' = Some (Done rec)
      ∧ Heap.getRecCnt h' s' = Heap.getRecCnt h s + 1
      ∧ pageNo rid = Heap.curPageNo h
      ∧ Heap.curDirtyFlag h' = true.
Proof.
  intros h s rec.
  assert (Hc : Heap.curPage h = Some 3%nat) by (vm_compute; reflexivity).
  assert (Hne : 3%nat ≠ Heap.headerPage h) by (vm_compute; congruence).
  assert (Hlt : (3 < length (BufMgr.bufPool s))%nat) by (vm_compute; lia).
  assert (Hh : (Heap.headerPage h < length (BufMgr.bufPool s))%nat)
    by (vm_compute; lia).
  assert (Hno : dpPageNo (PageLayer.as_data (BufMgr.page_at s 3)) = Heap.curPageNo h)
    by (vm_compute; reflexivity).
  assert (Hlen : 0 ≤ reclen rec ≤ PageLayer.PAGESIZE - PageLayer.DPFIXED)
    by (vm_compute; split; congruence).
  assert (Hroom : reclen rec + PageLayer.SLOTSIZE
                  ≤ PageLayer.freeSpace (PageLayer.as_data (BufMgr.page_at s 3)))
    by (vm_compute; congruence).
  repeat (split; [assumption|]).
  exact (insertRecord_getRecord rec h s 3%nat Hc Hne Hlt Hh Hno Hlen Hroom).
Defined.





End RecordProps.

(** * Pins taken and given back by a handle *)

Module HandleProps.
Import BufMgr BufInv BufMgrFacts PoolUse BufMgrProps HeapInv HeapFacts HeapUse HeapProps.

Lemma swept_desc_at s s' i :
  swept s s' → ∃ b, desc_at s' i = set_refbit b (desc_at s i).
Proof.
  intros Hsw. destruct (bufTable s !! i) as [d|] eqn:Hd.
  - destruct (swept_lookup_l _ _ _ _ Hsw Hd) as [b Hb]. exists b.
    by rewrite (desc_at_lookup _ _ _ Hb), (desc_at_lookup _ _ _ Hd).
  - exists false. unfold desc_at. rewrite Hd.
    assert (bufTable s' !! i = None) as ->; [|done].
    apply lookup_ge_None. apply lookup_ge_None in Hd.
    pose proof (swept_numBufs _ _ Hsw). unfold numBufs in *. lia.
Qed.

Lemma desc_at_upd_desc_eq i g s :
  (i < numBufs s)%nat → desc_at (upd_desc i g s) i = g (desc_at s i).
Proof.
  intros Hi. apply desc_at_lookup.
  by rewrite lookup_upd_desc_eq, (lookup_desc_at _ _ Hi).
Qed.

Lemma idle_unpinned_desc_at s i :
  idle_unpinned s → valid (desc_at s i) = false → pinCnt (desc_at s i) = 0.
Proof.
  intros Hidle Hv. destruct (bufTable s !! i) as [d|] eqn:Hd.
  - rewrite (desc_at_lookup _ _ _ Hd) in *. by eapply Hidle.
  - unfold desc_at. by rewrite Hd.
Qed.

Lemma pins_ok_desc_at s i : pins_ok s → 0 ≤ pinCnt (desc_at s i).
Proof.
  intros Hpins. destruct (bufTable s !! i) as [d|] eqn:Hd.
  - rewrite (desc_at_lookup _ _ _ Hd). by eapply Hpins.
  - unfold desc_at. by rewrite Hd.
Qed.

Lemma clear_pins s i :
  (i < numBufs s)%nat → pinCnt (desc_at s i) = 0 → idle_unpinned s →
  (∀ j, pinCnt (desc_at (upd_desc i Clear s) j) = pinCnt (desc_at s j))
  ∧ idle_unpinned (upd_desc i Clear s).
Proof.
  intros Hi H0 Hidle. split.
  - intros j. destruct (decide (i = j)) as [<-|Hne].
    + rewrite desc_at_upd_desc_eq by done. by rewrite H0.
    + by rewrite desc_at_upd_desc_ne.
  - intros j d Hd Hv. apply lookup_upd_desc_Some in Hd as (d0 & Hd0 & ->).
    case_decide; [done|]. by eapply Hidle.
Qed.

Lemma allocBuf_pins s r s' :
  wf s → pins_ok s → idle_unpinned s → allocBuf s = Some (r, s') →
  (∀ i, pinCnt (desc_at s' i) = pinCnt (desc_at s i)) ∧ idle_unpinned s'.
Proof.
  intros Hwf Hpins Hidle Ha.
  destruct (allocBuf_spec _ _ _ Hwf Ha) as (s1 & Hsw & Hwf1 & Hc).
  assert (H1 : ∀ i, pinCnt (desc_at s1 i) = pinCnt (desc_at s i)
                    ∧ valid (desc_at s1 i) = valid (desc_at s i)).
  { intros i. by destruct (swept_desc_at _ _ i Hsw) as [b ->]. }
  assert (Hidle1 : idle_unpinned s1).
  { intros i d Hd Hv. rewrite <- (desc_at_lookup _ _ _ Hd) in *.
    destruct (H1 i) as [-> Hv1]. apply idle_unpinned_desc_at; [done|congruence]. }
  destruct Hc as [[_ ->] | (i & Hi & [Ht | [He | Hf]])].
  - split; [apply H1|done].
  - destruct Ht as (Hiv & _ & ->).
    destruct (clear_pins s1 i Hi) as [Hp Hid]; [|done|].
    { by apply idle_unpinned_desc_at. }
    split; [|done]. intros j. rewrite Hp. apply H1.
  - destruct He as (_ & _ & Hip & dk & _ & _ & ->).
    destruct (clear_pins s1 i Hi) as [Hp Hid]; [|done|].
    { pose proof (pins_ok_desc_at s i Hpins). destruct (H1 i) as [Heq _]. lia. }
    split; [|exact Hid]. intros j.
    transitivity (pinCnt (desc_at (upd_desc i Clear s1) j)); [done|].
    rewrite Hp. apply H1.
  - destruct Hf as (_ & _ & st & dk & _ & _ & _ & ->).
    split; [|exact Hidle1]. intros j. apply H1.
Qed.

Lemma readPage_pins f p s frame s1 :
  wf s → pins_ok s → idle_unpinned s →
  readPage f p s = Some (Done frame, s1) →
  (∀ i, pinCnt (desc_at s1 i)
        = pinCnt (desc_at s i) + (if decide (i = frame) then 1 else 0))
  ∧ idle_unpinned s1
  ∧ hashTable s1 !! (f, p) = Some frame
  ∧ (∀ g q j, hashTable s !! (g, q) = Some j → 0 < pinCnt (desc_at s j) →
       hashTable s1 !! (g, q) = Some j).
Proof.
  intros Hwf Hpins Hidle Hrun. unfold readPage, BufHashTbl.lookup in Hrun.
  destruct (hashTable s !! (f, p)) as [i|] eqn:Hlk.
  - simplify_eq. destruct (proj2 (proj2 Hwf) _ _ _ Hlk) as (d & Hd & Hv & _).
    assert (Hlt : (frame < numBufs s)%nat) by by eapply lookup_lt_Some.
    split; [|split; [|split]].
    + intros j. case_decide as Hj.
      * subst j. by rewrite desc_at_upd_desc_eq.
      * rewrite desc_at_upd_desc_ne by done. lia.
    + intros j e He Hev. apply lookup_upd_desc_Some in He as (e0 & He0 & ->).
      case_decide; [|by eapply Hidle]. subst j. cbn in Hev. congruence.
    + exact Hlk.
    + by intros.
  - destruct (allocBuf s) as [[[fr|e] s0]|] eqn:Ha; cbn beta iota in Hrun;
      [|done..].
    destruct (allocBuf_Done _ _ _ Hwf Ha) as (Hlt & _ & Hfr & Hinv).
    pose proof (allocBuf_absent _ _ _ (f, p) Hwf Ha Hlk) as Habs.
    destruct (allocBuf_pins _ _ _ Hwf Hpins Hidle Ha) as [Hp0 Hidle0].
    destruct (FileStore.readPage f p (disk s0)) as [[pg|e] dk] eqn:Hrd.
    2:{ destruct (disposePage f p (set_disk dk s0)). done. }
    unfold BufHashTbl.insert in Hrun. cbn in Hrun. rewrite Habs in Hrun.
    simplify_eq.
    split; [|split; [|split]].
    + intros j. case_decide as Hj.
      * subst j. rewrite desc_at_upd_desc_eq by exact Hlt. cbn.
        rewrite <- Hp0. by rewrite (idle_unpinned_desc_at _ _ Hidle0 Hinv).
      * rewrite desc_at_upd_desc_ne by done.
        transitivity (pinCnt (desc_at s0 j)); [done|]. rewrite Hp0. lia.
    + intros j e He Hev. apply lookup_upd_desc_Some in He as (e0 & He0 & ->).
      case_decide; [done|]. by eapply (Hidle0 j).
    + cbn. apply lookup_insert_eq.
    + intros g q j Hgq Hpin.
      destruct (proj2 (proj2 Hwf) _ _ _ Hgq) as (d & Hd & Hv & Hg & Hq).
      rewrite (desc_at_lookup _ _ _ Hd) in Hpin.
      destruct (allocBuf_pinned_kept _ _ _ _ _ Hwf Ha Hd Hv Hpin) as (_ & _ & _ & Hkept).
      cbn. rewrite lookup_insert_ne; [congruence|]. congruence.
Qed.

Lemma unPinPage_pins f p b s frame :
  wf s → hashTable s !! (f, p) = Some frame → pinCnt (desc_at s frame) ≠ 0 →
  ∃ s', unPinPage f p b s = (OK, s')
    ∧ hashTable s' = hashTable s ∧ wf s'
    ∧ ∀ i, pinCnt (desc_at s' i)
           = pinCnt (desc_at s i) - (if decide (i = frame) then 1 else 0).
Proof.
  intros Hwf Hlk Hpin.
  pose proof (unPinPage_wf f p b s Hwf) as Hwf'.
  unfold unPinPage, BufHashTbl.lookup in *. rewrite Hlk in *.
  rewrite decide_False in * by done.
  eexists. split; [done|]. split; [done|]. split; [exact Hwf'|].
  destruct (proj2 (proj2 Hwf) _ _ _ Hlk) as (d & Hd & _).
  assert (Hlt : (frame < numBufs s)%nat) by by eapply lookup_lt_Some.
  intros j. case_decide as Hj.
  - subst j. rewrite desc_at_upd_desc_eq by done. by destruct b.
  - rewrite desc_at_upd_desc_ne by done. lia.
Qed.

Lemma release_both f cp hp b1 b2 s frame hdrFrame (base : nat → Z) :
  wf s →
  hashTable s !! (f, cp) = Some frame →
  hashTable s !! (f, hp) = Some hdrFrame →
  (∀ i, 0 ≤ base i) →
  (∀ i, pinCnt (desc_at s i)
        = base i + (if decide (i = hdrFrame) then 1 else 0)
                 + (if decide (i = frame) then 1 else 0)) →
  ∀ i, pinCnt (desc_at (unPinPage f hp b2 (unPinPage f cp b1 s).2).2 i) = base i.
Proof.
  intros Hwf Hcp Hhp Hbase Hpins.
  destruct (unPinPage_pins f cp b1 s frame Hwf Hcp) as (s1 & -> & Hht1 & Hwf1 & Hp1).
  { specialize (Hpins frame). specialize (Hbase frame).
    repeat case_decide; try done; lia. }
  cbn [snd].
  destruct (unPinPage_pins f hp b2 s1 hdrFrame Hwf1) as (s2 & -> & _ & _ & Hp2).
  { by rewrite Hht1. }
  { rewrite Hp1, Hpins. specialize (Hbase hdrFrame).
    repeat case_decide; try done; lia. }
  cbn [snd]. intros i. rewrite Hp2, Hp1, Hpins.
  repeat case_decide; try done; lia.
Qed.

(** X21.  A handle gives back the pins it has taken.  When the constructor
    of [HeapFile] returns OK it holds one pin on the header page and one on
    the first data page; after the destructor of the handle, be it the one
    of [HeapFile], of [HeapFileScan] or of [InsertFileScan], every frame has
    the pin count it had before the handle was opened. *)
Theorem open_close_pins file_ n h0 s h s' :
  wf s → pins_ok s → idle_unpinned s →
  Heap.open file_ n h0 s = Some (OK, h, s') →
  (∃ hdrFrame frame,
     hashTable s' !! (file_, Heap.headerPageNo h) = Some hdrFrame
     ∧ hashTable s' !! (file_, Heap.curPageNo h) = Some frame
     ∧ ∀ i, pinCnt (desc_at s' i)
            = pinCnt (desc_at s i) + (if decide (i = hdrFrame) then 1 else 0)
                                   + (if decide (i = frame) then 1 else 0))
  ∧ (∀ i, pinCnt (desc_at (Heap.close h s').2 i) = pinCnt (desc_at s i))
  ∧ (∀ i, pinCnt (desc_at (Heap.closeScan h s').2 i) = pinCnt (desc_at s i))
  ∧ (∀ i, pinCnt (desc_at (Heap.closeInsert h s').2 i) = pinCnt (desc_at s i)).
Proof.
  intros Hwf Hpins Hidle Hrun. unfold Heap.open in Hrun.
  destruct (readPage file_ n s) as [[[hdrFrame|e] s1]|] eqn:Hr1;
    cbn beta iota zeta in Hrun; [| |done].
  2:{ apply readPage_Fail in Hr1. by simplify_eq. }
  destruct (readPage_pins _ _ _ _ _ Hwf Hpins Hidle Hr1) as (Hp1 & Hidle1 & Hh1 & _).
  pose proof (readPage_wf _ _ _ _ _ Hwf Hr1) as Hwf1.
  assert (Hpins1 : pins_ok s1).
  { apply (exec_pins_ok (OpReadPage file_ n) s OK s1 Hwf Hpins).
    cbn. by rewrite Hr1. }
  match type of Hrun with
  | context [readPage file_ ?q s1] => set (firstNo := q) in *
  end.
  destruct (readPage file_ firstNo s1) as [[[frame|e] s2]|] eqn:Hr2;
    cbn beta iota zeta in Hrun; [| |done].
  2:{ apply readPage_Fail in Hr2. by simplify_eq. }
  destruct (readPage_pins _ _ _ _ _ Hwf1 Hpins1 Hidle1 Hr2) as (Hp2 & _ & Hh2 & Hkept).
  pose proof (readPage_wf _ _ _ _ _ Hwf1 Hr2) as Hwf2.
  injection Hrun as <- <-.
  assert (Hhdr : hashTable s2 !! (file_, n) = Some hdrFrame).
  { apply Hkept; [done|]. rewrite Hp1.
    pose proof (pins_ok_desc_at s hdrFrame Hpins). case_decide; [lia|done]. }
  assert (Hacc : ∀ i, pinCnt (desc_at s2 i)
                      = pinCnt (desc_at s i)
                        + (if decide (i = hdrFrame) then 1 else 0)
                        + (if decide (i = frame) then 1 else 0)).
  { intros i. by rewrite Hp2, Hp1. }
  assert (Hbase : ∀ i, 0 ≤ pinCnt (desc_at s i)).
  { intros i. by apply pins_ok_desc_at. }
  split; [by exists hdrFrame, frame|].
  split; [|split].
  - intros i. unfold Heap.close. cbn.
    apply (release_both file_ firstNo n false false s2 frame hdrFrame
             (λ i, pinCnt (desc_at s i))); done.
  - intros i. unfold Heap.closeScan, Heap.endScan. cbn.
    destruct (unPinPage file_ firstNo false s2) as [st s3] eqn:Hu.
    unfold Heap.close. cbn.
    change s3 with (st, s3).2. rewrite <- Hu.
    apply (release_both file_ firstNo n false false s2 frame hdrFrame
             (λ i, pinCnt (desc_at s i))); done.
  - intros i. unfold Heap.closeInsert. cbn. unfold Heap.close. cbn.
    apply (release_both file_ firstNo n true false s2 frame hdrFrame
             (λ i, pinCnt (desc_at s i))); done.
Qed.

Lemma open_close_pins_witness :
  let s := default (new 4 HeapScenario.empty_disk) HeapScenario.created in
  wf s ∧ pins_ok s ∧ idle_unpinned s
  ∧ Heap.open 1 1 HeapScenario.raw_handle s
    = Some (OK, opened_pair.1, opened_pair.2)
  ∧ ∀ i, pinCnt (desc_at (Heap.close opened_pair.1 opened_pair.2).2 i)
         = pinCnt (desc_at s i).
Proof.
  intros s.
  assert (Hwf : wf s).
  { apply (run_wf [OpAllocPage 1; OpAllocPage 1; OpWrite 1 (PData (mkData 2 (-1) []));
                   OpWrite 0 (PHdr (mkHdr [] 2 2 1 0));
                   OpUnPinPage 1 1 true; OpUnPinPage 1 2 true; OpFlushFile 1]
                  (new 4 HeapScenario.empty_disk));
      [apply wf_new|vm_compute; reflexivity]. }
  assert (Hpins : pins_ok s).
  { intros i d Hd. vm_compute in Hd.
    destruct i as [|[|[|[|i]]]]; simplify_eq; done. }
  assert (Hidle : idle_unpinned s).
  { intros i d Hd _. vm_compute in Hd.
    destruct i as [|[|[|[|i]]]]; simplify_eq; done. }
  assert (Hrun : Heap.open 1 1 HeapScenario.raw_handle s
                 = Some (OK, opened_pair.1, opened_pair.2))
    by (vm_compute; reflexivity).
  repeat (split; [assumption|]).
  exact (proj1 (proj2 (open_close_pins 1 1 _ s _ _ Hwf Hpins Hidle Hrun))).
Defined.

(** ** A new heap file on disk *)

Lemma allocBuf_files s r s' i :
  wf s → allocBuf s = Some (r, s') →
  file (desc_at s' i) = file (desc_at s i) ∨ file (desc_at s' i) = NULL.
Proof.
  intros Hwf Ha.
  destruct (allocBuf_spec _ _ _ Hwf Ha) as (s1 & Hsw & Hwf1 & Hc).
  assert (H1 : file (desc_at s1 i) = file (desc_at s i)).
  { by destruct (swept_desc_at _ _ i Hsw) as [b ->]. }
  assert (Hclear : ∀ k, (k < numBufs s1)%nat →
            file (desc_at (upd_desc k Clear s1) i) = file (desc_at s i)
            ∨ file (desc_at (upd_desc k Clear s1) i) = NULL).
  { intros k Hk. destruct (decide (k = i)) as [->|Hne].
    - right. by rewrite desc_at_upd_desc_eq.
    - left. by rewrite desc_at_upd_desc_ne. }
  destruct Hc as [[_ ->] | (k & Hk & [Ht | [He | Hf]])].
  - by left.
  - destruct Ht as (_ & _ & ->). by apply Hclear.
  - destruct He as (_ & _ & _ & dk & _ & _ & ->). apply (Hclear k Hk).
  - destruct Hf as (_ & _ & st & dk & _ & _ & _ & ->). by left.
Qed.

Lemma allocBuf_fault s r s' :
  wf s → allocBuf s = Some (r, s') →
  FileStore.fault (disk s') = FileStore.fault (disk s).
Proof.
  intros Hwf Ha.
  destruct (allocBuf_spec _ _ _ Hwf Ha) as (s1 & Hsw & Hwf1 & Hc).
  destruct Hsw as (_ & _ & Hdk & _).
  destruct Hc as [[_ ->] | (k & Hk & [Ht | [He | Hf]])].
  - by rewrite Hdk.
  - destruct Ht as (_ & _ & ->). cbn. by rewrite Hdk.
  - destruct He as (_ & _ & _ & dk & Hwb & _ & ->). cbn.
    unfold written_back in Hwb. cbv zeta in Hwb.
    destruct Hwb as [[_ ->]|[_ Hw]]; [by rewrite Hdk|].
    destruct (writePage_log _ _ _ _ _ _ Hw) as (_ & -> & _). by rewrite Hdk.
  - destruct Hf as (_ & _ & st & dk & _ & Hw & _ & ->). cbn.
    destruct (writePage_log _ _ _ _ _ _ Hw) as (_ & -> & _). by rewrite Hdk.
Qed.

Lemma allocPage_Fail f s e s' : allocPage f s = Some (Fail e, s') → e ≠ OK.
Proof.
  unfold allocPage, FileStore.allocatePage, BufHashTbl.insert. intros Hrun.
  destruct (FileStore.fault (disk s) (FileStore.log (disk s))
              (FileStore.AllocReq f)) eqn:Hf; simplify_eq; try done.
  destruct (allocBuf _) as [[[fr|e0] s0]|] eqn:Ha; [| |done].
  - destruct (hashTable s0 !! _); by simplify_eq.
  - simplify_eq. unfold allocBuf in Ha. by eapply allocBuf_loop_Fail.
Qed.

Lemma allocPage_Done f s n fr s' :
  wf s → allocPage f s = Some (Done (n, fr), s') →
  wf s'
  ∧ numBufs s' = numBufs s
  ∧ bufTable s' !! fr = Some (mkDesc f n fr 1 false true true)
  ∧ hashTable s' !! (f, n) = Some fr
  ∧ bufPool s' = bufPool s
  ∧ FileStore.fault (disk s') = FileStore.fault (disk s)
  ∧ (∀ i, i ≠ fr →
       file (desc_at s' i) = file (desc_at s i) ∨ file (desc_at s' i) = NULL)
  ∧ (∀ j d, bufTable s !! j = Some d → valid d = true → 0 < pinCnt d →
       fr ≠ j ∧ ∃ b, bufTable s' !! j = Some (set_refbit b d)).
Proof.
  intros Hwf Hrun. pose proof (allocPage_wf _ _ _ _ Hwf Hrun) as Hwf'.
  unfold allocPage in Hrun.
  destruct (FileStore.allocatePage f (disk s)) as [[n0|e] dk] eqn:Hal; [|done].
  assert (Hwf0 : wf (set_disk dk s)) by by apply wf_set_disk.
  destruct (allocBuf (set_disk dk s)) as [[[fr0|e] s0]|] eqn:Ha; [|done..].
  destruct (allocBuf_Done _ _ _ Hwf0 Ha) as (Hlt & Hn & Hfr & _).
  destruct (allocBuf_frames _ _ _ Hwf0 Ha) as [Hpool _].
  pose proof (allocBuf_wf _ _ _ Hwf0 Ha) as (Hnum & _).
  pose proof (allocBuf_fault _ _ _ Hwf0 Ha) as Hfault.
  unfold BufHashTbl.insert in Hrun.
  destruct (hashTable s0 !! (f, n0)) eqn:Hlk; [done|]. simplify_eq.
  split; [done|]. split; [by rewrite numBufs_upd_desc|].
  split.
  { rewrite lookup_upd_desc_eq. cbn. rewrite Hfr. cbn. unfold Set_. cbn.
    by rewrite (Hnum fr _ (lookup_desc_at _ _ Hlt)). }
  split; [cbn; by rewrite lookup_insert_eq|]. split; [done|].
  split.
  { cbn. rewrite Hfault. cbn. unfold FileStore.allocatePage in Hal.
    repeat case_match; by simplify_eq. }
  split.
  - intros i Hi. rewrite desc_at_upd_desc_ne by done.
    apply (allocBuf_files _ _ _ i Hwf0 Ha).
  - intros j d Hd Hv Hp.
    destruct (allocBuf_pinned_kept (set_disk dk s) _ _ j d Hwf0 Ha Hd Hv Hp)
      as (Hne & [b Hb] & _).
    assert (fr ≠ j) by congruence. split; [done|].
    exists b. by rewrite lookup_upd_desc_ne.
Qed.

Lemma stop_kind_other file_ d : file d ≠ file_ → stop_kind file_ d = None.
Proof.
  intros Hne. unfold stop_kind.
  by rewrite (bool_decide_eq_false_2 _ Hne), !andb_false_r.
Qed.

Lemma stop_kind_unpinned file_ d :
  valid d = true → pinCnt d ≤ 0 → stop_kind file_ d = None.
Proof.
  intros Hv Hp. unfold stop_kind. rewrite Hv. cbn.
  destruct (bool_decide _); [|done].
  by destruct (Z.ltb_spec 0 (pinCnt d)); [lia|].
Qed.

Lemma first_stop_fmap_OK file_ (g : nat → BufDesc) l :
  (∀ i, i ∈ l → stop_kind file_ (g i) = None) → first_stop file_ (g <$> l) = OK.
Proof.
  induction l as [|a l IH]; intros Hall; [done|].
  rewrite fmap_cons, first_stop_cons, (Hall a) by left.
  apply IH. intros i Hi. apply Hall. by right.
Qed.

(** X22.  [createHeapFile] leaves an empty heap file on disk.  When no
    descriptor names the new file yet and the file accepts writes, a call
    that returns OK has written a header page that names one data page as
    first and last page with no records, and that data page, empty and
    with no successor; no page of the file stays in the pool. *)
Theorem createHeapFile_persists file_ name s s' :
  wf s → pooled s → file_ ≠ NULL →
  (∀ i d, bufTable s !! i = Some d → file d ≠ file_) →
  writes_accepted file_ (disk s) →
  Heap.createHeapFile file_ name s = Some (OK, s') →
  ∃ hdrPageNo newPageNo,
    hdrPageNo ≠ newPageNo
    ∧ FileStore.store (disk s') !! (file_, hdrPageNo)
      = Some (PHdr (mkHdr name newPageNo newPageNo 1 0))
    ∧ FileStore.store (disk s') !! (file_, newPageNo)
      = Some (PData (mkData newPageNo (-1) []))
    ∧ ∀ p, hashTable s' !! (file_, p) = None.
Proof.
  intros Hwf Hpool Hnn Hnone Hacc Hrun. unfold Heap.createHeapFile in Hrun.
  destruct (allocPage file_ s) as [[[[hp hf]|e] s1]|] eqn:Ha1; [| |done].
  2:{ apply allocPage_Fail in Ha1. by simplify_eq. }
  destruct (allocPage file_ s1) as [[[[np nf]|e] s2]|] eqn:Ha2; [| |done].
  2:{ apply allocPage_Fail in Ha2. by simplify_eq. }
  destruct (allocPage_Done _ _ _ _ _ Hwf Ha1)
    as (Hwf1 & Hn1 & Hd1 & Hh1 & Hp1 & Hf1 & Hfiles1 & _).
  destruct (allocPage_Done _ _ _ _ _ Hwf1 Ha2)
    as (Hwf2 & Hn2 & Hd2 & Hh2 & Hp2 & Hf2 & Hfiles2 & Hkept2).
  destruct (Hkept2 hf _ Hd1) as [Hne' [b Hd1']]; [done|cbn; lia|].
  assert (Hne : hf ≠ nf) by done.
  cbn in Hd1'.
  assert (Hidx : hashTable s2 !! (file_, hp) = Some hf).
  { destruct Hwf2 as (_ & Hic2 & _). by apply (Hic2 hf _ Hd1'). }
  assert (Hpn : hp ≠ np) by (intros ->; congruence).
  assert (Hlt_hf : (hf < length (bufPool s2))%nat).
  { rewrite Hp2, Hp1, Hpool, <- Hn1. by eapply lookup_lt_Some. }
  assert (Hlt_nf : (nf < length (bufPool s2))%nat).
  { rewrite Hp2, Hp1, Hpool, <- Hn1, <- Hn2. by eapply lookup_lt_Some. }
  injection Hrun as <-.
  set (DATA := PageLayer.setNextPage (-1) (PageLayer.init np (page_at s2 nf))).
  set (HDR := PHdr (mkHdr name np np 1 0)).
  set (s3 := set_page hf HDR (set_page nf DATA s2)).
  set (g := λ d, set_pinCnt (pinCnt d - 1) (set_dirty true d)).
  assert (Hu1 : unPinPage file_ hp true s3 = (OK, upd_desc hf g s3)).
  { unfold unPinPage, BufHashTbl.lookup.
    change (hashTable s3) with (hashTable s2). rewrite Hidx.
    change (desc_at s3 hf) with (desc_at s2 hf).
    by rewrite (desc_at_lookup _ _ _ Hd1'). }
  rewrite Hu1. cbn [snd]. set (s4 := upd_desc hf g s3).
  assert (Hu2 : unPinPage file_ np true s4 = (OK, upd_desc nf g s4)).
  { unfold unPinPage, BufHashTbl.lookup.
    change (hashTable s4) with (hashTable s2). rewrite Hh2.
    unfold s4. rewrite (desc_at_upd_desc_ne hf nf g s3 Hne).
    change (desc_at s3 nf) with (desc_at s2 nf).
    by rewrite (desc_at_lookup _ _ _ Hd2). }
  rewrite Hu2. cbn [snd]. set (s5 := upd_desc nf g s4).
  assert (Hn5 : numBufs s5 = numBufs s2)
    by (unfold s5, s4; by rewrite !numBufs_upd_desc).
  assert (Hhf5 : desc_at s5 hf = mkDesc file_ hp hf 0 true true b).
  { unfold s5. rewrite desc_at_upd_desc_ne by done. unfold s4.
    rewrite desc_at_upd_desc_eq by (eapply lookup_lt_Some; exact Hd1').
    change (desc_at s3 hf) with (desc_at s2 hf).
    by rewrite (desc_at_lookup _ _ _ Hd1'). }
  assert (Hnf5 : desc_at s5 nf = mkDesc file_ np nf 0 true true true).
  { unfold s5. rewrite desc_at_upd_desc_eq
      by (unfold s4; rewrite numBufs_upd_desc; eapply lookup_lt_Some; exact Hd2).
    unfold s4. rewrite (desc_at_upd_desc_ne hf nf g s3 Hne).
    change (desc_at s3 nf) with (desc_at s2 nf).
    by rewrite (desc_at_lookup _ _ _ Hd2). }
  assert (Hother : ∀ i, i ≠ hf → i ≠ nf → file (desc_at s5 i) ≠ file_).
  { intros i Hi1 Hi2. unfold s5, s4. rewrite !desc_at_upd_desc_ne by done.
    change (desc_at s3 i) with (desc_at s2 i).
    assert (file (desc_at s i) ≠ file_).
    { unfold desc_at. destruct (bufTable s !! i) as [d|] eqn:Hd; cbn; [|done].
      by eapply Hnone. }
    destruct (Hfiles2 i Hi2) as [->| ->]; [|done].
    destruct (Hfiles1 i Hi1) as [->| ->]; done. }
  assert (Hwf5 : wf s5).
  { assert (Hwf3 : wf s3) by (unfold s3; by do 2 apply wf_set_page).
    pose proof (unPinPage_wf file_ hp true s3 Hwf3) as Hwf4. rewrite Hu1 in Hwf4.
    pose proof (unPinPage_wf file_ np true s4 Hwf4) as H5. by rewrite Hu2 in H5. }
  assert (Hacc5 : writes_accepted file_ (disk s5)).
  { intros l n pg. change (disk s5) with (disk s2). rewrite Hf2, Hf1. apply Hacc. }
  destruct (flushFile file_ s5) as [st s6] eqn:Hfl. cbn [snd].
  unfold flushFile in Hfl.
  assert (st = OK) as ->.
  { destruct (flushFile_loop_status _ _ _ _ _ (NoDup_seq _ _) Hfl)
      as [->|(Hst & l & n & pg & Hfault & _)].
    - apply first_stop_fmap_OK. intros i _.
      destruct (decide (i = hf)) as [->|Hi1];
        [by rewrite Hhf5; apply stop_kind_unpinned|].
      destruct (decide (i = nf)) as [->|Hi2];
        [by rewrite Hnf5; apply stop_kind_unpinned|].
      by apply stop_kind_other, Hother.
    - by rewrite Hacc5 in Hfault. }
  assert (Hin : ∀ i, (i < numBufs s2)%nat → i ∈ seq 0 (numBufs s5)).
  { intros i Hi. apply elem_of_seq. lia. }
  assert (Hlt2_hf : (hf < numBufs s2)%nat) by (by eapply lookup_lt_Some).
  assert (Hlt2_nf : (nf < numBufs s2)%nat) by (by eapply lookup_lt_Some).
  exists hp, np. split; [done|]. split; [|split].
  - destruct (flushFile_loop_OK _ _ _ _ hf (NoDup_seq _ _) Hwf5 Hfl (Hin _ Hlt2_hf))
      as [_ Hw].
    rewrite Hhf5 in Hw. destruct (Hw eq_refl eq_refl) as [_ Hst]. cbn in Hst.
    rewrite (Hst eq_refl). f_equal.
    change (page_at s5 hf) with (page_at s3 hf). unfold s3.
    apply page_at_set_page_eq. cbn. by rewrite length_insert.
  - destruct (flushFile_loop_OK _ _ _ _ nf (NoDup_seq _ _) Hwf5 Hfl (Hin _ Hlt2_nf))
      as [_ Hw].
    rewrite Hnf5 in Hw. destruct (Hw eq_refl eq_refl) as [_ Hst]. cbn in Hst.
    rewrite (Hst eq_refl). f_equal.
    change (page_at s5 nf) with (page_at s3 nf). unfold s3.
    rewrite page_at_set_page_ne by done. by rewrite page_at_set_page_eq.
  - intros p. destruct (hashTable s6 !! (file_, p)) as [i|] eqn:Hlk; [|done].
    exfalso.
    pose proof (flushFile_loop_wf file_ (seq 0 (numBufs s5)) s5 Hwf5) as Hwf6.
    rewrite Hfl in Hwf6. cbn [snd] in Hwf6.
    destruct (proj2 (proj2 Hwf6) _ _ _ Hlk) as (d & Hd & _ & Hfd & _).
    assert (Hi : (i < numBufs s5)%nat).
    { pose proof (flushFile_loop_frames file_ (seq 0 (numBufs s5)) s5) as [_ H].
      rewrite Hfl in H. cbn [snd] in H. rewrite <- H. by eapply lookup_lt_Some. }
    apply (flushFile_loop_files file_ (seq 0 (numBufs s5)) s5 s6 i Hnn Hfl).
    + left. apply elem_of_seq. lia.
    + by rewrite (desc_at_lookup _ _ _ Hd).
Qed.

Lemma createHeapFile_persists_witness :
  let s := new 4 HeapScenario.empty_disk in
  let s' := default s HeapScenario.created in
  wf s ∧ pooled s ∧ (1%N : FilePtr) ≠ NULL
  ∧ (∀ i d, bufTable s !! i = Some d → file d ≠ 1%N)
  ∧ writes_accepted 1 (disk s)
  ∧ Heap.createHeapFile 1 [] s = Some (OK, s')
  ∧ ∃ hdrPageNo newPageNo,
      hdrPageNo ≠ newPageNo
      ∧ FileStore.store (disk s') !! (1%N, hdrPageNo)
        = Some (PHdr (mkHdr [] newPageNo newPageNo 1 0))
      ∧ FileStore.store (disk s') !! (1%N, newPageNo)
        = Some (PData (mkData newPageNo (-1) []))
      ∧ ∀ p, hashTable s' !! (1%N, p) = None.
Proof.
  intros s s'.
  assert (Hwf : wf s) by apply wf_new.
  assert (Hpool : pooled s) by apply pooled_new.
  assert (Hnn : (1%N : FilePtr) ≠ NULL) by done.
  assert (Hnone : ∀ i d, bufTable s !! i = Some d → file d ≠ 1%N).
  { intros i d Hd. vm_compute in Hd.
    destruct i as [|[|[|[|i]]]]; simplify_eq; done. }
  assert (Hacc : writes_accepted 1 (disk s)) by (intros l n pg; reflexivity).
  assert (Hrun : Heap.createHeapFile 1 [] s = Some (OK, s'))
    by (vm_compute; reflexivity).
  repeat (split; [assumption|]).
  exact (createHeapFile_persists 1 [] s s' Hwf Hpool Hnn Hnone Hacc Hrun).
Defined.

(** ** A full cursor page *)

Lemma page_at_upd_desc i g s j : page_at (upd_desc i g s) j = page_at s j.
Proof. done. Qed.

Lemma desc_at_set_page i pg s j : desc_at (set_page i pg s) j = desc_at s j.
Proof. done. Qed.






(** ** The cursor of an [InsertFileScan] *)

Lemma open_cursor f p h0 s0 h s :
  Heap.open f p h0 s0 = Some (OK, h, s) → is_Some (Heap.curPage h).
Proof.
  unfold Heap.open. intros H.
  destruct (readPage f p s0) as [[[hf|e] s1]|] eqn:E1; [| |done].
  - cbn beta iota zeta in H.
    match type of H with context [readPage ?a ?b ?c] =>
      destruct (readPage a b c) as [[[fr|e] s2]|] eqn:E2 end; [| |done].
    + injection H as <- <-. by eexists.
    + apply readPage_Fail in E2. congruence.
  - apply readPage_Fail in E1. congruence.
Qed.

Lemma insertRecord_newPage_cursor rec c h s r h' s' :
  is_Some (Heap.curPage h) →
  Heap.insertRecord_newPage rec c h s = Some (r, h', s') →
  is_Some (Heap.curPage h').
Proof.
  intros Hc. unfold Heap.insertRecord_newPage. intros H.
  repeat case_match; simplify_eq; cbn; done || by eexists.
Qed.

Lemma insertRecord_cursor_kept rec h s r h' s' :
  is_Some (Heap.curPage h) →
  Heap.insertRecord rec h s = Some (r, h', s') →
  is_Some (Heap.curPage h').
Proof.
  intros [c Hc]. unfold Heap.insertRecord, Heap.insertRecord_cursor.
  rewrite Hc. intros H.
  case_match; [simplify_eq; by eexists|].
  cbn beta iota in H. rewrite Hc in H.
  destruct (PageLayer.insertRecord (page_at s c) rec) as [[rid|e] pg].
  - simplify_eq. by eexists.
  - destruct e; simplify_eq; try by eexists.
    eapply insertRecord_newPage_cursor; [|done]. by eexists.
Qed.

Lemma getRecord_cursor_kept rid h s r h' s' :
  is_Some (Heap.curPage h) →
  Heap.getRecord rid h s = Some (r, h', s') →
  is_Some (Heap.curPage h').
Proof.
  intros [c Hc]. unfold Heap.getRecord, Heap.getRecord_move.
  rewrite Hc. intros H.
  repeat case_match; simplify_eq; cbn; by eexists.
Qed.

Lemma insert_uses_cursor us h s h' s' :
  is_Some (Heap.curPage h) →
  insert_uses us h s = Some (h', s') →
  is_Some (Heap.curPage h').
Proof.
  revert h s. induction us as [|u us IH]; intros h s Hc H; cbn in H.
  - by simplify_eq.
  - destruct (insert_use u h s) as [[h1 s1]|] eqn:Eu; [|done].
    apply (IH h1 s1); [|done].
    destruct u as [rec|rid|o]; cbn in Eu.
    + destruct (Heap.insertRecord rec h s) as [[[r h2] s2]|] eqn:E; [|done].
      simplify_eq. by eapply insertRecord_cursor_kept.
    + destruct (Heap.getRecord rid h s) as [[[r h2] s2]|] eqn:E; [|done].
      simplify_eq. by eapply getRecord_cursor_kept.
    + destruct (exec o s) as [[st s2]|]; by simplify_eq.
Qed.

(** X25: an [InsertFileScan] never loses its cursor.  After a constructor
    that returned OK, whatever [insertRecord] and [getRecord] calls are
    made on the scan, with whatever results, and whatever calls of the
    buffer manager come in between, [curPage] is not null, so that the
    [if (!curPage)] block of [insertRecord] is passed over in every pool
    state: it unpins nothing and reads nothing.  [curPage] is nulled by the
    destructors only. *)
Theorem insert_scan_keeps_cursor f p h0 s0 h s us h' s' :
  Heap.open f p h0 s0 = Some (OK, h, s) →
  insert_uses us h s = Some (h', s') →
  is_Some (Heap.curPage h')
  ∧ ∀ s'', Heap.insertRecord_cursor h' s'' = Some (OK, h', s'').
Proof.
  intros Ho Hu.
  assert (Hc : is_Some (Heap.curPage h'))
    by (eapply insert_uses_cursor; [by eapply open_cursor|done]).
  split; [done|]. intros s''. unfold Heap.insertRecord_cursor.
  by destruct Hc as [c ->].
Qed.

Lemma insert_scan_keeps_cursor_witness :
  Heap.open 1 1 HeapScenario.raw_handle
            (default (new 4 HeapScenario.empty_disk) HeapScenario.created)
  = Some (OK, opened_pair.1, opened_pair.2)
  ∧ insert_uses cursor_uses opened_pair.1 opened_pair.2
    = Some (cursor_used.1, cursor_used.2)
  ∧ is_Some (Heap.curPage cursor_used.1)
  ∧ ∀ s'', Heap.insertRecord_cursor cursor_used.1 s''
           = Some (OK, cursor_used.1, s'').
Proof.
  assert (Ho : Heap.open 1 1 HeapScenario.raw_handle
                 (default (new 4 HeapScenario.empty_disk) HeapScenario.created)
               = Some (OK, opened_pair.1, opened_pair.2))
    by (vm_compute; reflexivity).
  assert (Hu : insert_uses cursor_uses opened_pair.1 opened_pair.2
               = Some (cursor_used.1, cursor_used.2))
    by (vm_compute; reflexivity).
  split; [exact Ho|]. split; [exact Hu|].
  exact (insert_scan_keeps_cursor _ _ _ _ _ _ _ _ _ Ho Hu).
Defined.

End HandleProps.

(** * The order of a scan *)

Module ScanOrderProps.
Import BufMgr BufInv BufMgrFacts HeapInv HeapFacts HeapUse HeapProps.

Lemma first_used_recs pno sl : ∀ i,
  match PageLayer.first_used i sl with
  | Some j =>
      ∃ r, (i ≤ j)%nat ∧ sl !! (j - i)%nat = Some (Some r)
        ∧ used_recs pno i sl
          = (mkRID pno (Z.of_nat j), r)
              :: used_recs pno (S j) (drop (S (j - i)) sl)
  | None => used_recs pno i sl = []
  end.
Proof.
  induction sl as [|[r|] sl IH]; intros i; cbn; [done| |].
  - exists r. rewrite Nat.sub_diag. cbn. by rewrite drop_0.
  - specialize (IH (S i)).
    destruct (PageLayer.first_used (S i) sl) as [j|]; [|done].
    destruct IH as (r & Hle & Hlk & Heq). exists r.
    replace (j - i)%nat with (S (j - S i)) by lia. cbn.
    split; [lia|]. by split.
Qed.

Lemma nextRecord_recs pg cur :
  match PageLayer.nextRecord pg cur with
  | Done rid =>
      ∃ r, PageLayer.getRecord pg rid = Done r
        ∧ page_recs pg (next_slot cur) = (rid, r) :: page_recs pg (next_slot rid)
  | Fail _ => page_recs pg (next_slot cur) = []
  end.
Proof.
  unfold PageLayer.nextRecord, PageLayer.used_from, page_recs.
  fold (next_slot cur). set (d := PageLayer.as_data pg). set (k := next_slot cur).
  pose proof (first_used_recs (dpPageNo d) (drop k (slots d)) k) as H.
  destruct (PageLayer.first_used k (drop k (slots d))) as [j|]; [|done].
  destruct H as (r & Hle & Hlk & Heq). exists r.
  rewrite lookup_drop in Hlk. replace (k + (j - k))%nat with j in Hlk by lia.
  split.
  - unfold PageLayer.getRecord. cbn. fold d.
    destruct (Z.ltb_spec (Z.of_nat j) 0); [lia|]. by rewrite Nat2Z.id, Hlk.
  - rewrite Heq. f_equal. unfold next_slot. cbn.
    replace (Z.to_nat (Z.of_nat j + 1)) with (S j) by lia.
    rewrite drop_drop. do 2 f_equal. lia.
Qed.

Lemma used_recs_nil pno sl : ∀ i,
  used_recs pno i sl = [] → ∀ j k, used_recs pno j (drop k sl) = [].
Proof.
  induction sl as [|[r|] sl IH]; intros i Hnil j k.
  - by rewrite drop_nil.
  - done.
  - destruct k as [|k]; cbn.
    + apply (IH (S i) Hnil (S j) 0%nat).
    + by apply (IH (S i)).
Qed.

Lemma firstRecord_recs pg :
  match PageLayer.firstRecord pg with
  | Done rid =>
      ∃ r, PageLayer.getRecord pg rid = Done r
        ∧ page_recs pg 0 = (rid, r) :: page_recs pg (next_slot rid)
  | Fail _ => ∀ k, page_recs pg k = []
  end.
Proof.
  pose proof (nextRecord_recs pg NULLRID) as H.
  change (PageLayer.nextRecord pg NULLRID) with
    (match PageLayer.used_from 0 (PageLayer.as_data pg) with
     | Some i => Done (mkRID (dpPageNo (PageLayer.as_data pg)) (Z.of_nat i))
     | None => Fail ENDOFPAGE
     end) in H.
  unfold PageLayer.firstRecord.
  destruct (PageLayer.used_from 0 (PageLayer.as_data pg)); [exact H|].
  intros k. unfold page_recs in *. change (next_slot NULLRID) with 0%nat in H.
  rewrite drop_0 in H. by apply (used_recs_nil _ _ 0%nat).
Qed.

Lemma chain_recs_ext cont cont' n : ∀ pno k,
  (∀ p, cont' p = cont p) → chain_recs cont' n pno k = chain_recs cont n pno k.
Proof.
  induction n as [|n IH]; intros pno k Hc; cbn; rewrite Hc; [done|].
  destruct (_ =? _); [done|]. by rewrite IH.
Qed.

Lemma chain_recs_S cont n pno k :
  chain_recs cont (S n) pno k
  = page_recs (default blankPage (cont pno)) k
    ++ (if nextPage (PageLayer.as_data (default blankPage (cont pno))) =? -1
        then []
        else chain_recs cont n
               (nextPage (PageLayer.as_data (default blankPage (cont pno)))) 0).
Proof. done. Qed.

Lemma chain_recs_page cont n pno k :
  ∃ rest, chain_recs cont n pno k
          = page_recs (default blankPage (cont pno)) k ++ rest
    ∧ ∀ k', chain_recs cont n pno k'
            = page_recs (default blankPage (cont pno)) k' ++ rest.
Proof. destruct n; eexists; split; reflexivity || (intros; reflexivity). Qed.

Section Order.
Variable float_diff : list byte → list byte → Heap.Diff.

Lemma scan_check_recs h0 h c s r :
  same_scan h0 h →
  PageLayer.getRecord (page_at s c) (Heap.curRec h) = Done r →
  match scan_check float_diff h c s with
  | Stop (Done rid) h' s' =>
      rid = Heap.curRec h ∧ Heap.matchRec float_diff h0 r = true
      ∧ h' = h ∧ s' = s
  | Again h' s' => Heap.matchRec float_diff h0 r = false ∧ h' = h ∧ s' = s
  | _ => False
  end.
Proof.
  intros Hsame Hget. unfold scan_check. rewrite Hget.
  rewrite (matchRec_same_scan float_diff h0 h r Hsame).
  by destruct (Heap.matchRec float_diff h0 r).
Qed.

Lemma scan_step_recs h s n :
  scan_inv h s → (1 ≤ n)%nat →
  match scan_step float_diff h s with
  | Stop (Done rid) h' s' =>
      ∃ rec m,
        chain_recs (content s (Heap.filePtr h)) n
                   (Heap.curPageNo h) (next_slot (Heap.curRec h))
        = (rid, rec) :: chain_recs (content s (Heap.filePtr h)) m
                          (Heap.curPageNo h') (next_slot (Heap.curRec h'))
        ∧ Heap.matchRec float_diff h rec = true
        ∧ (n ≤ m + 1)%nat ∧ step_post h s h' s'
  | Again h' s' =>
      ∃ pre m,
        chain_recs (content s (Heap.filePtr h)) n
                   (Heap.curPageNo h) (next_slot (Heap.curRec h))
        = pre ++ chain_recs (content s (Heap.filePtr h)) m
                   (Heap.curPageNo h') (next_slot (Heap.curRec h'))
        ∧ Forall (λ x, Heap.matchRec float_diff h x.2 = false) pre
        ∧ (n ≤ m + 1)%nat ∧ step_post h s h' s'
  | _ => True
  end.
Proof.
  intros (Hwf & Hpool & Hs & c & Hc & Hh) Hn.
  destruct n as [|n]; [lia|].
  unfold scan_step. rewrite Hc.
  set (cont := content s (Heap.filePtr h)).
  assert (Hpg0 : page_at s c = default blankPage (cont (Heap.curPageNo h)))
    by apply (holds_page_at _ _ _ _ _ Hwf Hh).
  pose proof (nextRecord_recs (page_at s c) (Heap.curRec h)) as Hnext.
  destruct (PageLayer.nextRecord (page_at s c) (Heap.curRec h)) as [nextRid|e].
  - (* the next record of the page *)
    destruct Hnext as (r & Hget & Hrecs).
    assert (Hchain : chain_recs cont (S n) (Heap.curPageNo h)
                       (next_slot (Heap.curRec h))
                     = (nextRid, r) :: chain_recs cont (S n) (Heap.curPageNo h)
                                         (next_slot nextRid)).
    { rewrite !chain_recs_S, <- Hpg0, Hrecs. done. }
    assert (Hpost : step_post h s (Heap.set_curRec nextRid h) s).
    { split; [|by repeat split].
      split; [done|]. split; [done|]. split; [done|]. by exists c. }
    pose proof (scan_check_recs h (Heap.set_curRec nextRid h) c s r
                  (same_scan_refl h) Hget) as Hck.
    destruct (scan_check float_diff (Heap.set_curRec nextRid h) c s)
      as [[rid|e0] h' s'|h' s'|]; try done.
    + destruct Hck as (-> & Hm & -> & ->). exists r, (S n).
      split; [exact Hchain|]. split; [done|]. split; [lia|done].
    + destruct Hck as (Hm & -> & ->). exists [(nextRid, r)], (S n).
      split; [exact Hchain|]. split; [by repeat constructor|]. split; [lia|done].
  - (* the next page *)
    cbn [PageLayer.getNextPage].
    destruct (nextPage (PageLayer.as_data (page_at s c)) =? -1) eqn:Hlast; [done|].
    set (n0 := nextPage (PageLayer.as_data (page_at s c))) in *.
    destruct (unPinPage _ _ _ s) as [st1 s1] eqn:Hunpin.
    destruct (decide (st1 = OK)) as [->|Hne]; [|by destruct st1].
    destruct (unPinPage_scan _ _ _ _ _ _ Hwf Hpool Hs Hh Hunpin)
      as (Hwf1 & Hpool1 & Hs1 & Hc1).
    set (h1 := Heap.set_curDirtyFlag false (Heap.set_curPageNo n0 h)).
    change (Heap.filePtr h1) with (Heap.filePtr h).
    change (Heap.curPageNo h1) with n0.
    destruct (readPage (Heap.filePtr h) n0 s1) as [[[frame|e''] s2]|] eqn:Hread;
      [|done..].
    destruct (readPage_scan _ _ _ _ _ Hwf1 Hpool1 Hs1 Hread)
      as (Hwf2 & Hpool2 & Hs2 & Hc2 & Hh2).
    set (h2 := Heap.set_curPage (Some frame) h1).
    assert (Hpost : ∀ rid, step_post h s (Heap.set_curRec rid h2) s2).
    { intros rid. split; [|split; [by repeat split|split; [by repeat split|]]].
      - split; [done|]. split; [done|]. split; [done|]. by exists frame.
      - intros p. by rewrite Hc2, Hc1. }
    assert (Hpg : page_at s2 frame = default blankPage (cont n0)).
    { rewrite (holds_page_at _ _ _ _ _ Hwf2 Hh2). unfold cont.
      by rewrite Hc2, Hc1. }
    assert (Hhop : chain_recs cont (S n) (Heap.curPageNo h)
                     (next_slot (Heap.curRec h))
                   = chain_recs cont n n0 0).
    { rewrite chain_recs_S, <- Hpg0, Hnext. fold n0. by rewrite Hlast. }
    destruct (chain_recs_page cont n n0 0) as (rest & Hrest0 & Hrest).
    rewrite <- Hpg in Hrest0, Hrest.
    pose proof (firstRecord_recs (page_at s2 frame)) as Hfirst.
    destruct (PageLayer.firstRecord (page_at s2 frame)) as [rid|e3].
    + destruct Hfirst as (r & Hget & Hrecs).
      assert (Hchain : chain_recs cont (S n) (Heap.curPageNo h)
                         (next_slot (Heap.curRec h))
                       = (rid, r) :: chain_recs cont n n0 (next_slot rid)).
      { by rewrite Hhop, Hrest0, Hrecs, (Hrest (next_slot rid)). }
      pose proof (scan_check_recs h (Heap.set_curRec rid h2) frame s2 r
                    (proj1 (proj2 (Hpost rid))) Hget) as Hck.
      destruct (scan_check float_diff (Heap.set_curRec rid h2) frame s2)
        as [[rid'|e0] h' s'|h' s'|]; try done.
      * destruct Hck as (-> & Hm & -> & ->). exists r, n.
        split; [exact Hchain|]. split; [done|]. split; [lia|apply Hpost].
      * destruct Hck as (Hm & -> & ->). exists [(rid, r)], n.
        split; [exact Hchain|]. split; [by repeat constructor|].
        split; [lia|apply Hpost].
    + exists [], n. split.
      { change (chain_recs cont (S n) (Heap.curPageNo h)
                  (next_slot (Heap.curRec h))
                = chain_recs cont n n0 (next_slot (Heap.curRec h))).
        rewrite Hhop, Hrest0, (Hrest (next_slot (Heap.curRec h))).
        by rewrite !Hfirst. }
      split; [done|]. split; [lia|]. apply (Hpost (Heap.curRec h)).
Qed.

Lemma scanNext_loop_recs fuel : ∀ h s rid h' s' n,
  scan_inv h s →
  Heap.scanNext_loop float_diff fuel h s = Some (Done rid, h', s') →
  (fuel ≤ n)%nat →
  ∃ pre rec m,
    chain_recs (content s (Heap.filePtr h)) n
               (Heap.curPageNo h) (next_slot (Heap.curRec h))
    = pre ++ (rid, rec)
          :: chain_recs (content s (Heap.filePtr h)) m
               (Heap.curPageNo h') (next_slot (Heap.curRec h'))
    ∧ Forall (λ x, Heap.matchRec float_diff h x.2 = false) pre
    ∧ Heap.matchRec float_diff h rec = true
    ∧ (n ≤ m + fuel)%nat ∧ step_post h s h' s'.
Proof.
  induction fuel as [|fuel IH]; intros h s rid h' s' n Hinv Hrun Hle; [done|].
  rewrite scanNext_loop_S in Hrun.
  pose proof (scan_step_recs h s n Hinv) as Hstep.
  destruct (scan_step float_diff h s) as [r h1 s1|h1 s1|]; [| |done].
  - simplify_eq. destruct Hstep as (rec & m & Heq & Hm & Hnm & Hpost); [lia|].
    exists [], rec, m. split; [done|]. split; [done|]. split; [done|].
    split; [lia|done].
  - destruct Hstep as (pre1 & m1 & Heq1 & Hpre1 & Hnm1 & Hpost1); [lia|].
    pose proof Hpost1 as (Hinv1 & Hsame1 & _ & Hcont1).
    destruct (IH h1 s1 rid h' s' m1 Hinv1 Hrun) as
      (pre2 & rec & m & Heq2 & Hpre2 & Hm & Hnm & Hpost2); [lia|].
    assert (Hf1 : Heap.filePtr h1 = Heap.filePtr h) by apply Hsame1.
    rewrite Hf1 in Heq2.
    rewrite !(chain_recs_ext (content s (Heap.filePtr h))
                             (content s1 (Heap.filePtr h))) in Heq2 by done.
    exists (pre1 ++ pre2), rec, m. split; [|split; [|split; [|split]]].
    + by rewrite Heq1, Heq2, <- app_assoc.
    + apply Forall_app. split; [done|].
      eapply Forall_impl; [exact Hpre2|]. intros x Hx.
      by rewrite <- (matchRec_same_scan float_diff h h1).
    + by rewrite <- (matchRec_same_scan float_diff h h1).
    + lia.
    + by eapply step_post_trans.
Qed.

(** X24.  [scanNext] returns the first record, in the order of the file,
    that satisfies the predicate of the scan.  The order is slot order
    within a page, the pages in the order of their [nextPage] links, from
    the record after the current one.  When a call with a cursor page
    returns OK, the records it has passed over are exactly those that precede
    the returned one in that order and none of them satisfies the predicate;
    the returned one does; and what follows the new position of the scan is
    the rest of the file. *)
Theorem scanNext_first_match fuel h s rid h' s' n :
  scan_inv h s →
  Heap.scanNext float_diff fuel h s = Some (Done rid, h', s') →
  (fuel ≤ n)%nat →
  ∃ pre rec m,
    chain_recs (content s (Heap.filePtr h)) n
               (Heap.curPageNo h) (next_slot (Heap.curRec h))
    = pre ++ (rid, rec)
          :: chain_recs (content s (Heap.filePtr h)) m
               (Heap.curPageNo h') (next_slot (Heap.curRec h'))
    ∧ Forall (λ x, Heap.matchRec float_diff h x.2 = false) pre
    ∧ Heap.matchRec float_diff h rec = true
    ∧ (n ≤ m + fuel)%nat.
Proof.
  intros Hinv Hrun Hle. pose proof Hinv as (_ & _ & _ & c & Hc & _).
  unfold Heap.scanNext in Hrun. rewrite Hc in Hrun.
  destruct (scanNext_loop_recs fuel h s rid h' s' n Hinv Hrun Hle)
    as (pre & rec & m & ? & ? & ? & ? & _).
  by exists pre, rec, m.
Qed.

End Order.

Lemma chain_filtered_inv : scan_inv chain_filtered HeapScenario.chain_pool.
Proof.
  destruct chain_scan_inv as (Hwf & Hpool & Hs & c & Hc & Hh).
  split; [done|]. split; [done|]. split; [done|]. by exists c.
Qed.

Lemma scanNext_first_match_witness :
  let h := chain_filtered in
  let s := HeapScenario.chain_pool in
  let r := chain_filtered_found in
  scan_inv h s
  ∧ Heap.scanNext HeapScenario.no_floats 10 h s = Some (Done (mkRID 3 0), r.1, r.2)
  ∧ (10 ≤ 10)%nat
  ∧ ∃ pre rec m,
      chain_recs (content s (Heap.filePtr h)) 10
                 (Heap.curPageNo h) (next_slot (Heap.curRec h))
      = pre ++ (mkRID 3 0, rec)
            :: chain_recs (content s (Heap.filePtr h)) m
                 (Heap.curPageNo r.1) (next_slot (Heap.curRec r.1))
      ∧ Forall (λ x, Heap.matchRec HeapScenario.no_floats h x.2 = false) pre
      ∧ Heap.matchRec HeapScenario.no_floats h rec = true
      ∧ (10 ≤ m + 10)%nat.
Proof.
  intros h s r.
  assert (Hinv : scan_inv h s) by apply chain_filtered_inv.
  assert (Hrun : Heap.scanNext HeapScenario.no_floats 10 h s
                 = Some (Done (mkRID 3 0), r.1, r.2)) by (vm_compute; reflexivity).
  assert (Hle : (10 ≤ 10)%nat) by lia.
  repeat (split; [assumption|]).
  exact (scanNext_first_match HeapScenario.no_floats 10 h s _ _ _ 10 Hinv Hrun Hle).
Defined.

End ScanOrderProps.
